(** * libgeometry: volumetric modelling core (geometry/volume.hpp)

    Shallow embedding of the voxel containers, the georeferencing layer,
    the directional iterator and the algorithms built on them.

    Conventions of the embedding:
    - C++ [int] is the type [Z]; arithmetic overflow (undefined behaviour
      in the source) is outside the model.
    - [double] and [float] quantities are rationals [Q].  The iterator end
      marker [gend] and [downscale] round every operation as the machine
      does ([to_float], [to_double]); the georeferencing conversions, the
      isosurface extraction and the distance transform are in exact
      arithmetic, the rounding error of binary floating point being
      outside the model there.
    - A method that mutates [*this] returns the new object.  The octree
      setter recurses without a bound in the source; here its recursion
      depth is bounded by a fuel argument and exhaustion is [None]. *)

From Stdlib Require Import ZArith QArith Qround Qcanon Qminmax Qabs Qpower Lia Lqa.
From stdpp Require Import base option list numbers gmap.

Local Open Scope Z_scope.

(** ** VolumeBase_t: lattice positions and displacements *)

Record Position_s := Position { pos_x : Z; pos_y : Z; pos_z : Z }.
Record Displacement_s := Displacement { dif_x : Z; dif_y : Z; dif_z : Z }.
Record FPosition_s := FPosition { fpos_x : Q; fpos_y : Q; fpos_z : Q }.

#[global] Instance Position_eq_dec : EqDecision Position_s.
Proof. solve_decision. Defined.
#[global] Instance Displacement_eq_dec : EqDecision Displacement_s.
Proof. solve_decision. Defined.

(** [Position_s::operator-(Position_s)], [operator+(Displacement_s)],
    [operator-(Displacement_s)], [Displacement_s::operator*]. *)
Definition pos_diff (p q : Position_s) : Displacement_s :=
  Displacement (pos_x p - pos_x q) (pos_y p - pos_y q) (pos_z p - pos_z q).
Definition pos_add (p : Position_s) (d : Displacement_s) : Position_s :=
  Position (pos_x p + dif_x d) (pos_y p + dif_y d) (pos_z p + dif_z d).
Definition pos_sub (p : Position_s) (d : Displacement_s) : Position_s :=
  Position (pos_x p - dif_x d) (pos_y p - dif_y d) (pos_z p - dif_z d).
Definition dif_scale (d : Displacement_s) (f : Z) : Displacement_s :=
  Displacement (f * dif_x d) (f * dif_y d) (f * dif_z d).

(** The range test shared by every [get] and [set]:
    [i < 0 || i >= sizeX || j < 0 || j >= sizeY || k < 0 || k >= sizeZ]. *)
Definition out_of_range (sizeX sizeY sizeZ i j k : Z) : bool :=
  (i <? 0) || (i >=? sizeX) || (j <? 0) || (j >=? sizeY)
  || (k <? 0) || (k >=? sizeZ).

(** ** Volume_t: the octree container *)

Module Octree.
Section Octree.
Context {V : Type} `{EqDecision V}.

(** [Node_s]: [type], [value] and [subnodes[8]], the latter indexed by
    octant. *)
Inductive Node_s : Type :=
| SOLID (value : V)
| GRAY (s0 s1 s2 s3 s4 s5 s6 s7 : Node_s).

Definition OCT_X : Z := 4.
Definition OCT_Y : Z := 2.
Definition OCT_Z : Z := 1.

Definition findOctant (nodeSize : Z) (pos : Position_s) : Z :=
  let retval := 0 in
  let retval :=
    if pos_x pos >=? (nodeSize ≫ 1) then Z.lor retval OCT_X else retval in
  let retval :=
    if pos_y pos >=? (nodeSize ≫ 1) then Z.lor retval OCT_Y else retval in
  let retval :=
    if pos_z pos >=? (nodeSize ≫ 1) then Z.lor retval OCT_Z else retval in
  retval.

Definition toOctant (octant nodeSize : Z) (pos : Position_s) : Position_s :=
  Position
    (if Z.land octant OCT_X =? 0 then pos_x pos
     else pos_x pos - (nodeSize ≫ 1))
    (if Z.land octant OCT_Y =? 0 then pos_y pos
     else pos_y pos - (nodeSize ≫ 1))
    (if Z.land octant OCT_Z =? 0 then pos_z pos
     else pos_z pos - (nodeSize ≫ 1)).

Definition fromOctant (octant nodeSize : Z) (pos : Position_s) : Position_s :=
  Position
    (if Z.land octant OCT_X =? 0 then pos_x pos
     else pos_x pos + (nodeSize ≫ 1))
    (if Z.land octant OCT_Y =? 0 then pos_y pos
     else pos_y pos + (nodeSize ≫ 1))
    (if Z.land octant OCT_Z =? 0 then pos_z pos
     else pos_z pos + (nodeSize ≫ 1)).

(** [subnodes[octant]].  [findOctant] only yields 0..7; the last branch
    is never taken. *)
Definition subnode (octant : Z) (s0 s1 s2 s3 s4 s5 s6 s7 : Node_s) : Node_s :=
  match octant with
  | 0 => s0 | 1 => s1 | 2 => s2 | 3 => s3
  | 4 => s4 | 5 => s5 | 6 => s6 | 7 => s7
  | _ => s0
  end.

(** The node after [subnodes[octant]] has been replaced by [c]. *)
Definition with_subnode (octant : Z) (c : Node_s)
    (s0 s1 s2 s3 s4 s5 s6 s7 : Node_s) : Node_s :=
  match octant with
  | 0 => GRAY c s1 s2 s3 s4 s5 s6 s7
  | 1 => GRAY s0 c s2 s3 s4 s5 s6 s7
  | 2 => GRAY s0 s1 c s3 s4 s5 s6 s7
  | 3 => GRAY s0 s1 s2 c s4 s5 s6 s7
  | 4 => GRAY s0 s1 s2 s3 c s5 s6 s7
  | 5 => GRAY s0 s1 s2 s3 s4 c s6 s7
  | 6 => GRAY s0 s1 s2 s3 s4 s5 c s7
  | 7 => GRAY s0 s1 s2 s3 s4 s5 s6 c
  | _ => GRAY s0 s1 s2 s3 s4 s5 s6 s7
  end.

Fixpoint Node_get (nodeSize : Z) (pos : Position_s) (n : Node_s) : V :=
  match n with
  | SOLID value => value
  | GRAY s0 s1 s2 s3 s4 s5 s6 s7 =>
      let octant := findOctant nodeSize pos in
      Node_get (nodeSize ≫ 1) (toOctant octant nodeSize pos)
               (subnode octant s0 s1 s2 s3 s4 s5 s6 s7)
  end.

(** One iteration of the collapse test:
    [subnodes[i]->type != SOLID || subnodes[i]->value != value]
    negated. *)
Definition matches (value : V) (n : Node_s) : bool :=
  match n with
  | SOLID w => bool_decide (w = value)
  | GRAY _ _ _ _ _ _ _ _ => false
  end.

(** "check for possible node collapse" at the end of [Node_s::set]. *)
Definition collapse (value : V) (n : Node_s) : Node_s :=
  match n with
  | SOLID _ => n
  | GRAY s0 s1 s2 s3 s4 s5 s6 s7 =>
      let fullMatch :=
        matches value s0 && matches value s1 && matches value s2
        && matches value s3 && matches value s4 && matches value s5
        && matches value s6 && matches value s7 in
      if fullMatch then SOLID value else n
  end.

(** [Node_s::set].  [fuel] bounds the recursion depth. *)
Fixpoint Node_set (fuel : nat) (nodeSize : Z) (pos : Position_s)
    (value : V) (n : Node_s) {struct fuel} : option Node_s :=
  match fuel with
  | O => None
  | S fuel' =>
      let gray s0 s1 s2 s3 s4 s5 s6 s7 :=
        let octant := findOctant nodeSize pos in
        c ← Node_set fuel' (nodeSize ≫ 1) (toOctant octant nodeSize pos)
              value (subnode octant s0 s1 s2 s3 s4 s5 s6 s7);
        Some (collapse value
                (with_subnode octant c s0 s1 s2 s3 s4 s5 s6 s7)) in
      match n with
      | SOLID old =>
          if decide (old = value) then Some n
          else if decide (nodeSize = 1) then Some (SOLID value)
          else gray (SOLID old) (SOLID old) (SOLID old) (SOLID old)
                    (SOLID old) (SOLID old) (SOLID old) (SOLID old)
      | GRAY s0 s1 s2 s3 s4 s5 s6 s7 => gray s0 s1 s2 s3 s4 s5 s6 s7
      end
  end.

Fixpoint Node_nodeCount (n : Node_s) : Z :=
  match n with
  | SOLID _ => 1
  | GRAY s0 s1 s2 s3 s4 s5 s6 s7 =>
      1 + Node_nodeCount s0 + Node_nodeCount s1 + Node_nodeCount s2
      + Node_nodeCount s3 + Node_nodeCount s4 + Node_nodeCount s5
      + Node_nodeCount s6 + Node_nodeCount s7
  end.

Record Volume_t := mkVolume_t {
  root : Node_s;
  rootSize : Z;
  vol_sizeX : Z;
  vol_sizeY : Z;
  vol_sizeZ : Z;
  vol_initValue : V
}.

(** The constructor.  [_rootSize] is
    [int(round(exp(log(2.0) * ceil(log(max(sizeX, sizeY, sizeZ)) / log(2.0)))))],
    the least power of two that is at least the largest extent; for a
    largest extent of zero the source evaluates [exp(-inf)], that is 0. *)
Definition Volume (sizeX sizeY sizeZ : Z) (initValue : V) : Volume_t :=
  let m := Z.max sizeX (Z.max sizeY sizeZ) in
  {| root := SOLID initValue;
     rootSize := if 0 <? m then 2 ^ Z.log2_up m else 0;
     vol_sizeX := sizeX; vol_sizeY := sizeY; vol_sizeZ := sizeZ;
     vol_initValue := initValue |}.

Definition Volume_get (v : Volume_t) (i j k : Z) : V :=
  if out_of_range (vol_sizeX v) (vol_sizeY v) (vol_sizeZ v) i j k
  then vol_initValue v
  else Node_get (rootSize v) (Position i j k) (root v).

(** Recursion depth granted to a [set] on a tree whose root spans
    [nodeSize] voxels: one call per halving of [nodeSize]. *)
Definition depth_bound (nodeSize : Z) : nat := S (Z.to_nat (Z.log2 nodeSize)).

Definition Volume_set (v : Volume_t) (i j k : Z) (value : V)
    : option Volume_t :=
  if out_of_range (vol_sizeX v) (vol_sizeY v) (vol_sizeZ v) i j k
  then Some v
  else
    r ← Node_set (depth_bound (rootSize v)) (rootSize v)
           (Position i j k) value (root v);
    Some {| root := r; rootSize := rootSize v;
            vol_sizeX := vol_sizeX v; vol_sizeY := vol_sizeY v;
            vol_sizeZ := vol_sizeZ v; vol_initValue := vol_initValue v |}.

Definition Volume_nodeCount (v : Volume_t) : Z := Node_nodeCount (root v).

(** *** Shape predicates used to state the octree properties *)

(** [in_cube n pos]: [pos] addresses a voxel of a node of edge [n]. *)
Definition in_cube (nodeSize : Z) (pos : Position_s) : Prop :=
  0 ≤ pos_x pos < nodeSize ∧ 0 ≤ pos_y pos < nodeSize
  ∧ 0 ≤ pos_z pos < nodeSize.

(** [fits k n]: [n] can be the tree of a node of edge [2^k], that is, no
    GRAY node sits at edge 1 or below. *)
Fixpoint fits (k : nat) (n : Node_s) {struct n} : bool :=
  match n with
  | SOLID _ => true
  | GRAY s0 s1 s2 s3 s4 s5 s6 s7 =>
      match k with
      | O => false
      | S k' => fits k' s0 && fits k' s1 && fits k' s2 && fits k' s3
                && fits k' s4 && fits k' s5 && fits k' s6 && fits k' s7
      end
  end.

(** [uniform n]: [n] is GRAY and its 8 children are all SOLID with one
    common value. *)
Definition uniform (n : Node_s) : bool :=
  match n with
  | SOLID _ => false
  | GRAY (SOLID v) s1 s2 s3 s4 s5 s6 s7 =>
      matches v s1 && matches v s2 && matches v s3 && matches v s4
      && matches v s5 && matches v s6 && matches v s7
  | GRAY _ _ _ _ _ _ _ _ => false
  end.

(** [collapsed n]: no node of the tree [n] is [uniform]. *)
Fixpoint collapsed (n : Node_s) : bool :=
  match n with
  | SOLID _ => true
  | GRAY s0 s1 s2 s3 s4 s5 s6 s7 =>
      negb (uniform (GRAY s0 s1 s2 s3 s4 s5 s6 s7))
      && collapsed s0 && collapsed s1 && collapsed s2 && collapsed s3
      && collapsed s4 && collapsed s5 && collapsed s6 && collapsed s7
  end.

(** What a tree built by the constructor and [set] calls satisfies. *)
Definition well_formed (v : Volume_t) : Prop :=
  Z.max (vol_sizeX v) (Z.max (vol_sizeY v) (vol_sizeZ v)) ≤ 0
  ∨ ∃ k : nat, rootSize v = 2 ^ Z.of_nat k ∧ fits k (root v) = true
      ∧ Z.max (vol_sizeX v) (Z.max (vol_sizeY v) (vol_sizeZ v)) ≤ rootSize v.

(** *** Vocabulary of the octree proofs *)

(** [child o n] is [subnodes[o]] of a GRAY node. *)
Definition child (o : Z) (n : Node_s) : Node_s :=
  match n with
  | SOLID _ => n
  | GRAY s0 s1 s2 s3 s4 s5 s6 s7 => subnode o s0 s1 s2 s3 s4 s5 s6 s7
  end.

(** The octant as three half-space bits. *)
Definition oct (bx by_ bz : bool) : Z :=
  (if bx then 4 else 0) + (if by_ then 2 else 0) + (if bz then 1 else 0).

(** [children_all P n]: every child of a GRAY node satisfies [P]. *)
Definition children_all (P : Node_s → bool) (n : Node_s) : bool :=
  match n with
  | SOLID _ => true
  | GRAY s0 s1 s2 s3 s4 s5 s6 s7 =>
      P s0 && P s1 && P s2 && P s3 && P s4 && P s5 && P s6 && P s7
  end.

End Octree.
Arguments Node_s : clear implicits.
Arguments Volume_t : clear implicits.
End Octree.

(** ** VolumeArray: the flat container *)

Module FlatArray.
Section FlatArray.
Context {V : Type}.

Record VolumeArray := mkVolumeArray {
  arr_sizeX : Z;
  arr_sizeY : Z;
  arr_sizeZ : Z;
  arr_initValue : V;
  data : list V
}.

(** The constructor: [data] holds [sizeX*sizeY*sizeZ] copies of
    [initValue]. *)
Definition Array (sizeX sizeY sizeZ : Z) (initValue : V) : VolumeArray :=
  {| arr_sizeX := sizeX; arr_sizeY := sizeY; arr_sizeZ := sizeZ;
     arr_initValue := initValue;
     data := replicate (Z.to_nat (sizeX * sizeY * sizeZ)) initValue |}.

(** [k + j*sizeZ_ + i*sizeZ_*sizeY_], the index into [data]. *)
Definition index (a : VolumeArray) (i j k : Z) : nat :=
  Z.to_nat (k + j * arr_sizeZ a + i * arr_sizeZ a * arr_sizeY a).

(** [get].  Past the range test the index is below [data.size()]; the
    [None] branch of the lookup is not reached on an array built by the
    constructor. *)
Definition VolumeArray_get (a : VolumeArray) (i j k : Z) : V :=
  if out_of_range (arr_sizeX a) (arr_sizeY a) (arr_sizeZ a) i j k
  then arr_initValue a
  else default (arr_initValue a) (data a !! index a i j k).

Definition VolumeArray_set (a : VolumeArray) (i j k : Z) (value : V)
    : VolumeArray :=
  if out_of_range (arr_sizeX a) (arr_sizeY a) (arr_sizeZ a) i j k
  then a
  else {| arr_sizeX := arr_sizeX a; arr_sizeY := arr_sizeY a;
          arr_sizeZ := arr_sizeZ a; arr_initValue := arr_initValue a;
          data := <[index a i j k := value]> (data a) |}.

(** [data] has one cell per voxel. *)
Definition well_formed (a : VolumeArray) : Prop :=
  length (data a) = Z.to_nat (arr_sizeX a * arr_sizeY a * arr_sizeZ a).

End FlatArray.
Arguments VolumeArray : clear implicits.
End FlatArray.

(** ** VolumeContainer: what the templates ask of a [Container_t]

    [set] of the octree can run out of fuel, hence [option]; the flat
    array never does. *)

Class Container (V C : Type) := {
  container_new : Z → Z → Z → V → C;
  sizeX : C → Z;
  sizeY : C → Z;
  sizeZ : C → Z;
  get : C → Z → Z → Z → V;
  set : C → Z → Z → Z → V → option C
}.

#[global] Instance Volume_t_Container {V} `{EqDecision V}
    : Container V (Octree.Volume_t V) := {|
  container_new := Octree.Volume;
  sizeX := Octree.vol_sizeX;
  sizeY := Octree.vol_sizeY;
  sizeZ := Octree.vol_sizeZ;
  get := Octree.Volume_get;
  set := Octree.Volume_set
|}.

#[global] Instance VolumeArray_Container {V}
    : Container V (FlatArray.VolumeArray V) := {|
  container_new := FlatArray.Array;
  sizeX := FlatArray.arr_sizeX;
  sizeY := FlatArray.arr_sizeY;
  sizeZ := FlatArray.arr_sizeZ;
  get := FlatArray.VolumeArray_get;
  set := λ a i j k value, Some (FlatArray.VolumeArray_set a i j k value)
|}.

(** A [for] loop whose body may fail: the state is threaded through the
    elements of [l] in order. *)
Fixpoint for_each {A St : Type} (l : list A) (body : St → A → option St)
    (s : St) : option St :=
  match l with
  | [] => Some s
  | a :: l' => s' ← body s a; for_each l' body s'
  end.

(** A [while] loop; [fuel] bounds the number of iterations. *)
Fixpoint while {St : Type} (fuel : nat) (cond : St → bool)
    (body : St → option St) (s : St) : option St :=
  match fuel with
  | O => None
  | S fuel' => if cond s then s' ← body s; while fuel' cond body s'
               else Some s
  end.

(** A sequence of [set] calls applied to one container. *)
Definition set_all {V C} `{Container V C} (ops : list (Position_s * V))
    (c : C) : option C :=
  for_each ops (λ c op, set c (pos_x op.1) (pos_y op.1) (pos_z op.1) op.2) c.

(** The positions [for i < sizeX, for j < sizeY, for k < sizeZ] in loop
    order. *)
Definition voxels (sizeX sizeY sizeZ : Z) : list Position_s :=
  i ← seqZ 0 sizeX; j ← seqZ 0 sizeY; k ← seqZ 0 sizeZ; [Position i j k].

(** The index pairs [for i < m, for j < n] in loop order. *)
Definition pairsZ (m n : Z) : list (Z * Z) :=
  i ← seqZ 0 m; j ← seqZ 0 n; [(i, j)].

(** ** GeoVolume_t: a container with floating point georeferencing *)

(** C's [round]: to the nearest integer, halfway cases away from zero. *)
Definition c_round (q : Q) : Z :=
  if Qle_bool 0 q then Qfloor (q + (1 # 2))%Q else Qceiling (q - (1 # 2))%Q.

(** *** The arithmetic of the machine

    A [float] holds 24 significant bits and a [double] 53.  What IEEE 754
    arithmetic stores for an exact result [q] is [q] rounded to that many
    significant bits, to the nearest, to the even one of two at the same
    distance; below the smallest normal number the spacing stays that of
    the smallest exponent, [2^-149] for [float] and [2^-1074] for
    [double].  Overflow to infinity is not modelled: it needs a magnitude
    of [2^128], resp. [2^1024]. *)

(** The integer nearest to [q], the even one of two at the same
    distance. *)
Definition round_even (q : Q) : Z :=
  let f := Qfloor q in
  match (q - inject_Z f ?= 1 # 2)%Q with
  | Lt => f
  | Gt => f + 1
  | Eq => if Z.even f then f else f + 1
  end.

(** [floor(log2 |q|)] of a [q] other than 0. *)
Definition ilog2 (q : Q) : Z :=
  let e := Z.log2 (Z.abs (Qnum q)) - Z.log2 (Z.pos (Qden q)) in
  if Qle_bool (2 ^ e) (Qabs q) then e else e - 1.

(** [q] rounded to [prec] significant bits, the last of them of weight
    [2^emin] at least. *)
Definition to_prec (prec emin : Z) (q : Q) : Q :=
  let q := Qred q in
  if Qeq_bool q 0 then 0%Q
  else let e := Z.max (ilog2 q - (prec - 1)) emin in
       (inject_Z (round_even (q / 2 ^ e)) * 2 ^ e)%Q.

(** The conversion to [float], and the rounding of an operation on
    [double]. *)
Definition to_float : Q → Q := to_prec 24 (-149).
Definition to_double : Q → Q := to_prec 53 (-1074).

Section GeoVolume.
Context {V C : Type} `{Container V C}.

Record GeoVolume_t := mkGeoVolume_t {
  container_ : C;
  lower : FPosition_s;
  upper : FPosition_s;
  voxelSize : Q
}.

(** The constructor: the container has [ceil((upper - lower) / voxelSize)]
    voxels per axis and [_upper] is moved so that the extents are a
    multiple of the voxel size. *)
Definition GeoVolume (lower upper : FPosition_s) (voxelSize : Q)
    (initValue : V) : GeoVolume_t :=
  let c := container_new
    (Qceiling ((fpos_x upper - fpos_x lower) / voxelSize)%Q)
    (Qceiling ((fpos_y upper - fpos_y lower) / voxelSize)%Q)
    (Qceiling ((fpos_z upper - fpos_z lower) / voxelSize)%Q) initValue in
  {| container_ := c;
     lower := lower;
     upper := FPosition
       (fpos_x lower + inject_Z (sizeX c) * voxelSize)%Q
       (fpos_y lower + inject_Z (sizeY c) * voxelSize)%Q
       (fpos_z lower + inject_Z (sizeZ c) * voxelSize)%Q;
     voxelSize := voxelSize |}.

(** The constructor with every operation on [double] rounded as the
    machine rounds it. *)
Definition GeoVolume_double (lower upper : FPosition_s) (voxelSize : Q)
    (initValue : V) : GeoVolume_t :=
  let count (u l : Q) : Z :=
    Qceiling (to_double (to_double (u - l) / voxelSize)) in
  let c := container_new
    (count (fpos_x upper) (fpos_x lower))
    (count (fpos_y upper) (fpos_y lower))
    (count (fpos_z upper) (fpos_z lower)) initValue in
  let corrected (l : Q) (size : Z) : Q :=
    to_double (l + to_double (inject_Z size * voxelSize)) in
  {| container_ := c;
     lower := lower;
     upper := FPosition (corrected (fpos_x lower) (sizeX c))
                        (corrected (fpos_y lower) (sizeY c))
                        (corrected (fpos_z lower) (sizeZ c));
     voxelSize := voxelSize |}.

Definition GeoVolume_get (g : GeoVolume_t) (i j k : Z) : V :=
  get (container_ g) i j k.

Definition GeoVolume_set (g : GeoVolume_t) (i j k : Z) (value : V)
    : option GeoVolume_t :=
  c ← set (container_ g) i j k value;
  Some {| container_ := c; lower := lower g; upper := upper g;
          voxelSize := voxelSize g |}.

Definition geo2gridf (g : GeoVolume_t) (gpos : FPosition_s) : FPosition_s :=
  FPosition
    ((fpos_x gpos - fpos_x (lower g)) / (fpos_x (upper g) - fpos_x (lower g))
       * inject_Z (sizeX (container_ g)) - (1 # 2))%Q
    ((fpos_y gpos - fpos_y (lower g)) / (fpos_y (upper g) - fpos_y (lower g))
       * inject_Z (sizeY (container_ g)) - (1 # 2))%Q
    ((fpos_z gpos - fpos_z (lower g)) / (fpos_z (upper g) - fpos_z (lower g))
       * inject_Z (sizeZ (container_ g)) - (1 # 2))%Q.

(** One [switch ( rounding )] of [geo2grid]: [retval] keeps the value it
    was constructed with, 0, when no [case] applies. *)
Definition round_switch (rounding : Z) (f : Q) : Z :=
  let retval := 0 in
  match rounding with
  | 0 => c_round f
  | -1 => c_round (inject_Z (Qfloor f))
  | 1 => c_round (inject_Z (Qceiling f))
  | _ => retval
  end.

Definition geo2grid (g : GeoVolume_t) (gpos : FPosition_s)
    (roundingX roundingY roundingZ : Z) : Position_s :=
  let fpos := geo2gridf g gpos in
  Position (round_switch roundingX (fpos_x fpos))
           (round_switch roundingY (fpos_y fpos))
           (round_switch roundingZ (fpos_z fpos)).

(** [grid2geo( const FPosition_s & )]. *)
Definition grid2geo_f (g : GeoVolume_t) (pos : FPosition_s) : FPosition_s :=
  FPosition
    (fpos_x (lower g) + (fpos_x pos + (1 # 2))
       / inject_Z (sizeX (container_ g))
       * (fpos_x (upper g) - fpos_x (lower g)))%Q
    (fpos_y (lower g) + (fpos_y pos + (1 # 2))
       / inject_Z (sizeY (container_ g))
       * (fpos_y (upper g) - fpos_y (lower g)))%Q
    (fpos_z (lower g) + (fpos_z pos + (1 # 2))
       / inject_Z (sizeZ (container_ g))
       * (fpos_z (upper g) - fpos_z (lower g)))%Q.

(** [grid2geo( const Position_s & )]: the same expression on integer
    coordinates. *)
Definition grid2geo (g : GeoVolume_t) (pos : Position_s) : FPosition_s :=
  grid2geo_f g (FPosition (inject_Z (pos_x pos)) (inject_Z (pos_y pos))
                          (inject_Z (pos_z pos))).

End GeoVolume.
Arguments GeoVolume_t : clear implicits.

(** ** Giterator_t: a position stepping along a displacement

    The source iterator holds a pointer to its container; here the
    container is passed to the operations that read or write it. *)

Record Giterator_t := Giterator { pos : Position_s; diff : Displacement_s }.

(** [operator++], [operator+( int )], [operator-( int )]. *)
Definition it_incr (it : Giterator_t) : Giterator_t :=
  Giterator (pos_add (pos it) (diff it)) (diff it).
Definition it_plus (it : Giterator_t) (count : Z) : Giterator_t :=
  Giterator (pos_add (pos it) (dif_scale (diff it) count)) (diff it).
Definition it_minus (it : Giterator_t) (count : Z) : Giterator_t :=
  Giterator (pos_sub (pos it) (dif_scale (diff it) count)) (diff it).

(** [operator-( const Giterator_t & )]; the quotients are C++ integer
    divisions. *)
Definition it_distance (it op : Giterator_t) : Z :=
  let bdiff := pos_diff (pos it) (pos op) in
  if 0 <? dif_x (diff it) then dif_x bdiff ÷ dif_x (diff it)
  else if 0 <? dif_y (diff it) then dif_y bdiff ÷ dif_y (diff it)
  else if 0 <? dif_z (diff it) then dif_z bdiff ÷ dif_z (diff it)
  else 0.

(** [operator==] and [operator!=] compare the positions. *)
Definition it_eq (it s : Giterator_t) : bool := bool_decide (pos it = pos s).
Definition it_neq (it s : Giterator_t) : bool := negb (it_eq it s).

Definition gbegin (pos : Position_s) (diff : Displacement_s) : Giterator_t :=
  Giterator pos diff.

Section Giterator.
Context {V C : Type} `{Container V C}.

Definition value (volume : C) (it : Giterator_t) : V :=
  get volume (pos_x (pos it)) (pos_y (pos it)) (pos_z (pos it)).

(** [operator[]]. *)
Definition it_at (volume : C) (it : Giterator_t) (i : Z) : V :=
  value volume (it_plus it i).

Definition setValue (volume : C) (it : Giterator_t) (v : V) : option C :=
  set volume (pos_x (pos it)) (pos_y (pos it)) (pos_z (pos it)) v.

(** One clipping plane of [gend]: [toss = bound / d; if ( toss < u ) u = toss]. *)
Definition clip (u : Q) (bound : Q) (d : Z) : Q :=
  let toss := (bound / inject_Z d)%Q in
  if Qlt_le_dec toss u then toss else u.

(** The iterator end marker in exact arithmetic: what [gend] returns when
    [float] holds [u] and [toss] exactly.  It is so for a unit
    displacement when every extent is below [2^23], [u] and [toss] being
    then halves of integers below [2^24]; [gend], below, has the
    conversions of the source. *)
Definition gend_exact (volume : C) (begin : Giterator_t) : Giterator_t :=
  let _sizeX := sizeX volume in
  let _sizeY := sizeY volume in
  let _sizeZ := sizeZ volume in
  let px := pos_x (pos begin) in
  let py := pos_y (pos begin) in
  let pz := pos_z (pos begin) in
  let dx := dif_x (diff begin) in
  let dy := dif_y (diff begin) in
  let dz := dif_z (diff begin) in
  let u := inject_Z (Z.max _sizeX (Z.max _sizeY _sizeZ)) in
  (* right *)
  let u := if 0 <? dx
           then clip u (inject_Z _sizeX + (1 # 2) - inject_Z px)%Q dx else u in
  (* left *)
  let u := if dx <? 0
           then clip u (- (3 # 2) - inject_Z px)%Q dx else u in
  (* top *)
  let u := if 0 <? dy
           then clip u (inject_Z _sizeY + (1 # 2) - inject_Z py)%Q dy else u in
  (* bottom *)
  let u := if dy <? 0
           then clip u (- (3 # 2) - inject_Z py)%Q dy else u in
  (* front *)
  let u := if 0 <? dz
           then clip u (inject_Z _sizeZ + (1 # 2) - inject_Z pz)%Q dz else u in
  (* back *)
  let u := if dz <? 0
           then clip u (- (3 # 2) - inject_Z pz)%Q dz else u in
  Giterator (Position (px + Qfloor u * dx) (py + Qfloor u * dy)
                      (pz + Qfloor u * dz))
            (diff begin).

(** One clipping plane of [gend]: the quotient is computed in [double]
    and stored in the [float] [toss]. *)
Definition clip_float (u : Q) (bound : Q) (d : Z) : Q :=
  let toss := to_float (to_double (bound / inject_Z d)) in
  if Qlt_le_dec toss u then toss else u.

(** [gend]: the iterator end marker.  [u] and [toss] are [float]; the
    bounds [_sizeX + 0.5 - begin.pos.x] and [-1.5 - begin.pos.x] are
    computed in [double].  [floor( u )] is an integer that [float] holds,
    and [begin.pos + floor( u ) * begin.diff] is taken as exact, as it is
    in [double] below [2^53] and in [float] below [2^24]. *)
Definition gend (volume : C) (begin : Giterator_t) : Giterator_t :=
  let _sizeX := sizeX volume in
  let _sizeY := sizeY volume in
  let _sizeZ := sizeZ volume in
  let px := pos_x (pos begin) in
  let py := pos_y (pos begin) in
  let pz := pos_z (pos begin) in
  let dx := dif_x (diff begin) in
  let dy := dif_y (diff begin) in
  let dz := dif_z (diff begin) in
  let far (size p : Z) : Q :=
    to_double (to_double (inject_Z size + (1 # 2)) - inject_Z p) in
  let near (p : Z) : Q := to_double (- (3 # 2) - inject_Z p) in
  let u := to_float (inject_Z (Z.max _sizeX (Z.max _sizeY _sizeZ))) in
  (* right *)
  let u := if 0 <? dx then clip_float u (far _sizeX px) dx else u in
  (* left *)
  let u := if dx <? 0 then clip_float u (near px) dx else u in
  (* top *)
  let u := if 0 <? dy then clip_float u (far _sizeY py) dy else u in
  (* bottom *)
  let u := if dy <? 0 then clip_float u (near py) dy else u in
  (* front *)
  let u := if 0 <? dz then clip_float u (far _sizeZ pz) dz else u in
  (* back *)
  let u := if dz <? 0 then clip_float u (near pz) dz else u in
  Giterator (Position (px + Qfloor u * dx) (py + Qfloor u * dy)
                      (pz + Qfloor u * dz))
            (diff begin).

(** [iteratorPositions]: the initial positions of the iterators that run
    along [diff]. *)
Definition iteratorPositions (container : C) (diff : Displacement_s)
    : list Position_s :=
  (if bool_decide (dif_x diff ≠ 0)
   then i ← seqZ 0 (sizeY container); j ← seqZ 0 (sizeZ container);
        [Position (if 0 <? dif_x diff then 0 else sizeX container - 1) i j]
   else [])
  ++ (if bool_decide (dif_y diff ≠ 0)
      then i ← seqZ 0 (sizeX container); j ← seqZ 0 (sizeZ container);
           [Position i (if 0 <? dif_y diff then 0 else sizeY container - 1) j]
      else [])
  ++ (if bool_decide (dif_z diff ≠ 0)
      then i ← seqZ 0 (sizeX container); j ← seqZ 0 (sizeY container);
           [Position i j (if 0 <? dif_z diff then 0 else sizeZ container - 1)]
      else []).

(** The sweep [for ( it = gbegin; it != gend( it ); ++it )]: the positions
    it visits, in order. *)
Fixpoint sweep_until (fuel : nat) (it end_ : Giterator_t)
    : option (list Position_s) :=
  match fuel with
  | O => None
  | S fuel' =>
      if it_neq it end_
      then rest ← sweep_until fuel' (it_incr it) end_; Some (pos it :: rest)
      else Some []
  end.

Definition sweep (fuel : nat) (volume : C) (start : Position_s)
    (diff : Displacement_s) : option (list Position_s) :=
  let it := gbegin start diff in
  sweep_until fuel it (gend volume it).

(** The visits of the sweeps of all lines along [diff], one line after
    the other, as [filterInplace] runs them. *)
Definition sweep_lines (fuel : nat) (volume : C) (diff : Displacement_s)
    : option (list (list Position_s)) :=
  mapM (λ start, sweep fuel volume start diff)
       (iteratorPositions volume diff).

(** The number of voxels along the axis of [diff]. *)
Definition extent_along (volume : C) (diff : Displacement_s) : Z :=
  if bool_decide (dif_x diff ≠ 0) then sizeX volume
  else if bool_decide (dif_y diff ≠ 0) then sizeY volume
  else sizeZ volume.

End Giterator.

(** ** ScalarField_t: a georeferenced volume of scalar values

    [Value_t] is a floating point type; stored values are canonical
    rationals [Qc], on which [==] is equality. *)

Inductive SurfaceOrientation_t := TO_MIN | TO_MAX.
Inductive IsosurfaceAlgorithm_t := M_CUBES | M_TETRAHEDRONS.

#[global] Instance SurfaceOrientation_eq_dec : EqDecision SurfaceOrientation_t.
Proof. solve_decision. Defined.

Section ScalarField.
Context {C : Type} {HC : Container Qc C}.

(** The test guarding each face of [getQuads], between the voxel
    [(i,j,k)] and its neighbour [(i',j',k')]. *)
Definition crossing (f : GeoVolume_t C) (threshold : Qc)
    (orientation : SurfaceOrientation_t) (i j k i' j' k' : Z) : bool :=
  (bool_decide (threshold < GeoVolume_get f i j k)%Qc
   && bool_decide (GeoVolume_get f i' j' k' ≤ threshold)%Qc
   && bool_decide (orientation = TO_MIN))
  || (bool_decide (GeoVolume_get f i j k < threshold)%Qc
      && bool_decide (threshold ≤ GeoVolume_get f i' j' k')%Qc
      && bool_decide (orientation = TO_MAX)).

(** [grid2geo( FPosition_s( i + a/2, j + b/2, k + c/2 ) )]: a corner of
    the voxel [(i,j,k)] for [a], [b], [c] in [{-1, 1}]. *)
Definition corner (f : GeoVolume_t C) (i j k : Z) (a b c : Z) : FPosition_s :=
  grid2geo_f f (FPosition (inject_Z i + (a # 2))%Q (inject_Z j + (b # 2))%Q
                          (inject_Z k + (c # 2))%Q).

(** The body of the loop of [getQuads] for the voxel [(i,j,k)]. *)
Definition voxelQuads (f : GeoVolume_t C) (threshold : Qc)
    (orientation : SurfaceOrientation_t) (i j k : Z) : list FPosition_s :=
  let p := corner f i j k in
  (* left *)
  (if crossing f threshold orientation i j k (i - 1) j k
   then [p (-1) (-1) (-1); p (-1) (-1) 1; p (-1) 1 1; p (-1) 1 (-1)] else [])
  (* right *)
  ++ (if crossing f threshold orientation i j k (i + 1) j k
      then [p 1 1 (-1); p 1 1 1; p 1 (-1) 1; p 1 (-1) (-1)] else [])
  (* bottom *)
  ++ (if crossing f threshold orientation i j k i (j - 1) k
      then [p (-1) (-1) (-1); p 1 (-1) (-1); p 1 (-1) 1; p (-1) (-1) 1]
      else [])
  (* top *)
  ++ (if crossing f threshold orientation i j k i (j + 1) k
      then [p (-1) 1 1; p 1 1 1; p 1 1 (-1); p (-1) 1 (-1)] else [])
  (* back *)
  ++ (if crossing f threshold orientation i j k i j (k - 1)
      then [p (-1) (-1) (-1); p (-1) 1 (-1); p 1 1 (-1); p 1 (-1) (-1)]
      else [])
  (* front *)
  ++ (if crossing f threshold orientation i j k i j (k + 1)
      then [p 1 (-1) 1; p 1 1 1; p (-1) 1 1; p (-1) (-1) 1] else []).

Definition getQuads (f : GeoVolume_t C) (threshold : Qc)
    (orientation : SurfaceOrientation_t) : list FPosition_s :=
  v ← voxels (sizeX (container_ f)) (sizeY (container_ f))
             (sizeZ (container_ f));
  voxelQuads f threshold orientation (pos_x v) (pos_y v) (pos_z v).

End ScalarField.

(** *** Filtering and downscaling *)

Section Downscale.
Context {C : Type} {HC : Container Qc C}.

(** [math::FIRFilter_t] is declared outside this repository.
    [convolute cutoff at x rowSize] stands for
    [filter.convolute( sit, x, rowSize )] of a filter built with the
    cutoff period [cutoff]; [at i] is what [sit[i]] reads. *)
Variable convolute : Q → (Z → Qc) → Z → Z → Q.

(** [std::numeric_limits<ValueType>::max()] and [lowest()]. *)
Variable value_max value_lowest : Q.

(** [filterInplace]: every line along [diff] is filtered into a buffer and
    written back.  The end marker of a line is taken in exact arithmetic,
    [gend_exact]: it is the one of [gend] for extents below [2^23]. *)
Definition filterInplace (cutoff : Q) (diff : Displacement_s) (container : C)
    : option C :=
  let poss := iteratorPositions container diff in
  for_each poss
    (λ container pos,
       let sit := Giterator pos diff in
       let send := gend_exact container sit in
       let rowSize := it_distance send sit in
       let filtered :=
         (λ x, Q2Qc (Qmin (Qmax (convolute cutoff
                                   (it_at container (it_plus sit x)) x rowSize)
                                value_lowest) value_max))
         <$> seqZ 0 rowSize in
       (* write filtered values into source volume *)
       for_each (zip (seqZ 0 rowSize) filtered)
         (λ container xv, setValue container (it_plus sit xv.1) xv.2)
         container)
    container.

(** The loop shape [while ( itN != endN && itO != endO ) { body; ++itN; ++itO; }]
    that [downscale] nests three times; the state carries the two
    iterators and the container written to. *)
Definition paired_sweep (fuel : nat) (endN endO : Giterator_t)
    (body : Giterator_t → Giterator_t → C → option C)
    (itN itO : Giterator_t) (dst : C) : option C :=
  s ← while fuel
        (λ s : Giterator_t * Giterator_t * C,
           it_neq s.1.1 endN && it_neq s.1.2 endO)
        (λ s, dst ← body s.1.1 s.1.2 s.2;
              Some (it_incr s.1.1, it_incr s.1.2, dst))
        (itN, itO, dst);
  Some s.2.

(** [downscale].  [fuel] bounds the iterations of each [while] loop.
    [shift] is a [float]: the product and its half are computed in
    [double] and narrowed.  [ll], the new voxel size and the arithmetic of
    the constructor of [tmp] are in [double]. *)
Definition downscale (fuel : nat) (factor : Z) (this : GeoVolume_t C)
    : option (GeoVolume_t C) :=
  let filterCutoff := inject_Z (Z.max 2 (factor * 2)) in
  let directions :=
    [Displacement 1 0 0; Displacement 0 1 0; Displacement 0 0 1] in
  container ← for_each directions
    (λ container d, filterInplace filterCutoff d container) (container_ this);
  let shift :=
    to_float (to_double
                (to_double (inject_Z (factor - 1) * voxelSize this) / 2)) in
  let ll := FPosition (to_double (fpos_x (lower this) - shift))
                      (to_double (fpos_y (lower this) - shift))
                      (to_double (fpos_z (lower this) - shift)) in
  let tmp : GeoVolume_t C :=
    GeoVolume_double ll (upper this)
      (to_double (voxelSize this * inject_Z factor)) 0%Qc in
  let dispNew0 := Displacement 1 0 0 in
  let dispNew1 := Displacement 0 1 0 in
  let dispNew2 := Displacement 0 0 1 in
  let dispOrig0 := Displacement factor 0 0 in
  let dispOrig1 := Displacement 0 factor 0 in
  let dispOrig2 := Displacement 0 0 factor in
  let pos0 := Position 0 0 0 in
  let xitN := Giterator pos0 dispNew0 in
  let xitO := Giterator pos0 dispOrig0 in
  dst ← paired_sweep fuel (gend (container_ tmp) xitN) (gend container xitO)
    (λ xitN xitO dst,
       let yitN := Giterator (pos xitN) dispNew1 in
       let yitO := Giterator (pos xitO) dispOrig1 in
       paired_sweep fuel (gend dst yitN) (gend container yitO)
         (λ yitN yitO dst,
            let zitN := Giterator (pos yitN) dispNew2 in
            let zitO := Giterator (pos yitO) dispOrig2 in
            paired_sweep fuel (gend dst zitN) (gend container zitO)
              (λ zitN zitO dst, setValue dst zitN (value container zitO))
              zitN zitO dst)
         yitN yitO dst)
    xitN xitO (container_ tmp);
  Some {| container_ := dst; lower := lower tmp; upper := upper tmp;
          voxelSize := voxelSize tmp |}.

End Downscale.

(** ** geometry::Mesh and the indexed-mesh reconstruction *)

(** Modelled from the spec: [math::Point3] is declared outside this
    repository.  It is a triple of coordinates whose [operator<], which
    [std::map] uses for its keys, makes two points equivalent exactly when
    their coordinates are equal ("exact-coordinate lookup"). *)
Definition Point3 : Type := Qc * Qc * Qc.

Definition toPoint3 (p : FPosition_s) : Point3 :=
  (Q2Qc (fpos_x p), Q2Qc (fpos_y p), Q2Qc (fpos_z p)).

(** [Face]: the constructor [Face(a, b, c)] zeroes the other members. *)
Record Face := mkFace {
  imageId : nat;
  face_a : nat; face_b : nat; face_c : nat;
  face_ta : nat; face_tb : nat; face_tc : nat
}.

Record Mesh := mkMesh {
  vertices : list Point3;
  faces : list Face
}.

Definition addFace (m : Mesh) (a b c : nat) : Mesh :=
  {| vertices := vertices m;
     faces := faces m ++ [mkFace 0 a b c 0 0 0] |}.

(** The inner loop body of [isosurfaceAsMesh] for one emitted vertex: look
    [pVertex] up in [vidMap]; a new point is appended to [ret.vertices]
    and mapped to its index. *)
Definition vertexIndex (pVertex : Point3) (st : Mesh * gmap Point3 nat)
    : nat * (Mesh * gmap Point3 nat) :=
  let '(ret, vidMap) := st in
  match vidMap !! pVertex with
  | None =>
      let idx := length (vertices ret) in
      (idx, ({| vertices := vertices ret ++ [pVertex]; faces := faces ret |},
             <[pVertex := idx]> vidMap))
  | Some idx => (idx, st)
  end.

(** The outer loop body, for the triangle number [face] of the vertex
    stream. *)
Definition reconstructFace (stream : list FPosition_s)
    (st : Mesh * gmap Point3 nat) (face : nat) : Mesh * gmap Point3 nat :=
  let pVertex (vertex : nat) :=
    toPoint3 (default (FPosition 0 0 0) (stream !! (face * 3 + vertex)%nat)) in
  let '(i0, st) := vertexIndex (pVertex 0%nat) st in
  let '(i1, st) := vertexIndex (pVertex 1%nat) st in
  let '(i2, st) := vertexIndex (pVertex 2%nat) st in
  if bool_decide (i0 = i1) || bool_decide (i0 = i2) || bool_decide (i1 = i2)
  then st
  else (addFace st.1 i0 i1 i2, st.2).

(** "reconstruct faces": the part of [isosurfaceAsMesh] after the vertex
    stream has been extracted. *)
Definition reconstructFaces (stream : list FPosition_s) : Mesh :=
  (foldl (reconstructFace stream) (mkMesh [] [], ∅)
         (seq 0 (length stream / 3))).1.

Section IsosurfaceAsMesh.
Context {C : Type} {HC : Container Qc C}.

(** The two extractors.  [isosurfaceCubes] reads the tables of
    geometry/detail/volume.mcubes.hpp, which this repository does not
    hold; the reconstruction below does not depend on how the stream was
    produced, so both are parameters. *)
Variable isosurfaceCubes isosurfaceTetrahedrons :
  GeoVolume_t C → Qc → SurfaceOrientation_t → list FPosition_s.

Definition isosurfaceAsMesh (f : GeoVolume_t C) (threshold : Qc)
    (orientation : SurfaceOrientation_t) (algorithm : IsosurfaceAlgorithm_t)
    : Mesh :=
  let vertices :=
    match algorithm with
    | M_CUBES => isosurfaceCubes f threshold orientation
    | M_TETRAHEDRONS => isosurfaceTetrahedrons f threshold orientation
    end in
  reconstructFaces vertices.

End IsosurfaceAsMesh.

(** ** DistanceMap_t: Danielsson's 4SED over an octree *)

Module DistanceMap.

Record DistVector_s := DistVector { distX : Qc; distY : Qc; distZ : Qc }.

#[global] Instance DistVector_eq_dec : EqDecision DistVector_s.
Proof. solve_decision. Defined.

(** [DistVector_s( const float infty )]. *)
Definition DistVector_infty (infty : Qc) : DistVector_s :=
  DistVector infty infty infty.

(** [DistVector_s::operator+]. *)
Definition dv_plus (op1 op2 : DistVector_s) : DistVector_s :=
  DistVector (distX op1 + distX op2)%Qc (distY op1 + distY op2)%Qc
             (distZ op1 + distZ op2)%Qc.

Definition sqr (x : Qc) : Qc := (x * x)%Qc.

(** [DistanceMap_t::min]. *)
Definition min (op1 op2 : DistVector_s) : DistVector_s :=
  if bool_decide (sqr (distX op1) + sqr (distY op1) + sqr (distZ op1)
                  ≤ sqr (distX op2) + sqr (distY op2) + sqr (distZ op2))%Qc
  then op1 else op2.

Inductive Scandir_t := ASC | DESC.

(** [DistVectorField_t] is [Volume_t<DistVector_s>]. *)
Definition DistVectorField_t : Type := Octree.Volume_t DistVector_s.

(** One propagation step: [dvField.set( i, j, k, min( dvField.get( i, j, k ),
    dvField.get( i', j', k' ) + step ) )]. *)
Definition propagate (i' j' k' : Z) (step : DistVector_s) (i j k : Z)
    (dvField : DistVectorField_t) : option DistVectorField_t :=
  set dvField i j k
    (min (get dvField i j k) (dv_plus (get dvField i' j' k') step)).

Definition scanXLine (dvField : DistVectorField_t) (j k : Z)
    (scandir : Scandir_t) : option DistVectorField_t :=
  (* y propagation *)
  dvField ← for_each (seqZ 0 (sizeX dvField))
    (λ dv i, match scandir with
             | ASC => propagate i (j - 1) k (DistVector 0 1 0) i j k dv
             | DESC => propagate i (j + 1) k (DistVector 0 1 0) i j k dv
             end) dvField;
  (* x propagation *)
  dvField ← for_each (seqZ 1 (sizeX dvField - 1))
    (λ dv i, propagate (i - 1) j k (DistVector 1 0 0) i j k dv) dvField;
  for_each (reverse (seqZ 0 (sizeX dvField - 1)))
    (λ dv i, propagate (i + 1) j k (DistVector 1 0 0) i j k dv) dvField.

Definition scanXYPlane (dvField : DistVectorField_t) (k : Z)
    (scandir : Scandir_t) : option DistVectorField_t :=
  (* z propagation *)
  dvField ← for_each (pairsZ (sizeX dvField) (sizeY dvField))
    (λ dv ij, match scandir with
              | ASC => propagate ij.1 ij.2 (k - 1) (DistVector 0 0 1)
                         ij.1 ij.2 k dv
              | DESC => propagate ij.1 ij.2 (k + 1) (DistVector 0 0 1)
                          ij.1 ij.2 k dv
              end) dvField;
  (* xy propagation *)
  dvField ← for_each (seqZ 1 (sizeY dvField - 1))
    (λ dv j, scanXLine dv j k ASC) dvField;
  for_each (reverse (seqZ 0 (sizeY dvField - 1)))
    (λ dv j, scanXLine dv j k DESC) dvField.

(** The floating point [sqrt], to 26 binary digits after the point: the
    largest multiple of [2^-26] whose square does not exceed [q]. *)
Definition sqrt (q : Q) : Q :=
  (inject_Z (Z.sqrt (Qfloor (q * inject_Z (4 ^ 26)))) / inject_Z (2 ^ 26))%Q.

(** [Bitfield_t] is [ScalarField_t<bool, Volume_t<bool>>]. *)
Definition Bitfield_t : Type := GeoVolume_t (Octree.Volume_t bool).
Definition DistanceMap_t : Type := GeoVolume_t (Octree.Volume_t Qc).

(** [dist = _voxelSize * sqrt( sqr( dv.distX ) + sqr( dv.distY ) + sqr( dv.distZ ) )]. *)
Definition distance (voxelSize : Q) (dv : DistVector_s) : Qc :=
  Q2Qc (voxelSize
        * sqrt (sqr (distX dv) + sqr (distY dv) + sqr (distZ dv))%Qc)%Q.

(** The constructor [DistanceMap_t( const Bitfield_t &, const Value_t )]. *)
Definition DistanceMap (bitfield : Bitfield_t) (initValue : Qc)
    : option DistanceMap_t :=
  let this : DistanceMap_t :=
    GeoVolume (lower bitfield) (upper bitfield) (voxelSize bitfield)
              initValue in
  let sx := sizeX (container_ this) in
  let sy := sizeY (container_ this) in
  let sz := sizeZ (container_ this) in
  (* initialize vector distance field *)
  let dvField : DistVectorField_t :=
    Octree.Volume sx sy sz
      (DistVector_infty (Q2Qc (initValue / voxelSize this)%Q)) in
  dvField ← for_each (voxels (sizeX dvField) (sizeY dvField) (sizeZ dvField))
    (λ dv p, if (GeoVolume_get bitfield (pos_x p) (pos_y p) (pos_z p) : bool)
             then set dv (pos_x p) (pos_y p) (pos_z p) (DistVector 0 0 0)
             else Some dv) dvField;
  (* perform scanning *)
  dvField ← for_each (seqZ 1 (sizeZ dvField - 1))
    (λ dv k, scanXYPlane dv k ASC) dvField;
  dvField ← for_each (reverse (seqZ 0 (sizeZ dvField - 1)))
    (λ dv k, scanXYPlane dv k DESC) dvField;
  (* compute distance map based on the vector field *)
  for_each (voxels (sizeX dvField) (sizeY dvField) (sizeZ dvField))
    (λ (this : DistanceMap_t) p,
       let dv := get dvField (pos_x p) (pos_y p) (pos_z p) in
       let dist := distance (voxelSize this) dv in
       if bool_decide (dist < initValue)%Qc
       then GeoVolume_set this (pos_x p) (pos_y p) (pos_z p) dist
       else Some this) this.

End DistanceMap.

(** ** Vocabulary of the statements *)

(** What the algorithms rely on in a [Container_t]: an invariant [valid]
    that the constructor establishes and [set] keeps, under which [set]
    completes, keeps the extents, and changes the value at the addressed
    in-range voxel only; out of range [get] answers the initial value. *)
Class ContainerSpec (V C : Type) `{Container V C} := {
  valid : C → Prop;
  initial : C → V;
  valid_new : ∀ sx sy sz v, valid (container_new sx sy sz v);
  sizeX_new : ∀ sx sy sz v, sizeX (container_new sx sy sz v) = sx;
  sizeY_new : ∀ sx sy sz v, sizeY (container_new sx sy sz v) = sy;
  sizeZ_new : ∀ sx sy sz v, sizeZ (container_new sx sy sz v) = sz;
  get_new : ∀ sx sy sz v i j k, get (container_new sx sy sz v) i j k = v;
  get_outside : ∀ c i j k,
    out_of_range (sizeX c) (sizeY c) (sizeZ c) i j k = true →
    get c i j k = initial c;
  set_spec : ∀ c i j k v, valid c →
    ∃ c', set c i j k v = Some c' ∧ valid c'
      ∧ sizeX c' = sizeX c ∧ sizeY c' = sizeY c ∧ sizeZ c' = sizeZ c
      ∧ initial c' = initial c
      ∧ ∀ i' j' k',
          get c' i' j' k'
          = if negb (out_of_range (sizeX c) (sizeY c) (sizeZ c) i j k)
               && bool_decide (Position i' j' k' = Position i j k)
            then v else get c i' j' k'
}.

(** Coordinate-wise equality of world positions. *)
Definition fpos_eq (p q : FPosition_s) : Prop :=
  (fpos_x p == fpos_x q ∧ fpos_y p == fpos_y q ∧ fpos_z p == fpos_z q)%Q.

Section GeoVocabulary.
Context {V C : Type} `{Container V C}.

(** The invariant the constructor gives a [GeoVolume_t]: a positive voxel
    size, and extents that are the voxel counts times the voxel size. *)
Definition georeferenced (g : GeoVolume_t C) : Prop :=
  (0 < voxelSize g
   ∧ fpos_x (upper g) == fpos_x (lower g)
                         + inject_Z (sizeX (container_ g)) * voxelSize g
   ∧ fpos_y (upper g) == fpos_y (lower g)
                         + inject_Z (sizeY (container_ g)) * voxelSize g
   ∧ fpos_z (upper g) == fpos_z (lower g)
                         + inject_Z (sizeZ (container_ g)) * voxelSize g)%Q.

(** [p] lies inside the extents, faces included. *)
Definition inside (g : GeoVolume_t C) (p : FPosition_s) : Prop :=
  (fpos_x (lower g) <= fpos_x p <= fpos_x (upper g)
   ∧ fpos_y (lower g) <= fpos_y p <= fpos_y (upper g)
   ∧ fpos_z (lower g) <= fpos_z p <= fpos_z (upper g))%Q.

(** [p] lies inside the extents and on none of their faces. *)
Definition strictly_inside (g : GeoVolume_t C) (p : FPosition_s) : Prop :=
  (fpos_x (lower g) < fpos_x p < fpos_x (upper g)
   ∧ fpos_y (lower g) < fpos_y p < fpos_y (upper g)
   ∧ fpos_z (lower g) < fpos_z p < fpos_z (upper g))%Q.

(** [idx] addresses a voxel of the volume. *)
Definition in_volume (g : GeoVolume_t C) (idx : Position_s) : Prop :=
  0 ≤ pos_x idx < sizeX (container_ g)
  ∧ 0 ≤ pos_y idx < sizeY (container_ g)
  ∧ 0 ≤ pos_z idx < sizeZ (container_ g).

(** The centre of the voxel [idx]: [lower + (idx + 0.5) * voxelSize]. *)
Definition voxel_center (g : GeoVolume_t C) (idx : Position_s) : FPosition_s :=
  FPosition
    (fpos_x (lower g) + (inject_Z (pos_x idx) + (1 # 2)) * voxelSize g)%Q
    (fpos_y (lower g) + (inject_Z (pos_y idx) + (1 # 2)) * voxelSize g)%Q
    (fpos_z (lower g) + (inject_Z (pos_z idx) + (1 # 2)) * voxelSize g)%Q.

(** [p] lies in the cell of the voxel [idx], faces included: within half
    a voxel of its centre on every axis. *)
Definition in_voxel (g : GeoVolume_t C) (idx : Position_s) (p : FPosition_s)
    : Prop :=
  let c := voxel_center g idx in
  (Qabs (fpos_x p - fpos_x c) <= voxelSize g / 2
   ∧ Qabs (fpos_y p - fpos_y c) <= voxelSize g / 2
   ∧ Qabs (fpos_z p - fpos_z c) <= voxelSize g / 2)%Q.

End GeoVocabulary.

(** The six unit displacements along one axis. *)
Definition unit_axis (d : Displacement_s) : Prop :=
  d ∈ [Displacement 1 0 0; Displacement (-1) 0 0; Displacement 0 1 0;
       Displacement 0 (-1) 0; Displacement 0 0 1; Displacement 0 0 (-1)].

(** [b] lies on the line through [a] along [d]. *)
Definition same_line (d : Displacement_s) (a b : Position_s) : Prop :=
  ∃ m : Z, b = pos_add a (dif_scale d m).

(** The positions [s], [s + d], ..., [s + (n-1) d]. *)
Definition line (s : Position_s) (d : Displacement_s) (n : Z)
    : list Position_s :=
  (λ i, pos_add s (dif_scale d i)) <$> seqZ 0 n.

(** The six faces of the voxel [(i,j,k)], each as the quad of its four
    corners, in the order left, right, bottom, top, back, front. *)
Definition voxelFaces {C : Type} {HC : Container Qc C} (f : GeoVolume_t C)
    (i j k : Z) : list (list FPosition_s) :=
  let p := corner f i j k in
  [ [p (-1) (-1) (-1); p (-1) (-1) 1; p (-1) 1 1; p (-1) 1 (-1)];
    [p 1 1 (-1); p 1 1 1; p 1 (-1) 1; p 1 (-1) (-1)];
    [p (-1) (-1) (-1); p 1 (-1) (-1); p 1 (-1) 1; p (-1) (-1) 1];
    [p (-1) 1 1; p 1 1 1; p 1 1 (-1); p (-1) 1 (-1)];
    [p (-1) (-1) (-1); p (-1) 1 (-1); p 1 1 (-1); p 1 (-1) (-1)];
    [p 1 (-1) 1; p 1 1 1; p (-1) 1 1; p (-1) (-1) 1] ].

(** No two entries of [l], at different places, are the same point. *)
Definition pairwise_distinct (l : list FPosition_s) : Prop :=
  ∀ (m n : nat) (p q : FPosition_s),
    l !! m = Some p → l !! n = Some q → m ≠ n → ¬ fpos_eq p q.

(** A face whose three vertex indices differ from one another. *)
Definition proper_face (fc : Face) : Prop :=
  face_a fc ≠ face_b fc ∧ face_a fc ≠ face_c fc ∧ face_b fc ≠ face_c fc.

(** The invariant of the reconstruction loop: [vidMap] maps exactly the
    points of [ret.vertices] to their indices, and every face added so
    far has three different indices, all of them indices of
    [ret.vertices]. *)
Definition mesh_inv (st : Mesh * gmap Point3 nat) : Prop :=
  (∀ p i, st.2 !! p = Some i ↔ vertices st.1 !! i = Some p)
  ∧ Forall (λ fc, proper_face fc
                  ∧ (face_a fc < length (vertices st.1))%nat
                  ∧ (face_b fc < length (vertices st.1))%nat
                  ∧ (face_c fc < length (vertices st.1))%nat)
           (faces st.1).

(** The voxel count that [downscale] by [factor] gives an axis of [n]
    voxels: [ceil((n + (factor - 1) / 2) / factor)]. *)
Definition downscaled_count (n factor : Z) : Z :=
  Qceiling ((inject_Z n + (inject_Z factor - 1) / 2) / inject_Z factor)%Q.

(** A container as good as [c0]: valid, with the extents of [c0]. *)
Definition like {V C : Type} `{ContainerSpec V C} (c0 c : C) : Prop :=
  valid c ∧ sizeX c = sizeX c0 ∧ sizeY c = sizeY c0 ∧ sizeZ c = sizeZ c0.

(** The distance vector with integer components. *)
Definition zvec (i j k : Z) : DistanceMap.DistVector_s :=
  DistanceMap.DistVector (Q2Qc (inject_Z i)) (Q2Qc (inject_Z j))
                         (Q2Qc (inject_Z k)).

(** Component-wise order of distance vectors. *)
Definition dv_le (a b : DistanceMap.DistVector_s) : Prop :=
  (DistanceMap.distX a ≤ DistanceMap.distX b
   ∧ DistanceMap.distY a ≤ DistanceMap.distY b
   ∧ DistanceMap.distZ a ≤ DistanceMap.distZ b)%Qc.

(** The vector field holds at [(i,j,k)] the offset of that voxel from the
    origin. *)
Definition exact (dv : DistanceMap.DistVectorField_t) (i j k : Z) : Prop :=
  get dv i j k = zvec i j k.

(** The vector field is a well-formed octree of the extents [sx], [sy],
    [sz] and holds at no voxel less than its offset from the origin. *)
Definition shape (sx sy sz : Z) (dv : DistanceMap.DistVectorField_t) : Prop :=
  Octree.well_formed dv ∧ sizeX dv = sx ∧ sizeY dv = sy ∧ sizeZ dv = sz
  ∧ ∀ i j k, 0 ≤ i < sx → 0 ≤ j < sy → 0 ≤ k < sz →
      dv_le (zvec i j k) (get dv i j k).

(** Every voxel that is exact in [dv] is exact in [dv']. *)
Definition keeps (dv dv' : DistanceMap.DistVectorField_t) : Prop :=
  ∀ i j k, exact dv i j k → exact dv' i j k.

(** ** Inputs of the examples *)

(** A bitfield of 2x1x1 voxels of size 1 whose only feature is the voxel
    at the origin. *)
Definition flat_bitfield : option DistanceMap.Bitfield_t :=
  GeoVolume_set
    (GeoVolume (FPosition 0 0 0) (FPosition 2 1 1) 1 false) 0 0 0 true.

(** A filter that passes its input through, for the examples below. *)
Definition pass_through (cutoff : Q) (at_ : Z → Qc) (x rowSize : Z) : Q :=
  this (at_ 0).

(** * Further parts of the library *)

(** ** Position_s and Giterator_t: the comparison operators *)

(** [Position_s::operator==]. *)
Definition pos_eqb (p op : Position_s) : bool :=
  (pos_x p =? pos_x op) && (pos_y p =? pos_y op) && (pos_z p =? pos_z op).

(** [Position_s::operator<]: by [z], then [y], then [x]. *)
Definition pos_ltb (p op2 : Position_s) : bool :=
  if (pos_z p <? pos_z op2)
     || ((pos_z p =? pos_z op2) && (pos_y p <? pos_y op2))
     || ((pos_z p =? pos_z op2) && (pos_y p =? pos_y op2)
         && (pos_x p <? pos_x op2))
  then true else false.

(** The conversions [bool -> int] and [int -> bool] of C++. *)
Definition bool_to_int (b : bool) : Z := if b then 1 else 0.
Definition int_to_bool (n : Z) : bool := negb (n =? 0).

(** [Giterator_t::operator<].  The source reads
    [abs( df.x > 0 ) || abs( df.y > 0 ) || abs( df.z ) > 0]: in the first
    two disjuncts [abs] is applied to the comparison. *)
Definition it_lt (it s : Giterator_t) : bool :=
  let df := pos_diff (pos s) (pos it) in
  if (dif_x df * dif_x (diff it) <? 0) || (dif_y df * dif_y (diff it) <? 0)
     || (dif_z df * dif_z (diff it) <? 0)
  then false
  else if int_to_bool (Z.abs (bool_to_int (dif_x df >? 0)))
          || int_to_bool (Z.abs (bool_to_int (dif_y df >? 0)))
          || (Z.abs (dif_z df) >? 0)
  then true else false.

(** [Giterator_t::operator<=]. *)
Definition it_le (it s : Giterator_t) : bool :=
  it_lt it s || pos_eqb (pos it) (pos s).

(** ** filterInplace: what a line is filtered to *)

(** [std::min( std::max( v, min ), max )] converted to the value type. *)
Definition clamp (value_max value_lowest : Q) (v : Q) : Qc :=
  Q2Qc (Qmin (Qmax v value_lowest) value_max).

(** The three displacements of one step along an axis in its positive
    direction. *)
Definition positive_axis (d : Displacement_s) : Prop :=
  d ∈ [Displacement 1 0 0; Displacement 0 1 0; Displacement 0 0 1].

(** [ret.vertices.push_back(p)]. *)
Definition push_back (ret : Mesh) (p : Point3) : Mesh :=
  {| vertices := vertices ret ++ [p]; faces := faces ret |}.

(** ** ScalarField_t: marching tetrahedra *)

(** [interpolate]: the point between [p1] and [p2] where the value,
    taken linear along the segment, is [midval].  The values are cast to
    [double]; where [value1 == value2] the source divides by zero, which
    is outside the model. *)
Definition interpolate (p1 : FPosition_s) (value1 : Qc) (p2 : FPosition_s)
    (value2 : Qc) (midval : Qc) : FPosition_s :=
  let alphas : Q * Q :=
    if bool_decide (value2 < value1)%Qc
    then let alpha1 := ((midval - value2) / (value1 - value2))%Q in
         (alpha1, (1 - alpha1)%Q)
    else let alpha2 := ((midval - value1) / (value2 - value1))%Q in
         ((1 - alpha2)%Q, alpha2) in
  let alpha1 := alphas.1 in
  let alpha2 := alphas.2 in
  FPosition (fpos_x p1 * alpha1 + fpos_x p2 * alpha2)%Q
            (fpos_y p1 * alpha1 + fpos_y p2 * alpha2)%Q
            (fpos_z p1 * alpha1 + fpos_z p2 * alpha2)%Q.

(** [isoFromTetrahedron]: the triangles of the isosurface inside one
    tetrahedron, appended to [retval].  [side v b] is [v > threshold] for
    [b = true] and [v <= threshold] for [b = false]; [case b0 b1 b2 b3] is
    the condition of one [if] of the source, whose [TO_MAX] half is the
    [TO_MIN] half with every comparison exchanged. *)
Definition isoFromTetrahedron (retval : list FPosition_s)
    (vx0 : FPosition_s) (value0 : Qc) (vx1 : FPosition_s) (value1 : Qc)
    (vx2 : FPosition_s) (value2 : Qc) (vx3 : FPosition_s) (value3 : Qc)
    (threshold : Qc) (orientation : SurfaceOrientation_t)
    : list FPosition_s :=
  let side (v : Qc) (b : bool) : bool :=
    if b then bool_decide (threshold < v)%Qc
    else bool_decide (v ≤ threshold)%Qc in
  let case (b0 b1 b2 b3 : bool) : bool :=
    (side value0 b0 && side value1 b1 && side value2 b2 && side value3 b3
     && bool_decide (orientation = TO_MIN))
    || (side value0 (negb b0) && side value1 (negb b1)
        && side value2 (negb b2) && side value3 (negb b3)
        && bool_decide (orientation = TO_MAX)) in
  let i01 := interpolate vx0 value0 vx1 value1 threshold in
  let i02 := interpolate vx0 value0 vx2 value2 threshold in
  let i03 := interpolate vx0 value0 vx3 value3 threshold in
  let i10 := interpolate vx1 value1 vx0 value0 threshold in
  let i12 := interpolate vx1 value1 vx2 value2 threshold in
  let i13 := interpolate vx1 value1 vx3 value3 threshold in
  let i20 := interpolate vx2 value2 vx0 value0 threshold in
  let i21 := interpolate vx2 value2 vx1 value1 threshold in
  let i23 := interpolate vx2 value2 vx3 value3 threshold in
  let i30 := interpolate vx3 value3 vx0 value0 threshold in
  let i31 := interpolate vx3 value3 vx1 value1 threshold in
  let i32 := interpolate vx3 value3 vx2 value2 threshold in
  (* case 0000, 1111 *)
  if (side value0 true && side value1 true && side value2 true
      && side value3 true)
     || (side value0 false && side value1 false && side value2 false
         && side value3 false)
  then retval
  else
    (* case 0001 *)
    let retval := if case true false false false
                  then retval ++ [i10; i20; i30] else retval in
    (* case 0010 *)
    let retval := if case false true false false
                  then retval ++ [i21; i01; i31] else retval in
    (* case 0011 *)
    let retval := if case true true false false
                  then retval ++ [i12; i02; i13; i13; i02; i03]
                  else retval in
    (* case 0100 *)
    let retval := if case false false true false
                  then retval ++ [i12; i32; i02] else retval in
    (* case 0101 *)
    let retval := if case true false true false
                  then retval ++ [i01; i12; i23; i23; i03; i01]
                  else retval in
    (* case 0110 *)
    let retval := if case false true true false
                  then retval ++ [i02; i01; i13; i02; i13; i23]
                  else retval in
    (* case 0111 *)
    let retval := if case true true true false
                  then retval ++ [i23; i03; i13] else retval in
    (* case 1000 *)
    let retval := if case false false false true
                  then retval ++ [i23; i13; i03] else retval in
    (* case 1001 *)
    let retval := if case true false false true
                  then retval ++ [i01; i02; i13; i13; i02; i23]
                  else retval in
    (* case 1010 *)
    let retval := if case false true false true
                  then retval ++ [i12; i01; i23; i03; i23; i01]
                  else retval in
    (* case 1011 *)
    let retval := if case true true false true
                  then retval ++ [i32; i12; i02] else retval in
    (* case 1100 *)
    let retval := if case false false true true
                  then retval ++ [i02; i12; i13; i02; i13; i03]
                  else retval in
    (* case 1101 *)
    let retval := if case true false true true
                  then retval ++ [i01; i21; i31] else retval in
    (* case 1110 *)
    let retval := if case false true true true
                  then retval ++ [i20; i10; i30] else retval in
    retval.

(** The cells [for i = -1 .. sizeX-1, for j = -1 .. sizeY-1,
    for k = -1 .. sizeZ-1] in loop order. *)
Definition cells (sizeX sizeY sizeZ : Z) : list Position_s :=
  i ← seqZ (-1) (sizeX + 1); j ← seqZ (-1) (sizeY + 1);
  k ← seqZ (-1) (sizeZ + 1); [Position i j k].

Section Tetrahedrons.
Context {C : Type} {HC : Container Qc C}.

(** The body of the loop of [isosurfaceTetrahedrons] for the cell whose
    lowest corner is the centre of the voxel [(i,j,k)]. *)
Definition cellTetrahedrons (f : GeoVolume_t C) (threshold : Qc)
    (orientation : SurfaceOrientation_t) (retval : list FPosition_s)
    (cell : Position_s) : list FPosition_s :=
  let i := pos_x cell in
  let j := pos_y cell in
  let k := pos_z cell in
  let vertex (a b c : Z) := grid2geo f (Position (i + a) (j + b) (k + c)) in
  let value (a b c : Z) : Qc := GeoVolume_get f (i + a) (j + b) (k + c) in
  let iso retval (p q r s : Z * Z * Z) :=
    isoFromTetrahedron retval
      (vertex p.1.1 p.1.2 p.2) (value p.1.1 p.1.2 p.2)
      (vertex q.1.1 q.1.2 q.2) (value q.1.1 q.1.2 q.2)
      (vertex r.1.1 r.1.2 r.2) (value r.1.1 r.1.2 r.2)
      (vertex s.1.1 s.1.2 s.2) (value s.1.1 s.1.2 s.2)
      threshold orientation in
  let v0 := (0, 0, 0) in
  let v1 := (1, 0, 0) in
  let v2 := (0, 1, 0) in
  let v3 := (1, 1, 0) in
  let v4 := (0, 0, 1) in
  let v5 := (1, 0, 1) in
  let v6 := (0, 1, 1) in
  let v7 := (1, 1, 1) in
  let retval := iso retval v0 v5 v7 v4 in
  let retval := iso retval v0 v1 v7 v5 in
  let retval := iso retval v0 v1 v3 v7 in
  let retval := iso retval v0 v7 v6 v4 in
  let retval := iso retval v0 v7 v2 v6 in
  let retval := iso retval v0 v3 v2 v7 in
  retval.

Definition isosurfaceTetrahedrons (f : GeoVolume_t C) (threshold : Qc)
    (orientation : SurfaceOrientation_t) : list FPosition_s :=
  foldl (cellTetrahedrons f threshold orientation) []
    (cells (sizeX (container_ f)) (sizeY (container_ f))
           (sizeZ (container_ f))).

(** The corner of the cell [cell] at the offset [d] (each component 0 or
    1), with the value read there: [vertexes[n].vertex] and
    [vertexes[n].value]. *)
Definition cell_corner (f : GeoVolume_t C) (cell : Position_s)
    (d : Z * Z * Z) : FPosition_s * Qc :=
  (grid2geo f (Position (pos_x cell + d.1.1) (pos_y cell + d.1.2)
                        (pos_z cell + d.2)),
   GeoVolume_get f (pos_x cell + d.1.1) (pos_y cell + d.1.2)
                   (pos_z cell + d.2)).

(** The eight corners of a cell, [vertexes[0]] to [vertexes[7]]. *)
Definition cell_corners (f : GeoVolume_t C) (cell : Position_s)
    : list (FPosition_s * Qc) :=
  cell_corner f cell
    <$> [(0, 0, 0); (1, 0, 0); (0, 1, 0); (1, 1, 0);
         (0, 0, 1); (1, 0, 1); (0, 1, 1); (1, 1, 1)].

(** The six tetrahedrons a cell is cut into, by the offsets of their
    corners. *)
Definition cell_tetrahedrons
    : list ((Z * Z * Z) * (Z * Z * Z) * (Z * Z * Z) * (Z * Z * Z)) :=
  [((0, 0, 0), (1, 0, 1), (1, 1, 1), (0, 0, 1));
   ((0, 0, 0), (1, 0, 0), (1, 1, 1), (1, 0, 1));
   ((0, 0, 0), (1, 0, 0), (1, 1, 0), (1, 1, 1));
   ((0, 0, 0), (1, 1, 1), (0, 1, 1), (0, 0, 1));
   ((0, 0, 0), (1, 1, 1), (0, 1, 0), (0, 1, 1));
   ((0, 0, 0), (1, 1, 0), (0, 1, 0), (1, 1, 1))].

(** [getQuadsAsMesh]: every point of [getQuads] becomes a vertex, every
    quad two faces.  [quad] is a [uint] in the source: the model follows it
    for streams of fewer than [2^32] points. *)
Definition getQuadsAsMesh (f : GeoVolume_t C) (threshold : Qc)
    (orientation : SurfaceOrientation_t) : Mesh :=
  let vertices := getQuads f threshold orientation in
  let ret := mkMesh [] [] in
  let ret := foldl (λ ret vertex, push_back ret (toPoint3 vertex))
                   ret vertices in
  foldl (λ ret quad,
           let ret := addFace ret (quad * 4) (quad * 4 + 1) (quad * 4 + 3) in
           addFace ret (quad * 4 + 1) (quad * 4 + 2) (quad * 4 + 3))%nat
        ret (seq 0 (length vertices / 4)).

End Tetrahedrons.

(** [p] lies on the segment from [a] to [b]. *)
Definition on_segment (p a b : FPosition_s) : Prop :=
  ∃ alpha : Q, (0 <= alpha <= 1)%Q
    ∧ fpos_eq p (FPosition
                   (fpos_x a * alpha + fpos_x b * (1 - alpha))%Q
                   (fpos_y a * alpha + fpos_y b * (1 - alpha))%Q
                   (fpos_z a * alpha + fpos_z b * (1 - alpha))%Q).

(** The values [va] and [vb] lie on different sides of [threshold]. *)
Definition opposite_sides (threshold va vb : Qc) : Prop :=
  (va ≤ threshold ∧ threshold < vb)%Qc ∨ (vb ≤ threshold ∧ threshold < va)%Qc.

(** ** geometry::Mesh: the face predicates *)

(** [Face::degenerate]. *)
Definition Face_degenerate (fc : Face) : bool :=
  bool_decide (face_a fc = face_b fc) || bool_decide (face_b fc = face_c fc)
  || bool_decide (face_c fc = face_a fc).

(** [Mesh::good]. *)
Definition good (m : Mesh) (fc : Face) : bool :=
  bool_decide (face_a fc < length (vertices m))%nat
  && bool_decide (face_b fc < length (vertices m))%nat
  && bool_decide (face_c fc < length (vertices m))%nat.

(** [Mesh::degenerate], with the short-circuit evaluation of [||].
    [vertices[face.a]] past the end of the vector is undefined behaviour
    in the source: [None]. *)
Definition Mesh_degenerate (m : Mesh) (fc : Face) : option bool :=
  if Face_degenerate fc then Some true
  else
    a ← vertices m !! face_a fc;
    b ← vertices m !! face_b fc;
    if bool_decide (a = b) then Some true
    else
      c ← vertices m !! face_c fc;
      Some (bool_decide (b = c) || bool_decide (c = a)).

(** The number of the values [vs] that are above [threshold]. *)
Definition above (threshold : Qc) (vs : list Qc) : nat :=
  length (filter (λ v, (threshold < v)%Qc) vs).

(** The number of points of the triangles cut from a tetrahedron of
    which [n] corners are above the threshold: none, one triangle or
    two. *)
Definition triangle_points (n : nat) : nat :=
  match n with
  | 0 | 4 => 0
  | 2 => 6
  | _ => 3
  end%nat.

(** [p] is the crossing point of the threshold on the segment between
    two of the [corners], whose values lie on different sides of it. *)
Definition crossing_point (threshold : Qc) (corners : list (FPosition_s * Qc))
    (p : FPosition_s) : Prop :=
  ∃ a b : FPosition_s * Qc,
    a ∈ corners ∧ b ∈ corners ∧ opposite_sides threshold a.2 b.2
    ∧ fpos_eq p (interpolate a.1 a.2 b.1 b.2 threshold)
    ∧ on_segment p a.1 b.1.

(** The number of points of the triangles cut from the cell [cell]. *)
Definition cell_points {C : Type} {HC : Container Qc C} (f : GeoVolume_t C)
    (threshold : Qc) (cell : Position_s) : nat :=
  sum_list
    ((λ '(p, q, r, s),
        triangle_points
          (above threshold [(cell_corner f cell p).2; (cell_corner f cell q).2;
                            (cell_corner f cell r).2;
                            (cell_corner f cell s).2]))
       <$> cell_tetrahedrons).

(** ** The triangles of a vertex stream and of a mesh *)

(** The three points of the triangle number [face] of a vertex stream,
    as [isosurfaceAsMesh] reads them. *)
Definition triangle (stream : list FPosition_s) (face : nat)
    : Point3 * Point3 * Point3 :=
  let pVertex (vertex : nat) :=
    toPoint3 (default (FPosition 0 0 0) (stream !! (face * 3 + vertex)%nat)) in
  (pVertex 0%nat, pVertex 1%nat, pVertex 2%nat).

(** The complete triangles of a vertex stream, in order. *)
Definition triangles (stream : list FPosition_s)
    : list (Point3 * Point3 * Point3) :=
  triangle stream <$> seq 0 (length stream / 3).

(** The three points a face of a mesh refers to: [Mesh::a], [Mesh::b] and
    [Mesh::c]. *)
Definition face_points (m : Mesh) (fc : Face)
    : option (Point3 * Point3 * Point3) :=
  a ← vertices m !! face_a fc;
  b ← vertices m !! face_b fc;
  c ← vertices m !! face_c fc;
  Some (a, b, c).

(** A triangle whose three points differ from one another. *)
Definition distinct3 (tr : Point3 * Point3 * Point3) : Prop :=
  tr.1.1 ≠ tr.1.2 ∧ tr.1.1 ≠ tr.2 ∧ tr.1.2 ≠ tr.2.

#[global] Instance distinct3_dec tr : Decision (distinct3 tr).
Proof. unfold distinct3. apply _. Defined.

(** The invariant of the reconstruction loop, after the triangles
    [done]. *)
Definition reconstructed (stream : list FPosition_s) (done : list nat)
    (st : Mesh * gmap Point3 nat) : Prop :=
  mesh_inv st
  ∧ face_points st.1 <$> faces st.1
    = Some <$> filter distinct3 (triangle stream <$> done)
  ∧ ∀ p, p ∈ vertices st.1
         ↔ ∃ tr, tr ∈ triangle stream <$> done
                 ∧ (p = tr.1.1 ∨ p = tr.1.2 ∨ p = tr.2).

(** ** The octree as a canonical form *)

(** What every octree built by the constructor and [set] calls satisfies:
    the tree fits the root cube, no GRAY node has eight SOLID children
    with one value, and the voxels of the root cube outside the volume
    hold [initValue]; a volume without voxels keeps the root it was
    constructed with. *)
Definition canonical_form {V : Type} `{EqDecision V}
    (v : Octree.Volume_t V) : Prop :=
  let m := Z.max (Octree.vol_sizeX v)
                 (Z.max (Octree.vol_sizeY v) (Octree.vol_sizeZ v)) in
  (m ≤ 0 ∧ Octree.root v = Octree.SOLID (Octree.vol_initValue v))
  ∨ ∃ k : nat,
      Octree.rootSize v = 2 ^ Z.of_nat k
      ∧ Octree.fits k (Octree.root v) = true
      ∧ 0 < m ≤ Octree.rootSize v
      ∧ Octree.collapsed (Octree.root v) = true
      ∧ ∀ pos,
          Octree.in_cube (Octree.rootSize v) pos →
          out_of_range (Octree.vol_sizeX v) (Octree.vol_sizeY v)
            (Octree.vol_sizeZ v) (pos_x pos) (pos_y pos) (pos_z pos) = true →
          Octree.Node_get (Octree.rootSize v) pos (Octree.root v)
          = Octree.vol_initValue v.

(** ** meshop.cpp: [removeNonManifoldEdges] *)

(** [EdgeKey(v1, v2)]: the two vertex indices of an edge, the lower one
    first. *)
Definition EdgeKey (v1 v2 : nat) : nat * nat := (v1 `min` v2, v1 `max` v2)%nat.

(** [edgeKeys]: the three edges of a face. *)
Definition edgeKeys (face : Face) : list (nat * nat) :=
  [EdgeKey (face_a face) (face_b face); EdgeKey (face_b face) (face_c face);
   EdgeKey (face_c face) (face_a face)].

(** The body of the loop over [edgeKeys]: the face [fi] is recorded in
    the [Edge] of [key], which is created when it is not in the map. *)
Definition addEdge (fi : nat) (edgeMap : gmap (nat * nat) (gset nat))
    (key : nat * nat) : gmap (nat * nat) (gset nat) :=
  match edgeMap !! key with
  | None => <[key := {[fi]}]> edgeMap
  | Some edge => <[key := edge ∪ {[fi]}]> edgeMap
  end.

(** The faces recorded in the [Edge] of [key], none when the map does
    not hold the edge. *)
Definition recorded (edgeMap : gmap (nat * nat) (gset nat))
    (key : nat * nat) : gset nat :=
  default ∅ (edgeMap !! key).

(** The faces of a mesh with their indices, as the loops
    [for (fi = 0; fi < faces.size(); fi++)] see them.  [fi] is an
    [unsigned int] in the source: the model follows it for meshes of fewer
    than [2^32] faces. *)
Definition indexed (faces : list Face) : list (nat * Face) :=
  imap (λ fi face, (fi, face)) faces.

(** "count faces for each edge". *)
Definition countFaces (faces : list Face) : gmap (nat * nat) (gset nat) :=
  foldl (λ edgeMap p, foldl (addEdge p.1) edgeMap (edgeKeys p.2)) ∅
        (indexed faces).

(** "collect faces incident with non-manifold edge".  The source walks
    the map in key order; the set collected does not depend on the
    order. *)
Definition facesToOmit (edgeMap : gmap (nat * nat) (gset nat)) : gset nat :=
  map_fold (λ _ edge omit,
              if bool_decide (2 < size edge)%nat then edge ∪ omit else omit)
           ∅ edgeMap.

(** [Mesh::addFace] with six arguments: [imageId] is zeroed. *)
Definition addFace6 (m : Mesh) (a b c ta tb tc : nat) : Mesh :=
  {| vertices := vertices m;
     faces := faces m ++ [mkFace 0 a b c ta tb tc] |}.

(** [removeNonManifoldEdges]: the mesh is copied, its faces are cleared
    and the faces not to be omitted are added again. *)
Definition removeNonManifoldEdges (omesh : Mesh) : Mesh :=
  let edgeMap := countFaces (faces omesh) in
  let omit := facesToOmit edgeMap in
  foldl (λ mesh p,
           if bool_decide (p.1 ∈ omit) then mesh
           else addFace6 mesh (face_a p.2) (face_b p.2) (face_c p.2)
                              (face_ta p.2) (face_tb p.2) (face_tc p.2))
        {| vertices := vertices omesh; faces := [] |}
        (indexed (faces omesh)).

(** The number of the faces that have the edge [key]. *)
Definition incident (faces : list Face) (key : nat * nat) : nat :=
  length (filter (λ face, key ∈ edgeKeys face) faces).

(** A face as [removeNonManifoldEdges] adds it again. *)
Definition readded (face : Face) : Face :=
  mkFace 0 (face_a face) (face_b face) (face_c face)
         (face_ta face) (face_tb face) (face_tc face).

(** ** detail::Obj: the accumulator of the OBJ parser *)

Module ObjParser.
Section ObjParser.

(** [ObjParserBase::Vector3d] is declared outside this repository; the
    accumulator only passes it on. *)
Context {Vector3d : Type}.

(** [ObjParserBase::Facet]: [int v[3], t[3], n[3]]. *)
Record Facet := mkFacet {
  facet_v : list Z;
  facet_t : list Z;
  facet_n : list Z
}.

(** The calls made on the [ObjParserBase] behind [p_]. *)
Inductive Call :=
| addVertex (v : Vector3d)
| addTexture (t : Vector3d)
| addNormal (n : Vector3d)
| addFacet (f : Facet).

(** [Obj]: the calls made on [*p_] so far, in order, and the three
    counters.  The counters are [int]; the model follows the source for
    fewer than [2^31] elements of a kind. *)
Record Obj := mkObj {
  p_ : list Call;
  vCount_ : Z;
  tCount_ : Z;
  nCount_ : Z
}.

(** The constructor. *)
Definition Obj_new : Obj := mkObj [] 0 0 0.

(** [operator+=(const detail::Vertex&)]. *)
Definition add_Vertex (o : Obj) (v : Vector3d) : Obj :=
  mkObj (p_ o ++ [addVertex v]) (vCount_ o + 1) (tCount_ o) (nCount_ o).

(** [operator+=(const detail::Texture&)]. *)
Definition add_Texture (o : Obj) (t : Vector3d) : Obj :=
  mkObj (p_ o ++ [addTexture t]) (vCount_ o) (tCount_ o + 1) (nCount_ o).

(** [operator+=(const detail::Normal&)]. *)
Definition add_Normal (o : Obj) (n : Vector3d) : Obj :=
  mkObj (p_ o ++ [addNormal n]) (vCount_ o) (tCount_ o) (nCount_ o + 1).

(** [if (v < 0) { v = vCount_ + v + 1; }]. *)
Definition absolute (count v : Z) : Z :=
  if v <? 0 then count + v + 1 else v.

(** [operator+=(Facet)]. *)
Definition add_Facet (o : Obj) (f : Facet) : Obj :=
  let f := mkFacet (absolute (vCount_ o) <$> facet_v f)
                   (absolute (tCount_ o) <$> facet_t f)
                   (absolute (nCount_ o) <$> facet_n f) in
  mkObj (p_ o ++ [addFacet f]) (vCount_ o) (tCount_ o) (nCount_ o).

(** What the grammar hands to [+=]. *)
Inductive Element :=
| Vertex (v : Vector3d)
| Texture (t : Vector3d)
| Normal (n : Vector3d)
| AFacet (f : Facet).

Definition add (o : Obj) (e : Element) : Obj :=
  match e with
  | Vertex v => add_Vertex o v
  | Texture t => add_Texture o t
  | Normal n => add_Normal o n
  | AFacet f => add_Facet o f
  end.

(** [*(vertex[_val += _1] | texture[_val += _1] | normal[_val += _1]
      | facet[_val += _1])]: the elements are added as they are parsed. *)
Definition parsed (es : list Element) : Obj := foldl add Obj_new es.

(** The vertices, texture coordinates and normals among the calls. *)
Definition vertices_of (cs : list Call) : list Vector3d :=
  cs ≫= λ c, match c with addVertex v => [v] | _ => [] end.
Definition textures_of (cs : list Call) : list Vector3d :=
  cs ≫= λ c, match c with addTexture v => [v] | _ => [] end.
Definition normals_of (cs : list Call) : list Vector3d :=
  cs ≫= λ c, match c with addNormal v => [v] | _ => [] end.

(** The element that the index [idx] of an OBJ file names among the
    elements [l] read so far: a positive index counts from the first
    element, from 1; a negative one from the last, from -1. *)
Definition named (l : list Vector3d) (idx : Z) : option Vector3d :=
  if 0 <? idx then l !! Z.to_nat (idx - 1)
  else if idx <? 0 then reverse l !! Z.to_nat (- idx - 1)
  else None.

(** The counters count the calls made. *)
Definition counted (o : Obj) : Prop :=
  vCount_ o = Z.of_nat (length (vertices_of (p_ o)))
  ∧ tCount_ o = Z.of_nat (length (textures_of (p_ o)))
  ∧ nCount_ o = Z.of_nat (length (normals_of (p_ o))).

(** The index [idx'] passed on stands for the index [idx] read: an index
    that is not negative is passed on as it is, and a negative one that
    names one of the elements [l] becomes the positive index of the same
    element. *)
Definition stands_for (l : list Vector3d) (idx idx' : Z) : Prop :=
  (0 ≤ idx → idx' = idx)
  ∧ (- Z.of_nat (length l) ≤ idx < 0 →
     0 < idx' ∧ named l idx' = named l idx).

End ObjParser.
Arguments Facet : clear implicits.
Arguments Call : clear implicits.
Arguments Obj : clear implicits.
Arguments Element : clear implicits.
End ObjParser.

(** * Properties of the containers *)

Lemma out_of_range_false sx sy sz i j k :
  out_of_range sx sy sz i j k = false ↔
  0 ≤ i < sx ∧ 0 ≤ j < sy ∧ 0 ≤ k < sz.
Proof. unfold out_of_range. rewrite !orb_false_iff. lia. Qed.

Lemma out_of_range_true sx sy sz i j k :
  out_of_range sx sy sz i j k = true ↔
  i < 0 ∨ sx ≤ i ∨ j < 0 ∨ sy ≤ j ∨ k < 0 ∨ sz ≤ k.
Proof. unfold out_of_range. rewrite !orb_true_iff. lia. Qed.

Module OctreeFacts.
Import Octree.
Section OctreeFacts.
Context {V : Type} `{EqDecision V}.
Implicit Types (n c s t : Node_s V).
Implicit Types (pos q : Position_s) (value old : V).

Ltac octant_cases o :=
  let Ho := fresh in
  assert (Ho : o = 0 ∨ o = 1 ∨ o = 2 ∨ o = 3 ∨ o = 4 ∨ o = 5 ∨ o = 6 ∨ o = 7)
    by lia;
  destruct Ho as [-> | [-> | [-> | [-> | [-> | [-> | [-> | ->]]]]]]].

Lemma child_with_subnode_eq o c s0 s1 s2 s3 s4 s5 s6 s7 :
  0 ≤ o < 8 → child o (with_subnode o c s0 s1 s2 s3 s4 s5 s6 s7) = c.
Proof. intros Ho. octant_cases o; reflexivity. Qed.

Lemma child_with_subnode_ne o o' c s0 s1 s2 s3 s4 s5 s6 s7 :
  0 ≤ o < 8 → 0 ≤ o' < 8 → o ≠ o' →
  child o' (with_subnode o c s0 s1 s2 s3 s4 s5 s6 s7)
  = subnode o' s0 s1 s2 s3 s4 s5 s6 s7.
Proof.
  intros Ho Ho' Hne. octant_cases o; octant_cases o'; try reflexivity; lia.
Qed.

Lemma findOctant_oct nodeSize pos :
  findOctant nodeSize pos
  = oct (pos_x pos >=? nodeSize ≫ 1) (pos_y pos >=? nodeSize ≫ 1)
        (pos_z pos >=? nodeSize ≫ 1).
Proof.
  unfold findOctant.
  destruct (pos_x pos >=? _), (pos_y pos >=? _), (pos_z pos >=? _);
    reflexivity.
Qed.

Lemma toOctant_oct bx by_ bz nodeSize pos :
  toOctant (oct bx by_ bz) nodeSize pos
  = Position (if bx then pos_x pos - nodeSize ≫ 1 else pos_x pos)
             (if by_ then pos_y pos - nodeSize ≫ 1 else pos_y pos)
             (if bz then pos_z pos - nodeSize ≫ 1 else pos_z pos).
Proof. destruct bx, by_, bz; reflexivity. Qed.

Lemma oct_range bx by_ bz : 0 ≤ oct bx by_ bz < 8.
Proof. destruct bx, by_, bz; unfold oct; lia. Qed.

Lemma oct_inj bx by_ bz bx' by' bz' :
  oct bx by_ bz = oct bx' by' bz' → bx = bx' ∧ by_ = by' ∧ bz = bz'.
Proof. destruct bx, by_, bz, bx', by', bz'; unfold oct; intros; (done || lia). Qed.

Lemma findOctant_range nodeSize pos : 0 ≤ findOctant nodeSize pos < 8.
Proof. rewrite findOctant_oct. apply oct_range. Qed.

Lemma with_subnode_gray o c s0 s1 s2 s3 s4 s5 s6 s7 :
  ∃ t0 t1 t2 t3 t4 t5 t6 t7,
    with_subnode o c s0 s1 s2 s3 s4 s5 s6 s7 = GRAY t0 t1 t2 t3 t4 t5 t6 t7.
Proof. destruct o as [|p|p]; simpl; eauto 10.
  do 4 (try destruct p as [p|p|]); simpl; eauto 10. Qed.

Lemma Node_get_gray nodeSize pos s0 s1 s2 s3 s4 s5 s6 s7 :
  Node_get nodeSize pos (GRAY s0 s1 s2 s3 s4 s5 s6 s7)
  = Node_get (nodeSize ≫ 1)
      (toOctant (findOctant nodeSize pos) nodeSize pos)
      (subnode (findOctant nodeSize pos) s0 s1 s2 s3 s4 s5 s6 s7).
Proof. reflexivity. Qed.

Lemma Node_set_gray fuel nodeSize pos value s0 s1 s2 s3 s4 s5 s6 s7 :
  Node_set (S fuel) nodeSize pos value (GRAY s0 s1 s2 s3 s4 s5 s6 s7)
  = c ← Node_set fuel (nodeSize ≫ 1)
          (toOctant (findOctant nodeSize pos) nodeSize pos) value
          (subnode (findOctant nodeSize pos) s0 s1 s2 s3 s4 s5 s6 s7);
    Some (collapse value
            (with_subnode (findOctant nodeSize pos) c s0 s1 s2 s3 s4 s5 s6 s7)).
Proof. reflexivity. Qed.

Lemma Node_set_solid fuel nodeSize pos value old :
  Node_set (S fuel) nodeSize pos value (SOLID old)
  = if decide (old = value) then Some (SOLID old)
    else if decide (nodeSize = 1) then Some (SOLID value)
    else Node_set (S fuel) nodeSize pos value
           (GRAY (SOLID old) (SOLID old) (SOLID old) (SOLID old)
                 (SOLID old) (SOLID old) (SOLID old) (SOLID old)).
Proof. reflexivity. Qed.

Lemma matches_true value n : matches value n = true ↔ n = SOLID value.
Proof.
  destruct n; simpl; [|split; discriminate].
  rewrite bool_decide_eq_true. split; congruence.
Qed.

Lemma children_all_with_subnode P o c s0 s1 s2 s3 s4 s5 s6 s7 :
  children_all P (GRAY s0 s1 s2 s3 s4 s5 s6 s7) = true → P c = true →
  children_all P (with_subnode o c s0 s1 s2 s3 s4 s5 s6 s7) = true.
Proof.
  simpl. rewrite !andb_true_iff. intros Hall Hc.
  destruct o as [|p|p]; simpl; rewrite ?andb_true_iff; [tauto| |tauto].
  do 3 (try destruct p as [p|p|]); simpl; rewrite ?andb_true_iff; tauto.
Qed.

Lemma children_all_subnode P o s0 s1 s2 s3 s4 s5 s6 s7 :
  children_all P (GRAY s0 s1 s2 s3 s4 s5 s6 s7) = true →
  P (subnode o s0 s1 s2 s3 s4 s5 s6 s7) = true.
Proof.
  simpl. rewrite !andb_true_iff. intros Hall.
  destruct o as [|p|p]; simpl; [tauto| |tauto].
  do 3 (try destruct p as [p|p|]); simpl; tauto.
Qed.

Lemma subnode_same o s : subnode o s s s s s s s s = s.
Proof.
  destruct o as [|p|p]; simpl; [done| |done].
  do 3 (try destruct p as [p|p|]); done.
Qed.

(** *** The collapse step *)

Lemma collapse_solid_inv value n w :
  collapse value n = SOLID w →
  n = SOLID w
  ∨ w = value
    ∧ n = GRAY (SOLID value) (SOLID value) (SOLID value) (SOLID value)
               (SOLID value) (SOLID value) (SOLID value) (SOLID value).
Proof.
  destruct n as [old|s0 s1 s2 s3 s4 s5 s6 s7]; simpl; [auto|].
  destruct (_ && matches value s7) eqn:Hm; [|done].
  intros [= <-]. right. split; [done|].
  rewrite !andb_true_iff, !matches_true in Hm.
  by destruct Hm as [[[[[[[-> ->] ->] ->] ->] ->] ->] ->].
Qed.

Lemma collapse_gray_inv value n t0 t1 t2 t3 t4 t5 t6 t7 :
  collapse value n = GRAY t0 t1 t2 t3 t4 t5 t6 t7 →
  n = GRAY t0 t1 t2 t3 t4 t5 t6 t7.
Proof.
  destruct n as [old|s0 s1 s2 s3 s4 s5 s6 s7]; simpl; [done|].
  by destruct (_ && matches value s7).
Qed.

(** Collapsing changes no stored value. *)
Lemma collapse_get value n nodeSize q :
  Node_get nodeSize q (collapse value n) = Node_get nodeSize q n.
Proof.
  destruct (collapse value n) as [w|t0 t1 t2 t3 t4 t5 t6 t7] eqn:Hc.
  - apply collapse_solid_inv in Hc as [->|[-> ->]]; [done|].
    rewrite Node_get_gray, subnode_same. done.
  - apply collapse_gray_inv in Hc as ->. done.
Qed.

(** A node one of whose children is SOLID only with the value just set
    is not [uniform] once the collapse step has run. *)
Lemma collapse_not_uniform value o n :
  0 ≤ o < 8 → (∀ w, child o n = SOLID w → w = value) →
  uniform (collapse value n) = false.
Proof.
  intros Ho Hchild.
  destruct (collapse value n) as [w|t0 t1 t2 t3 t4 t5 t6 t7] eqn:Hc; [done|].
  apply collapse_gray_inv in Hc as Hn. subst n.
  destruct (uniform _) eqn:Hu; [|done]. exfalso.
  destruct t0 as [v| ]; [|done]. simpl in Hu.
  rewrite !andb_true_iff, !matches_true in Hu.
  destruct Hu as [[[[[[-> ->] ->] ->] ->] ->] ->].
  simpl in Hchild. rewrite subnode_same in Hchild.
  specialize (Hchild v eq_refl) as ->.
  simpl in Hc. rewrite !bool_decide_eq_true_2 in Hc by done. done.
Qed.

(** *** What [Node_s::set] returns *)

(** A SOLID result carries the value that was set. *)
Lemma Node_set_solid_value fuel nodeSize pos value n n' w :
  Node_set fuel nodeSize pos value n = Some n' → n' = SOLID w → w = value.
Proof.
  destruct fuel as [|fuel]; [done|].
  assert (Hgray : ∀ s0 s1 s2 s3 s4 s5 s6 s7,
    Node_set (S fuel) nodeSize pos value (GRAY s0 s1 s2 s3 s4 s5 s6 s7)
      = Some n' → n' = SOLID w → w = value).
  { intros s0 s1 s2 s3 s4 s5 s6 s7. rewrite Node_set_gray.
    destruct (Node_set fuel _ _ _ _) as [c|]; [|done]. simpl.
    intros [= <-] Hc. apply collapse_solid_inv in Hc as [Hc|[? _]]; [|done].
    destruct (with_subnode_gray (findOctant nodeSize pos) c
                s0 s1 s2 s3 s4 s5 s6 s7) as (?&?&?&?&?&?&?&?&Heq).
    congruence. }
  destruct n as [old|s0 s1 s2 s3 s4 s5 s6 s7]; [|apply Hgray].
  rewrite Node_set_solid.
  destruct (decide (old = value)); [congruence|].
  destruct (decide (nodeSize = 1)); [congruence|apply Hgray].
Qed.

(** [set] never returns a GRAY node whose 8 children are SOLID with one
    common value. *)
Lemma Node_set_not_uniform fuel nodeSize pos value n n' :
  Node_set fuel nodeSize pos value n = Some n' → uniform n' = false.
Proof.
  destruct fuel as [|fuel]; [done|].
  assert (Hgray : ∀ s0 s1 s2 s3 s4 s5 s6 s7,
    Node_set (S fuel) nodeSize pos value (GRAY s0 s1 s2 s3 s4 s5 s6 s7)
      = Some n' → uniform n' = false).
  { intros s0 s1 s2 s3 s4 s5 s6 s7. rewrite Node_set_gray.
    destruct (Node_set fuel _ _ _ _) as [c|] eqn:Hrec; [|done]. simpl.
    intros [= <-].
    apply (collapse_not_uniform value (findOctant nodeSize pos));
      [apply findOctant_range|].
    rewrite child_with_subnode_eq by apply findOctant_range.
    intros w. by eapply Node_set_solid_value. }
  destruct n as [old|s0 s1 s2 s3 s4 s5 s6 s7]; [|apply Hgray].
  rewrite Node_set_solid.
  destruct (decide (old = value)); [by intros [= <-]|].
  destruct (decide (nodeSize = 1)); [by intros [= <-]|apply Hgray].
Qed.

Lemma collapsed_gray s0 s1 s2 s3 s4 s5 s6 s7 :
  collapsed (GRAY s0 s1 s2 s3 s4 s5 s6 s7) = true ↔
  uniform (GRAY s0 s1 s2 s3 s4 s5 s6 s7) = false
  ∧ children_all collapsed (GRAY s0 s1 s2 s3 s4 s5 s6 s7) = true.
Proof.
  cbn [collapsed children_all]. rewrite !andb_true_iff, negb_true_iff. tauto.
Qed.

(** [set] keeps a collapsed tree collapsed. *)
Lemma Node_set_collapsed fuel : ∀ nodeSize pos value n n',
  collapsed n = true →
  Node_set fuel nodeSize pos value n = Some n' → collapsed n' = true.
Proof.
  induction fuel as [|fuel IH]; intros nodeSize pos value n n' Hn Hset; [done|].
  assert (Hgray : ∀ s0 s1 s2 s3 s4 s5 s6 s7,
    children_all collapsed (GRAY s0 s1 s2 s3 s4 s5 s6 s7) = true →
    Node_set (S fuel) nodeSize pos value (GRAY s0 s1 s2 s3 s4 s5 s6 s7)
      = Some n' → collapsed n' = true).
  { intros s0 s1 s2 s3 s4 s5 s6 s7 Hall Hs.
    pose proof (Node_set_not_uniform _ _ _ _ _ _ Hs) as Hu.
    rewrite Node_set_gray in Hs.
    destruct (Node_set fuel _ _ _ _) as [c|] eqn:Hrec; [|done].
    simpl in Hs. injection Hs as <-.
    apply IH in Hrec; [|by apply children_all_subnode].
    destruct (collapse value _) as [w|t0 t1 t2 t3 t4 t5 t6 t7] eqn:Hc; [done|].
    apply collapse_gray_inv in Hc.
    apply collapsed_gray. split; [done|].
    rewrite <-Hc. by apply children_all_with_subnode. }
  destruct n as [old|s0 s1 s2 s3 s4 s5 s6 s7].
  - rewrite Node_set_solid in Hset.
    destruct (decide (old = value)); [by injection Hset as <-|].
    destruct (decide (nodeSize = 1)); [by injection Hset as <-|].
    by apply Hgray in Hset.
  - apply collapsed_gray in Hn as [_ Hall]. by apply Hgray in Hset.
Qed.

(** *** Reading after writing *)

Lemma pow2_shiftr (k : nat) : 2 ^ Z.of_nat (S k) ≫ 1 = 2 ^ Z.of_nat k.
Proof.
  rewrite Z.shiftr_div_pow2 by lia.
  rewrite Nat2Z.inj_succ, Z.pow_succ_r by lia.
  change (2 ^ 1) with 2. rewrite Z.mul_comm, Z.div_mul; lia.
Qed.

Lemma pow2_pos (k : nat) : 0 < 2 ^ Z.of_nat k.
Proof. apply Z.pow_pos_nonneg; lia. Qed.

Lemma pow2_succ (k : nat) : 2 ^ Z.of_nat (S k) = 2 * 2 ^ Z.of_nat k.
Proof. rewrite Nat2Z.inj_succ, Z.pow_succ_r; lia. Qed.

Lemma in_cube_toOctant (k : nat) pos :
  in_cube (2 ^ Z.of_nat (S k)) pos →
  in_cube (2 ^ Z.of_nat k)
    (toOctant (findOctant (2 ^ Z.of_nat (S k)) pos) (2 ^ Z.of_nat (S k)) pos).
Proof.
  rewrite findOctant_oct, toOctant_oct, pow2_shiftr, pow2_succ.
  unfold in_cube. simpl.
  destruct (Z.geb_spec (pos_x pos) (2 ^ Z.of_nat k)),
           (Z.geb_spec (pos_y pos) (2 ^ Z.of_nat k)),
           (Z.geb_spec (pos_z pos) (2 ^ Z.of_nat k)); lia.
Qed.

(** Two positions of one node are equal exactly when they lie in the
    same octant at the same child-local position. *)
Lemma toOctant_inj nodeSize pos q :
  findOctant nodeSize pos = findOctant nodeSize q →
  toOctant (findOctant nodeSize pos) nodeSize pos
  = toOctant (findOctant nodeSize q) nodeSize q →
  pos = q.
Proof.
  rewrite !findOctant_oct, !toOctant_oct.
  intros (Hx & Hy & Hz)%oct_inj. rewrite <-Hx, <-Hy, <-Hz.
  destruct pos as [x y z], q as [x' y' z']; simpl in *.
  intros [= Ex Ey Ez]. f_equal.
  - destruct (x >=? _); lia.
  - destruct (y >=? _); lia.
  - destruct (z >=? _); lia.
Qed.

Lemma fits_gray k s0 s1 s2 s3 s4 s5 s6 s7 :
  fits (S k) (GRAY s0 s1 s2 s3 s4 s5 s6 s7)
  = children_all (fits k) (GRAY s0 s1 s2 s3 s4 s5 s6 s7).
Proof. reflexivity. Qed.

Lemma fits_collapse k value n : fits k n = true → fits k (collapse value n) = true.
Proof.
  intros Hn. destruct (collapse value n) as [w|t0 t1 t2 t3 t4 t5 t6 t7] eqn:Hc;
    [done|].
  by apply collapse_gray_inv in Hc as ->.
Qed.

(** [set] on a node of edge [2^k] succeeds within [k+1] calls, and a
    later [get] sees the new value at [pos] and the old values
    elsewhere. *)
Lemma Node_set_spec (k : nat) : ∀ fuel n pos value,
  (k < fuel)%nat → fits k n = true → in_cube (2 ^ Z.of_nat k) pos →
  ∃ n', Node_set fuel (2 ^ Z.of_nat k) pos value n = Some n'
      ∧ fits k n' = true
      ∧ ∀ q, in_cube (2 ^ Z.of_nat k) q →
          Node_get (2 ^ Z.of_nat k) q n'
          = if decide (q = pos) then value
            else Node_get (2 ^ Z.of_nat k) q n.
Proof.
  induction k as [|k IH]; intros fuel n pos value Hfuel Hfits Hpos;
    (destruct fuel as [|fuel]; [lia|]).
  - destruct n as [old| ]; [|done].
    rewrite Node_set_solid.
    destruct (decide (old = value)) as [->|Hne].
    { eexists; split_and!; [done..|]. intros q _. by destruct (decide _). }
    rewrite decide_True by done.
    eexists; split_and!; [done..|]. intros q Hq.
    rewrite decide_True; [done|].
    destruct q, pos; unfold in_cube in *; simpl in *. f_equal; lia.
  - assert (Hgray : ∀ s0 s1 s2 s3 s4 s5 s6 s7,
      children_all (fits k) (GRAY s0 s1 s2 s3 s4 s5 s6 s7) = true →
      ∃ n', Node_set (S fuel) (2 ^ Z.of_nat (S k)) pos value
              (GRAY s0 s1 s2 s3 s4 s5 s6 s7) = Some n'
        ∧ fits (S k) n' = true
        ∧ ∀ q, in_cube (2 ^ Z.of_nat (S k)) q →
            Node_get (2 ^ Z.of_nat (S k)) q n'
            = if decide (q = pos) then value
              else Node_get (2 ^ Z.of_nat (S k)) q
                     (GRAY s0 s1 s2 s3 s4 s5 s6 s7)).
    { intros s0 s1 s2 s3 s4 s5 s6 s7 Hall.
      rewrite Node_set_gray, pow2_shiftr.
      pose proof (pow2_shiftr k) as Hsh.
      set (N := 2 ^ Z.of_nat (S k)) in *.
      set (o := findOctant N pos).
      assert (Ho : 0 ≤ o < 8) by apply findOctant_range.
      destruct (IH fuel (subnode o s0 s1 s2 s3 s4 s5 s6 s7)
                  (toOctant o N pos) value) as (c & -> & Hc & Hget);
        [lia|by apply children_all_subnode|by apply in_cube_toOctant|].
      simpl. eexists; split_and!; [done| |].
      { apply fits_collapse. destruct (with_subnode_gray o c
          s0 s1 s2 s3 s4 s5 s6 s7) as (?&?&?&?&?&?&?&?&Heq).
        rewrite Heq, fits_gray, <-Heq. by apply children_all_with_subnode. }
      intros q Hq. rewrite collapse_get.
      destruct (with_subnode_gray o c s0 s1 s2 s3 s4 s5 s6 s7)
        as (t0&t1&t2&t3&t4&t5&t6&t7&Heq).
      rewrite Heq, !Node_get_gray, Hsh.
      change (subnode (findOctant N q) t0 t1 t2 t3 t4 t5 t6 t7)
        with (child (findOctant N q) (GRAY t0 t1 t2 t3 t4 t5 t6 t7)).
      rewrite <-Heq.
      destruct (decide (findOctant N q = o)) as [Hoq|Hoq].
      - rewrite Hoq, child_with_subnode_eq by done.
        rewrite Hget by (rewrite <-Hoq; by apply in_cube_toOctant).
        destruct (decide (q = pos)) as [->|Hne]; [by rewrite decide_True|].
        rewrite decide_False; [done|].
        intros Heq'. apply Hne. apply (toOctant_inj N); [done|].
        by rewrite Hoq.
      - rewrite child_with_subnode_ne
          by (done || apply findOctant_range).
        rewrite decide_False; [done|]. by intros ->. }
    destruct n as [old|s0 s1 s2 s3 s4 s5 s6 s7]; [|by apply Hgray].
    rewrite Node_set_solid.
    destruct (decide (old = value)) as [->|Hne].
    { eexists; split_and!; [done..|]. intros q _. by destruct (decide _). }
    rewrite decide_False.
    2:{ pose proof (pow2_pos k). rewrite pow2_succ. lia. }
    destruct (Hgray (SOLID old) (SOLID old) (SOLID old) (SOLID old)
                (SOLID old) (SOLID old) (SOLID old) (SOLID old) eq_refl)
      as (n' & -> & Hn' & Hget).
    eexists; split_and!; [done..|]. intros q Hq. rewrite Hget by done.
    by rewrite Node_get_gray, subnode_same.
Qed.

(** *** The volume *)

Implicit Types (v : Volume_t V).

Lemma Volume_well_formed sizeX sizeY sizeZ (initValue : V) :
  well_formed (Volume sizeX sizeY sizeZ initValue).
Proof.
  unfold well_formed, Volume. simpl.
  set (m := Z.max sizeX (Z.max sizeY sizeZ)).
  destruct (Z.ltb_spec 0 m) as [Hm|Hm]; [right|by left].
  exists (Z.to_nat (Z.log2_up m)).
  pose proof (Z.log2_up_nonneg m).
  rewrite Z2Nat.id by done. split_and!; [done..|].
  destruct (decide (m = 1)) as [->|]; [done|].
  apply Z.log2_up_spec. lia.
Qed.

Lemma depth_bound_pow2 (k : nat) : depth_bound (2 ^ Z.of_nat k) = S k.
Proof.
  unfold depth_bound. rewrite Z.log2_pow2 by lia. by rewrite Nat2Z.id.
Qed.

(** [set] on a well-formed volume succeeds; afterwards [get] returns the
    new value at an in-range [(i,j,k)] and the old value everywhere
    else. *)
Lemma Volume_set_spec v i j k value :
  well_formed v →
  ∃ v', Volume_set v i j k value = Some v'
      ∧ well_formed v'
      ∧ vol_sizeX v' = vol_sizeX v ∧ vol_sizeY v' = vol_sizeY v
      ∧ vol_sizeZ v' = vol_sizeZ v ∧ vol_initValue v' = vol_initValue v
      ∧ ∀ i' j' k',
          Volume_get v' i' j' k'
          = if negb (out_of_range (vol_sizeX v) (vol_sizeY v) (vol_sizeZ v)
                       i j k)
               && bool_decide (Position i' j' k' = Position i j k)
            then value else Volume_get v i' j' k'.
Proof.
  intros Hwf. unfold Volume_set.
  destruct (out_of_range _ _ _ i j k) eqn:Hr.
  { exists v. by split_and!. }
  apply out_of_range_false in Hr.
  destruct Hwf as [Hwf|(d & Hsize & Hfits & Hmax)]; [lia|].
  rewrite Hsize, depth_bound_pow2.
  destruct (Node_set_spec d (S d) (root v) (Position i j k) value)
    as (r & -> & Hr' & Hget); [lia|done|unfold in_cube; simpl; lia|].
  simpl. eexists; split_and!; [done| |done..|].
  { right. exists d. simpl. split_and!; [done..|by rewrite <-Hsize]. }
  intros i' j' k'. unfold Volume_get. simpl.
  destruct (out_of_range _ _ _ i' j' k') eqn:Hr2.
  { rewrite bool_decide_eq_false_2; [done|].
    intros [= -> -> ->]. apply out_of_range_true in Hr2. lia. }
  apply out_of_range_false in Hr2.
  rewrite Hsize, Hget by (unfold in_cube; simpl; lia).
  by destruct (decide _); [rewrite bool_decide_eq_true_2
                          |rewrite bool_decide_eq_false_2].
Qed.

Lemma Volume_set_collapsed v v' i j k value :
  collapsed (root v) = true → Volume_set v i j k value = Some v' →
  collapsed (root v') = true.
Proof.
  unfold Volume_set. destruct (out_of_range _ _ _ _ _ _); [by intros ? [= <-]|].
  intros Hc. destruct (Node_set _ _ _ _ _) as [r|] eqn:Hset; [|done].
  simpl. intros [= <-]. simpl. by eapply Node_set_collapsed.
Qed.

End OctreeFacts.
End OctreeFacts.

Module ArrayFacts.
Import FlatArray.
Section ArrayFacts.
Context {V : Type}.
Implicit Types (a : VolumeArray V).

Lemma Array_well_formed sizeX sizeY sizeZ (initValue : V) :
  well_formed (Array sizeX sizeY sizeZ initValue).
Proof. unfold well_formed, Array. simpl. by rewrite length_replicate. Qed.

Lemma flat_index_bound sx sy sz i j k :
  0 ≤ i < sx → 0 ≤ j < sy → 0 ≤ k < sz →
  0 ≤ k + j * sz + i * sz * sy < sx * sy * sz.
Proof.
  intros Hi Hj Hk.
  assert (0 ≤ j * sz ≤ (sy - 1) * sz) by nia.
  assert (0 < sz * sy) by nia.
  assert (0 ≤ i * (sz * sy) ≤ (sx - 1) * (sz * sy)) by nia.
  nia.
Qed.

Lemma flat_index_inj sx sy sz i j k i' j' k' :
  0 ≤ i < sx → 0 ≤ j < sy → 0 ≤ k < sz →
  0 ≤ i' < sx → 0 ≤ j' < sy → 0 ≤ k' < sz →
  k + j * sz + i * sz * sy = k' + j' * sz + i' * sz * sy →
  i = i' ∧ j = j' ∧ k = k'.
Proof.
  intros Hi Hj Hk Hi' Hj' Hk' Heq.
  assert (Hrow : (j + i * sy) - (j' + i' * sy) = 0).
  { assert (((j + i * sy) - (j' + i' * sy)) * sz = k' - k) by lia. nia. }
  assert (k = k') by nia.
  assert (Hcol : i - i' = 0).
  { assert ((i - i') * sy = j' - j) by lia. nia. }
  lia.
Qed.

Lemma index_lt a i j k :
  well_formed a →
  out_of_range (arr_sizeX a) (arr_sizeY a) (arr_sizeZ a) i j k = false →
  (index a i j k < length (data a))%nat.
Proof.
  intros -> (Hi & Hj & Hk)%out_of_range_false. unfold index.
  pose proof (flat_index_bound _ _ _ _ _ _ Hi Hj Hk).
  apply Z2Nat.inj_lt; lia.
Qed.

Lemma index_inj a i j k i' j' k' :
  out_of_range (arr_sizeX a) (arr_sizeY a) (arr_sizeZ a) i j k = false →
  out_of_range (arr_sizeX a) (arr_sizeY a) (arr_sizeZ a) i' j' k' = false →
  index a i j k = index a i' j' k' → Position i j k = Position i' j' k'.
Proof.
  intros (Hi & Hj & Hk)%out_of_range_false (Hi' & Hj' & Hk')%out_of_range_false.
  unfold index.
  pose proof (flat_index_bound _ _ _ _ _ _ Hi Hj Hk).
  pose proof (flat_index_bound _ _ _ _ _ _ Hi' Hj' Hk').
  intros Hidx%Z2Nat.inj; [|lia..].
  destruct (flat_index_inj _ _ _ _ _ _ _ _ _ Hi Hj Hk Hi' Hj' Hk' Hidx)
    as (-> & -> & ->). done.
Qed.

Lemma VolumeArray_set_spec a i j k value :
  well_formed a →
  let a' := VolumeArray_set a i j k value in
  well_formed a'
  ∧ arr_sizeX a' = arr_sizeX a ∧ arr_sizeY a' = arr_sizeY a
  ∧ arr_sizeZ a' = arr_sizeZ a ∧ arr_initValue a' = arr_initValue a
  ∧ ∀ i' j' k',
      VolumeArray_get a' i' j' k'
      = if negb (out_of_range (arr_sizeX a) (arr_sizeY a) (arr_sizeZ a)
                   i j k)
           && bool_decide (Position i' j' k' = Position i j k)
        then value else VolumeArray_get a i' j' k'.
Proof.
  intros Hwf. unfold VolumeArray_set.
  destruct (out_of_range _ _ _ i j k) eqn:Hr; simpl; [by split_and!|].
  split_and!; [|done..|].
  { unfold well_formed in *. simpl. by rewrite length_insert. }
  intros i' j' k'. unfold VolumeArray_get. simpl.
  destruct (out_of_range _ _ _ i' j' k') eqn:Hr2.
  { rewrite bool_decide_eq_false_2; [done|].
    intros [= -> -> ->]. congruence. }
  change (index {| arr_sizeX := arr_sizeX a; arr_sizeY := arr_sizeY a;
                   arr_sizeZ := arr_sizeZ a;
                   arr_initValue := arr_initValue a;
                   data := <[index a i j k:=value]> (data a) |} i' j' k')
    with (index a i' j' k').
  destruct (decide (Position i' j' k' = Position i j k)) as [Heq|Hne].
  - rewrite bool_decide_eq_true_2 by done. injection Heq as -> -> ->.
    rewrite list_lookup_insert_eq; [done|by apply index_lt].
  - rewrite bool_decide_eq_false_2 by done.
    rewrite list_lookup_insert_ne; [done|].
    intros Hidx. apply Hne. symmetry. by eapply index_inj.
Qed.

End ArrayFacts.
End ArrayFacts.

(** Both containers meet [ContainerSpec]. *)

#[global] Instance Volume_t_ContainerSpec {V : Type} `{EqDecision V}
    : ContainerSpec V (Octree.Volume_t V).
Proof.
  refine {| valid := Octree.well_formed; initial := Octree.vol_initValue |}.
  - apply OctreeFacts.Volume_well_formed.
  - done.
  - done.
  - done.
  - intros sx sy sz v i j k. simpl. unfold Octree.Volume_get. simpl.
    by destruct (out_of_range _ _ _ _ _ _).
  - intros c i j k Hout. simpl in *. unfold Octree.Volume_get. by rewrite Hout.
  - intros c i j k v Hc. apply OctreeFacts.Volume_set_spec, Hc.
Defined.

#[global] Instance VolumeArray_ContainerSpec {V : Type}
    : ContainerSpec V (FlatArray.VolumeArray V).
Proof.
  refine {| valid := FlatArray.well_formed;
            initial := FlatArray.arr_initValue |}.
  - apply ArrayFacts.Array_well_formed.
  - done.
  - done.
  - done.
  - intros sx sy sz v i j k. simpl. unfold FlatArray.VolumeArray_get. simpl.
    destruct (out_of_range _ _ _ _ _ _); [done|].
    destruct (_ !! _) as [x|] eqn:Hl; [|done].
    by apply lookup_replicate in Hl as [-> _].
  - intros c i j k Hout. simpl in *. unfold FlatArray.VolumeArray_get.
    by rewrite Hout.
  - intros c i j k v Hc. simpl.
    destruct (ArrayFacts.VolumeArray_set_spec c i j k v Hc)
      as (? & ? & ? & ? & ? & ?).
    eexists. by split_and!.
Defined.

(** * The two containers agree *)

Section Equivalence.
Context {V : Type} `{EqDecision V}.
Import Octree FlatArray.

(** A run of [set] calls on a well-formed octree succeeds and keeps the
    tree well formed and collapsed. *)
Lemma set_all_octree (ops : list (Position_s * V)) : ∀ o : Volume_t V,
  Octree.well_formed o →
  ∃ o', set_all ops o = Some o' ∧ Octree.well_formed o'
      ∧ vol_sizeX o' = vol_sizeX o ∧ vol_sizeY o' = vol_sizeY o
      ∧ vol_sizeZ o' = vol_sizeZ o ∧ vol_initValue o' = vol_initValue o
      ∧ (collapsed (root o) = true → collapsed (root o') = true).
Proof.
  induction ops as [|[p x] ops IH]; intros o Hwf.
  { exists o. by split_and!. }
  destruct (OctreeFacts.Volume_set_spec o (pos_x p) (pos_y p) (pos_z p) x Hwf)
    as (o1 & Hset & Hwf1 & Hx & Hy & Hz & Hi & _).
  destruct (IH o1 Hwf1) as (o' & Hrun & Hwf' & Hx' & Hy' & Hz' & Hi' & Hc).
  exists o'. unfold set_all in *. cbn [for_each]. simpl in *.
  rewrite Hset. simpl. split_and!; [done|done|congruence..|].
  intros Hco. apply Hc. by eapply OctreeFacts.Volume_set_collapsed.
Qed.

(** After the same run of [set] calls both containers answer every
    [get] alike. *)
Lemma set_all_in_step (ops : list (Position_s * V)) :
  ∀ (o : Volume_t V) (a : VolumeArray V),
  Octree.well_formed o → FlatArray.well_formed a →
  vol_sizeX o = arr_sizeX a → vol_sizeY o = arr_sizeY a →
  vol_sizeZ o = arr_sizeZ a →
  (∀ i j k, Volume_get o i j k = VolumeArray_get a i j k) →
  ∃ o' a',
    set_all ops o = Some o' ∧ set_all ops a = Some a'
    ∧ arr_sizeX a' = arr_sizeX a ∧ arr_sizeY a' = arr_sizeY a
    ∧ arr_sizeZ a' = arr_sizeZ a ∧ arr_initValue a' = arr_initValue a
    ∧ ∀ i j k, Volume_get o' i j k = VolumeArray_get a' i j k.
Proof.
  induction ops as [|[p x] ops IH]; intros o a Hwo Hwa Hx Hy Hz Hget.
  { exists o, a. by split_and!. }
  destruct (OctreeFacts.Volume_set_spec o (pos_x p) (pos_y p) (pos_z p) x Hwo)
    as (o1 & Hset & Hwo1 & Hx1 & Hy1 & Hz1 & Hi1 & Hget1).
  destruct (ArrayFacts.VolumeArray_set_spec a (pos_x p) (pos_y p) (pos_z p)
              x Hwa) as (Hwa1 & Hax & Hay & Haz & Hai & Hgeta).
  set (a1 := VolumeArray_set a (pos_x p) (pos_y p) (pos_z p) x) in *.
  destruct (IH o1 a1) as (o' & a' & Hro & Hra & Hx' & Hy' & Hz' & Hi' & Hg');
    [done|done|congruence..| |].
  { intros i j k. rewrite Hget1, Hgeta, Hx, Hy, Hz, Hget. done. }
  exists o', a'. unfold set_all in *. cbn [for_each]. simpl in *.
  rewrite Hset. simpl. fold a1. split_and!; [done|done|congruence..|done].
Qed.

End Equivalence.

(** Claim C1.  For every sequence of [set] operations applied identically
    to an octree [Volume_t] and to a [VolumeArray] constructed with the
    same sizes and the same [initValue], both runs complete and a
    subsequent [get(i,j,k)] returns the same value from both backends for
    every coordinate triple; for an out-of-range triple both return
    [initValue]. *)
Theorem octree_array_equivalence {V : Type} `{EqDecision V}
    (sizeX sizeY sizeZ : Z) (initValue : V) (ops : list (Position_s * V)) :
  ∃ (o : Octree.Volume_t V) (a : FlatArray.VolumeArray V),
    set_all ops (Octree.Volume sizeX sizeY sizeZ initValue) = Some o
    ∧ set_all ops (FlatArray.Array sizeX sizeY sizeZ initValue) = Some a
    ∧ ∀ i j k : Z,
        get o i j k = get a i j k
        ∧ (out_of_range sizeX sizeY sizeZ i j k = true →
           get o i j k = initValue ∧ get a i j k = initValue).
Proof.
  destruct (set_all_in_step ops (Octree.Volume sizeX sizeY sizeZ initValue)
              (FlatArray.Array sizeX sizeY sizeZ initValue))
    as (o & a & Ho & Ha & Hx & Hy & Hz & Hi & Hget);
    [apply OctreeFacts.Volume_well_formed|apply ArrayFacts.Array_well_formed
    |done..| |].
  { intros i j k. unfold Octree.Volume_get, FlatArray.VolumeArray_get. simpl.
    destruct (out_of_range _ _ _ _ _ _); [done|].
    destruct (_ !! _) as [x|] eqn:Hl; [|done].
    apply lookup_replicate in Hl as [-> _]. done. }
  exists o, a. split_and!; [done..|]. intros i j k. simpl.
  split; [apply Hget|].
  intros Hout. rewrite (Hget i j k).
  unfold FlatArray.VolumeArray_get. simpl in Hx, Hy, Hz, Hi.
  by rewrite Hx, Hy, Hz, Hout, Hi.
Qed.

(** Claim C2.  For every grid, octree or flat array, and every coordinate
    triple with [i<0], [i>=sizeX], [j<0], [j>=sizeY], [k<0] or
    [k>=sizeZ]: [get] returns [initValue]; [set] completes without an
    error and returns the grid as it was, so that every [get] answers as
    before. *)
Theorem out_of_range_get_set {V : Type} `{EqDecision V}
    (o : Octree.Volume_t V) (a : FlatArray.VolumeArray V)
    (i j k : Z) (value : V) :
  (i < 0 ∨ sizeX o ≤ i ∨ j < 0 ∨ sizeY o ≤ j ∨ k < 0 ∨ sizeZ o ≤ k) →
  (i < 0 ∨ sizeX a ≤ i ∨ j < 0 ∨ sizeY a ≤ j ∨ k < 0 ∨ sizeZ a ≤ k) →
  (get o i j k = Octree.vol_initValue o
   ∧ set o i j k value = Some o
   ∧ ∀ o', set o i j k value = Some o' →
       ∀ i' j' k', get o' i' j' k' = get o i' j' k')
  ∧ (get a i j k = FlatArray.arr_initValue a
     ∧ set a i j k value = Some a
     ∧ ∀ a', set a i j k value = Some a' →
         ∀ i' j' k', get a' i' j' k' = get a i' j' k').
Proof.
  intros Ho%out_of_range_true Ha%out_of_range_true. simpl in *.
  unfold Octree.Volume_get, Octree.Volume_set,
    FlatArray.VolumeArray_get, FlatArray.VolumeArray_set.
  rewrite Ho, Ha. split_and!; try done; by intros ? [= <-].
Qed.

Lemma out_of_range_get_set_witness :
  let o := Octree.Volume 2 2 2 7 in
  let a := FlatArray.Array 2 2 2 7 in
  get o 2 0 0 = 7 ∧ set o 2 0 0 9 = Some o
  ∧ get a 2 0 0 = 7 ∧ set a 2 0 0 9 = Some a.
Proof.
  intros o a.
  destruct (out_of_range_get_set o a 2 0 0 9) as [(H1 & H2 & _) (H3 & H4 & _)];
    [simpl; lia|simpl; lia|].
  exact (conj H1 (conj H2 (conj H3 H4))).
Defined.

(** Claim C3.  In every [Volume_t] reached from the constructor by a
    sequence of [set] operations, every [set] of the sequence having
    completed, no GRAY node of the tree has 8 SOLID children with one
    common value. *)
Theorem collapse_invariant {V : Type} `{EqDecision V}
    (sizeX sizeY sizeZ : Z) (initValue : V) (ops : list (Position_s * V)) :
  ∃ o : Octree.Volume_t V,
    set_all ops (Octree.Volume sizeX sizeY sizeZ initValue) = Some o
    ∧ Octree.collapsed (Octree.root o) = true.
Proof.
  destruct (set_all_octree ops (Octree.Volume sizeX sizeY sizeZ initValue))
    as (o & Ho & _ & _ & _ & _ & _ & Hc);
    [apply OctreeFacts.Volume_well_formed|].
  exists o. split; [done|]. by apply Hc.
Qed.

(** The octree stores what it is given.  In every [Volume_t] reached from
    the constructor by a sequence of [set] operations, a further
    [set(i,j,k,value)] completes, and afterwards [get] returns [value] at
    [(i,j,k)], when that is in range, and what it returned before at
    every other coordinate triple. *)
Theorem set_then_get {V : Type} `{EqDecision V}
    (sizeX sizeY sizeZ : Z) (initValue : V) (ops : list (Position_s * V))
    (i j k : Z) (value : V) :
  ∃ o o' : Octree.Volume_t V,
    set_all ops (Octree.Volume sizeX sizeY sizeZ initValue) = Some o
    ∧ set o i j k value = Some o'
    ∧ ∀ i' j' k' : Z,
        get o' i' j' k'
        = if negb (out_of_range sizeX sizeY sizeZ i j k)
             && bool_decide (Position i' j' k' = Position i j k)
          then value else get o i' j' k'.
Proof.
  destruct (set_all_octree ops (Octree.Volume sizeX sizeY sizeZ initValue))
    as (o & Ho & Hwf & Hx & Hy & Hz & _);
    [apply OctreeFacts.Volume_well_formed|].
  destruct (OctreeFacts.Volume_set_spec o i j k value Hwf)
    as (o' & Hset & _ & _ & _ & _ & _ & Hget).
  exists o, o'. split_and!; [done..|].
  intros i' j' k'. simpl in Hx, Hy, Hz. rewrite <-Hx, <-Hy, <-Hz. apply Hget.
Qed.

(** * The georeferencing layer *)

Section Rounding.
Local Open Scope Q_scope.

Lemma inject_Z_succ n : inject_Z (n + 1) == inject_Z n + 1.
Proof. by rewrite inject_Z_plus. Qed.

Lemma inject_Z_pred n : inject_Z (n - 1) == inject_Z n - 1.
Proof. unfold Z.sub. rewrite inject_Z_plus. reflexivity. Qed.

(** [floor] and [ceil] as sandwiches. *)
Lemma Qfloor_bounds q : inject_Z (Qfloor q) <= q < inject_Z (Qfloor q) + 1.
Proof.
  split; [apply Qfloor_le|]. rewrite <-inject_Z_succ. apply Qlt_floor.
Qed.

Lemma Qceiling_bounds q : inject_Z (Qceiling q) - 1 < q <= inject_Z (Qceiling q).
Proof.
  split; [|apply Qle_ceiling]. rewrite <-inject_Z_pred. apply Qceiling_lt.
Qed.

Lemma inject_Z_lt_inv a b : inject_Z a < inject_Z b + 1 → (a ≤ b)%Z.
Proof.
  rewrite <-inject_Z_succ, <-Zlt_Qlt. lia.
Qed.

(** An integer between two rationals that are less than one apart from
    [q] is determined. *)
Lemma Qfloor_unique q (n : Z) : inject_Z n <= q < inject_Z n + 1 → Qfloor q = n.
Proof.
  intros [Hl Hu]. destruct (Qfloor_bounds q) as [Hl' Hu'].
  apply Z.le_antisymm; apply inject_Z_lt_inv; lra.
Qed.

Lemma Qceiling_unique q (n : Z) :
  inject_Z n - 1 < q <= inject_Z n → Qceiling q = n.
Proof.
  intros [Hl Hu]. destruct (Qceiling_bounds q) as [Hl' Hu'].
  apply Z.le_antisymm; apply inject_Z_lt_inv; lra.
Qed.

Lemma Qfloor_inject_Z n : Qfloor (inject_Z n) = n.
Proof. apply Qfloor_unique. lra. Qed.

Lemma Qceiling_inject_Z n : Qceiling (inject_Z n) = n.
Proof. apply Qceiling_unique. lra. Qed.

(** [round] is within one half of its argument. *)
Lemma c_round_near q :
  inject_Z (c_round q) - (1 # 2) <= q <= inject_Z (c_round q) + (1 # 2).
Proof.
  unfold c_round. destruct (Qle_bool 0 q) eqn:Hq.
  - destruct (Qfloor_bounds (q + (1 # 2))). lra.
  - destruct (Qceiling_bounds (q - (1 # 2))). lra.
Qed.

(** [round] of an integer is that integer. *)
Lemma c_round_inject_Z n : c_round (inject_Z n) = n.
Proof.
  unfold c_round. destruct (Qle_bool 0 (inject_Z n)).
  - apply Qfloor_unique. lra.
  - apply Qceiling_unique. lra.
Qed.

(** [round] maps the open interval [(-1/2, n - 1/2)] into [0 .. n-1]. *)
Lemma c_round_range q (n : Z) :
  - (1 # 2) < q < inject_Z n - (1 # 2) → (0 ≤ c_round q < n)%Z.
Proof.
  intros [Hl Hu]. unfold c_round. destruct (Qle_bool 0 q) eqn:Hq.
  - apply Qle_bool_iff in Hq.
    destruct (Qfloor_bounds (q + (1 # 2))) as [H1 H2].
    split.
    + apply inject_Z_lt_inv. change (inject_Z 0) with 0. lra.
    + rewrite Zlt_Qlt. lra.
  - assert (q < 0).
    { apply Qnot_le_lt. intros Hle%Qle_bool_iff. congruence. }
    rewrite (Qceiling_unique _ 0); [|change (inject_Z 0) with 0; lra].
    split; [done|]. rewrite Zlt_Qlt. change (inject_Z 0) with 0. lra.
Qed.

End Rounding.

Section Axis.
Local Open Scope Q_scope.

(** One axis of [geo2gridf] on a georeferenced volume: the fractional
    index of [p] is [(p - l) / vs - 1/2]. *)
Lemma axis_geo2gridf (l u vs p : Q) (n : Z) :
  0 < vs → u == l + inject_Z n * vs → ¬ inject_Z n == 0 →
  (p - l) / (u - l) * inject_Z n - (1 # 2) == (p - l) / vs - (1 # 2).
Proof.
  intros Hvs Hu Hn.
  assert (Hul : u - l == inject_Z n * vs) by lra.
  rewrite Hul. field. split; [lra|done].
Qed.

(** One axis of [grid2geo] on a georeferenced volume: the centre of the
    voxel [x]. *)
Lemma axis_grid2geo (l u vs x : Q) (n : Z) :
  u == l + inject_Z n * vs → ¬ inject_Z n == 0 →
  l + (x + (1 # 2)) / inject_Z n * (u - l) == l + (x + (1 # 2)) * vs.
Proof.
  intros Hu Hn.
  assert (Hul : u - l == inject_Z n * vs) by lra.
  rewrite Hul. field. done.
Qed.

Lemma axis_count_pos (l u vs : Q) (n : Z) :
  0 < vs → u == l + inject_Z n * vs → l < u → 0 < inject_Z n.
Proof.
  intros Hvs Hu Hlu.
  destruct (Qlt_le_dec 0 (inject_Z n)) as [|Hle]; [done|].
  exfalso. assert (inject_Z n * vs <= 0) by nra. lra.
Qed.

(** One axis of the round trip, for [p] strictly between the faces. *)
Lemma axis_round_trip (l u vs p : Q) (n : Z) :
  0 < vs → u == l + inject_Z n * vs → l < p < u →
  let idx := c_round ((p - l) / (u - l) * inject_Z n - (1 # 2)) in
  (0 ≤ idx < n)%Z
  ∧ Qabs (p - (l + (inject_Z idx + (1 # 2)) * vs)) <= vs / 2.
Proof.
  intros Hvs Hu [Hlp Hpu] idx.
  assert (Hn : 0 < inject_Z n) by (apply (axis_count_pos l u vs); lra).
  assert (Hx := axis_geo2gridf l u vs p n Hvs Hu ltac:(lra)).
  set (x := (p - l) / (u - l) * inject_Z n - (1 # 2)) in *.
  set (y := (p - l) / vs) in *.
  assert (Hy : y * vs == p - l) by (unfold y; field; lra).
  assert (0 < y < inject_Z n) as [Hy0 Hyn].
  { split.
    - destruct (Qlt_le_dec 0 y) as [|Hle]; [done|]. exfalso.
      assert (y * vs <= 0) by nra. lra.
    - destruct (Qlt_le_dec y (inject_Z n)) as [|Hle]; [done|]. exfalso.
      assert (inject_Z n * vs <= y * vs) by nra. lra. }
  split.
  - apply c_round_range. lra.
  - pose proof (c_round_near x) as [Hlo Hhi]. fold idx in Hlo, Hhi.
    apply Qabs_Qle_condition.
    assert (H1 : 0 <= (y - inject_Z idx) * vs)
      by (apply Qmult_le_0_compat; lra).
    assert (H2 : 0 <= (inject_Z idx + 1 - y) * vs)
      by (apply Qmult_le_0_compat; lra).
    assert (Hhalf : vs / 2 == vs * (1 # 2)) by (field; lra).
    rewrite Hhalf. split; lra.
Qed.

End Axis.

Section GeoFacts.
Context {V C : Type} `{ContainerSpec V C}.
Implicit Types (g : GeoVolume_t C) (p q : FPosition_s).

(** The constructor establishes the georeferencing invariant. *)
Lemma GeoVolume_georeferenced (lower upper : FPosition_s) (vs : Q) (v : V) :
  (0 < vs)%Q → georeferenced (GeoVolume lower upper vs v).
Proof. intros Hvs. unfold georeferenced, GeoVolume. simpl. by split_and!. Qed.

(** [set] keeps it. *)
Lemma GeoVolume_set_georeferenced g g' i j k (v : V) :
  valid (container_ g) → georeferenced g →
  GeoVolume_set g i j k v = Some g' → georeferenced g'.
Proof.
  intros Hv Hg. unfold GeoVolume_set.
  destruct (set_spec (container_ g) i j k v Hv)
    as (c' & -> & _ & Hx & Hy & Hz & _).
  simpl. intros [= <-]. unfold georeferenced in *. simpl.
  by rewrite Hx, Hy, Hz.
Qed.

Lemma round_switch_unknown (r : Z) (f : Q) :
  r < -1 ∨ 1 < r → round_switch r f = 0.
Proof.
  intros Hr. unfold round_switch.
  destruct r as [|r|r]; [lia|destruct r; (lia || done)..].
Qed.

(** Nearest rounding on a georeferenced volume: for [p] strictly inside
    the extents, [geo2grid] yields a voxel of the volume whose cell holds
    [p], and [grid2geo] yields that voxel's centre. *)
Lemma round_trip_georeferenced g p :
  georeferenced g → strictly_inside g p →
  let idx := geo2grid g p 0 0 0 in
  in_volume g idx
  ∧ fpos_eq (grid2geo g idx) (voxel_center g idx)
  ∧ in_voxel g idx p.
Proof.
  intros (Hvs & Hx & Hy & Hz) (Hpx & Hpy & Hpz) idx.
  destruct (axis_round_trip _ _ _ _ _ Hvs Hx Hpx) as [Hix Hcx].
  destruct (axis_round_trip _ _ _ _ _ Hvs Hy Hpy) as [Hiy Hcy].
  destruct (axis_round_trip _ _ _ _ _ Hvs Hz Hpz) as [Hiz Hcz].
  split_and!.
  - unfold in_volume, idx, geo2grid, geo2gridf; simpl. tauto.
  - unfold fpos_eq, grid2geo, grid2geo_f, voxel_center; simpl.
    split_and!; apply axis_grid2geo; try done.
    + assert (0 < inject_Z (sizeX (container_ g)))%Q
        by (apply (axis_count_pos _ _ _ _ Hvs Hx); lra). lra.
    + assert (0 < inject_Z (sizeY (container_ g)))%Q
        by (apply (axis_count_pos _ _ _ _ Hvs Hy); lra). lra.
    + assert (0 < inject_Z (sizeZ (container_ g)))%Q
        by (apply (axis_count_pos _ _ _ _ Hvs Hz); lra). lra.
  - unfold in_voxel, voxel_center, idx, geo2grid, geo2gridf; simpl.
    tauto.
Qed.

End GeoFacts.

(** Claim C4, amended.  For every [GeoVolume_t] constructed with corners
    [lower], [upper] and a positive [voxelSize], and every world point [p]
    strictly inside the corrected extents (on none of their faces),
    [geo2grid(p)] with nearest rounding is a voxel of the volume whose
    cell contains [p], and [grid2geo(geo2grid(p))] is the centre of that
    voxel, [lower + (index + 0.5) * voxelSize] on every axis. *)
Theorem round_trip_strictly_inside {V C : Type} `{ContainerSpec V C}
    (lower upper : FPosition_s) (voxelSize : Q) (initValue : V)
    (p : FPosition_s) :
  (0 < voxelSize)%Q →
  let g : GeoVolume_t C := GeoVolume lower upper voxelSize initValue in
  strictly_inside g p →
  let idx := geo2grid g p 0 0 0 in
  in_volume g idx
  ∧ fpos_eq (grid2geo g idx) (voxel_center g idx)
  ∧ in_voxel g idx p.
Proof.
  intros Hvs g Hp. apply round_trip_georeferenced; [|done].
  by apply GeoVolume_georeferenced.
Qed.

Lemma round_trip_strictly_inside_witness :
  let g : GeoVolume_t (Octree.Volume_t Qc) :=
    GeoVolume (FPosition 0 0 0) (FPosition 2 2 2) 1 0%Qc in
  let p := FPosition (1 # 3) 1 (7 # 4) in
  let idx := geo2grid g p 0 0 0 in
  in_volume g idx
  ∧ fpos_eq (grid2geo g idx) (voxel_center g idx)
  ∧ in_voxel g idx p.
Proof.
  apply (round_trip_strictly_inside (C := Octree.Volume_t Qc)
           (FPosition 0 0 0) (FPosition 2 2 2) 1 0%Qc
           (FPosition (1 # 3) 1 (7 # 4))).
  - reflexivity.
  - unfold strictly_inside. simpl. repeat split; reflexivity.
Defined.

(** Claim C4 as stated fails on the lower faces of the extents: the lower
    corner of a 2x2x2 volume lies inside the extents, but nearest
    rounding sends it to the index (-1,-1,-1), which is no voxel of the
    volume, and back to the point (-1/2,-1/2,-1/2), which is the centre
    of no voxel of the volume. *)
Lemma round_trip_fails_at_lower_corner :
  let g : GeoVolume_t (Octree.Volume_t Qc) :=
    GeoVolume (FPosition 0 0 0) (FPosition 2 2 2) 1 0%Qc in
  let p := FPosition 0 0 0 in
  inside g p
  ∧ geo2grid g p 0 0 0 = Position (-1) (-1) (-1)
  ∧ fpos_eq (grid2geo g (geo2grid g p 0 0 0))
            (FPosition (- (1 # 2)) (- (1 # 2)) (- (1 # 2)))
  ∧ ¬ ∃ idx, in_volume g idx
           ∧ fpos_eq (grid2geo g (geo2grid g p 0 0 0)) (voxel_center g idx).
Proof.
  intros g p. split_and!.
  - unfold inside. simpl. repeat split; discriminate.
  - reflexivity.
  - unfold fpos_eq. simpl. repeat split; reflexivity.
  - intros (idx & (Hx & _) & (Ex & _)).
    assert (Hres : (fpos_x (grid2geo g (geo2grid g p 0 0 0)) == - (1 # 2))%Q)
      by reflexivity.
    rewrite Hres in Ex. unfold voxel_center in Ex. simpl in Ex.
    destruct Hx as [Hx _]. rewrite Zle_Qle in Hx.
    change (inject_Z 0) with 0%Q in Hx. lra.
Qed.

(** Claim C10.  For every [GeoVolume_t], world position and rounding
    arguments: a rounding argument outside {-1, 0, 1} makes [geo2grid]
    return 0 for that axis's component, whatever the position. *)
Theorem geo2grid_unknown_rounding {V C : Type} `{Container V C}
    (g : GeoVolume_t C) (gpos : FPosition_s) (roundingX roundingY roundingZ : Z) :
  (roundingX < -1 ∨ 1 < roundingX →
   pos_x (geo2grid g gpos roundingX roundingY roundingZ) = 0)
  ∧ (roundingY < -1 ∨ 1 < roundingY →
     pos_y (geo2grid g gpos roundingX roundingY roundingZ) = 0)
  ∧ (roundingZ < -1 ∨ 1 < roundingZ →
     pos_z (geo2grid g gpos roundingX roundingY roundingZ) = 0).
Proof.
  unfold geo2grid. simpl. split_and!; apply round_switch_unknown.
Qed.

Lemma geo2grid_unknown_rounding_witness :
  let g : GeoVolume_t (Octree.Volume_t Qc) :=
    GeoVolume (FPosition 0 0 0) (FPosition 4 4 4) 1 0%Qc in
  geo2grid g (FPosition 3 3 3) 2 0 (-7) = Position 0 3 0.
Proof.
  intros g.
  destruct (geo2grid_unknown_rounding g (FPosition 3 3 3) 2 0 (-7))
    as (Hx & _ & Hz).
  specialize (Hx ltac:(lia)). specialize (Hz ltac:(lia)).
  destruct (geo2grid g (FPosition 3 3 3) 2 0 (-7)) as [x y z] eqn:E.
  simpl in Hx, Hz. subst x z. f_equal.
  apply (f_equal pos_y) in E. exact (eq_sym E).
Defined.

(** * The arithmetic of the machine *)

Section RoundingFacts.
Local Open Scope Q_scope.

Lemma pow2_pos_Q (e : Z) : 0 < 2 ^ e.
Proof. by apply Qpower_0_lt. Qed.

Lemma pow2_inject (n : Z) : (0 ≤ n)%Z → 2 ^ n == inject_Z (2 ^ n).
Proof. intros Hn. by rewrite Zpower_Qpower. Qed.

Lemma pow2_plus (a b : Z) : 2 ^ (a + b) == 2 ^ a * 2 ^ b.
Proof. by apply Qpower_plus. Qed.

Lemma pow2_minus (a b : Z) : 2 ^ (a - b) == 2 ^ a / 2 ^ b.
Proof. by apply Qpower_minus. Qed.

Lemma Qdiv_le_cross (a b n d : Q) :
  0 < b → 0 < d → a * d <= n * b → a / b <= n / d.
Proof.
  intros Hb Hd H. apply Qle_shift_div_r; [done|].
  assert (Heq : n / d * b == n * b / d) by (field; lra).
  rewrite Heq. by apply Qle_shift_div_l.
Qed.

Lemma Qabs_inject_Z (m : Z) : Qabs (inject_Z m) = inject_Z (Z.abs m).
Proof. reflexivity. Qed.

(** [round_even] of an integer is that integer. *)
Lemma round_even_Z (x : Q) (z : Z) : x == inject_Z z → round_even x = z.
Proof.
  intros Hx. unfold round_even.
  assert (Hf : Qfloor x = z) by (apply Qfloor_unique; lra).
  rewrite Hf.
  destruct (Qcompare_spec (x - inject_Z z) (1 # 2)); [lra|done|lra].
Qed.


(** [2 ^ ilog2 q] is at most [|q|]. *)
Lemma ilog2_le (q : Q) : ¬ q == 0 → 2 ^ ilog2 q <= Qabs q.
Proof.
  intros Hq. unfold ilog2.
  set (n := Z.abs (Qnum q)). set (d := Z.pos (Qden q)).
  destruct (Qle_bool _ _) eqn:Hb; [by apply Qle_bool_iff|].
  assert (Hn : (0 < n)%Z).
  { unfold n. destruct q as [[|p|p] dq]; simpl; try lia.
    destruct Hq. reflexivity. }
  destruct (Z.log2_spec n Hn) as [Hn1 _].
  destruct (Z.log2_spec d) as [_ Hd2]; [done|].
  pose proof (Z.log2_nonneg n) as Ha. pose proof (Z.log2_nonneg d) as Hb'.
  replace (Z.log2 n - Z.log2 d - 1)%Z with (Z.log2 n - Z.succ (Z.log2 d))%Z
    by lia.
  rewrite pow2_minus, !pow2_inject by lia.
  assert (Habs : Qabs q == inject_Z n / inject_Z d).
  { destruct q as [nq dq]. unfold n, d. simpl. apply Qmake_Qdiv. }
  rewrite Habs.
  assert (Hd0 : 0 < inject_Z d) by (by rewrite <-(Zlt_Qlt 0)).
  assert (Hp0 : 0 < inject_Z (2 ^ Z.succ (Z.log2 d))).
  { rewrite <-(Zlt_Qlt 0). lia. }
  apply Qdiv_le_cross; [done..|].
  rewrite <-!inject_Z_mult, <-Zle_Qle. nia.
Qed.

(** Rounding does not tell equal rationals apart. *)
Lemma to_prec_comp (prec emin : Z) (x y : Q) :
  x == y → to_prec prec emin x = to_prec prec emin y.
Proof. intros Hxy. unfold to_prec. by rewrite (Qred_complete x y Hxy). Qed.


(** A number with a significand of at most [prec] bits, the last of them
    of weight [2^emin] at least, is stored as it is. *)
Lemma to_prec_exact (prec emin : Z) (q : Q) (m k : Z) :
  (0 < prec)%Z → (emin ≤ k)%Z → q == inject_Z m * 2 ^ k →
  (Z.abs m < 2 ^ prec)%Z →
  to_prec prec emin q == q.
Proof.
  intros Hprec Hemin Hq Hm. unfold to_prec.
  pose proof (Qred_correct q) as Hred. set (q' := Qred q) in *.
  destruct (Qeq_bool q' 0) eqn:Hz.
  { apply Qeq_bool_iff in Hz. by rewrite <-Hred, Hz. }
  apply Qeq_bool_neq in Hz.
  pose proof (ilog2_le q' Hz) as Hlog. set (L := ilog2 q') in *.
  assert (Hq' : q' == inject_Z m * 2 ^ k) by (by rewrite Hred).
  pose proof (pow2_pos_Q k) as Hk.
  assert (Habs : Qabs q' == inject_Z (Z.abs m) * 2 ^ k).
  { rewrite Hq', Qabs_Qmult, (Qabs_pos (2 ^ k)) by lra.
    by rewrite Qabs_inject_Z. }
  assert (HL : (L < prec + k)%Z).
  { apply (Qpower_lt_compat_l_inv 2); [|done].
    eapply Qle_lt_trans; [exact Hlog|]. rewrite Habs, pow2_plus.
    apply Qmult_lt_compat_r; [done|].
    rewrite pow2_inject, <-Zlt_Qlt by lia. done. }
  set (e := (Z.max (L - (prec - 1)) emin)%Z).
  assert (He : (0 ≤ k - e)%Z) by (unfold e; lia).
  pose proof (pow2_pos_Q e) as He0.
  assert (Hx : q' / 2 ^ e == inject_Z (m * 2 ^ (k - e))).
  { rewrite Hq', inject_Z_mult, <-pow2_inject, pow2_minus by done.
    field. lra. }
  rewrite (round_even_Z _ _ Hx), <-Hred, Hq'.
  rewrite inject_Z_mult, <-pow2_inject, pow2_minus by done.
  field. lra.
Qed.



(** An integer below [2^24] is a [float]. *)
Lemma float_Z (m : Z) :
  (Z.abs m < 2 ^ 24)%Z → to_float (inject_Z m) == inject_Z m.
Proof.
  intros Hm. apply (to_prec_exact 24%Z _ _ m 0%Z); [done|done| |done].
  change (2 ^ 0) with 1. ring.
Qed.

(** A result equal to a number with a significand of at most [prec]
    bits is stored as that number. *)
Lemma stored (prec emin : Z) (x y : Q) (m k : Z) :
  (0 < prec)%Z → (emin ≤ k)%Z → x == y → y == inject_Z m * 2 ^ k →
  (Z.abs m < 2 ^ prec)%Z →
  to_prec prec emin x == y.
Proof.
  intros Hprec Hemin Hxy Hy Hm. rewrite (to_prec_comp _ _ x y Hxy).
  exact (to_prec_exact prec emin y m k Hprec Hemin Hy Hm).
Qed.

Lemma stored_half (prec emin : Z) (x y : Q) (m : Z) :
  (0 < prec)%Z → (emin ≤ -1)%Z → x == y → y == inject_Z m * (1 # 2) →
  (Z.abs m < 2 ^ prec)%Z →
  to_prec prec emin x == y.
Proof. apply (stored prec emin x y m (-1)). Qed.

(** The quotient [toss] of [gend] is stored exactly when it is a half of
    an integer below [2^24]. *)
Lemma toss_exact (b b' : Q) (d m : Z) :
  b' == b → b / inject_Z d == inject_Z m * (1 # 2) → (Z.abs m < 2 ^ 24)%Z →
  to_float (to_double (b' / inject_Z d)) == b / inject_Z d.
Proof.
  intros Hb Hm Hlt.
  apply (stored_half 24 (-149) _ _ m); [done|done| |done|done].
  apply (stored_half 53 (-1074) _ _ m); [done|done| |done|lia].
  by rewrite Hb.
Qed.

Lemma clip_float_exact (u u' bound bound' : Q) (d : Z) :
  u' == u →
  to_float (to_double (bound' / inject_Z d)) == bound / inject_Z d →
  clip_float u' bound' d == clip u bound d.
Proof.
  intros Hu Ht. unfold clip_float, clip.
  destruct (Qlt_le_dec _ _), (Qlt_le_dec _ _); lra.
Qed.

(** The bounds of [gend], computed in [double], are exact. *)
Lemma far_exact (size p : Z) :
  (Z.abs (2 * size + 1) < 2 ^ 53)%Z →
  (Z.abs (2 * (size - p) + 1) < 2 ^ 53)%Z →
  to_double (to_double (inject_Z size + (1 # 2)) - inject_Z p)
  == inject_Z size + (1 # 2) - inject_Z p.
Proof.
  intros Hs Hsp.
  apply (stored_half 53 (-1074) _ _ (2 * (size - p) + 1));
    [done|done| | |done].
  - apply Qplus_comp; [|reflexivity].
    apply (stored_half 53 (-1074) _ _ (2 * size + 1));
      [done|done|reflexivity| |done].
    rewrite inject_Z_plus, inject_Z_mult.
    change (inject_Z 2) with 2. change (inject_Z 1) with 1. ring.
  - unfold Z.sub. rewrite !inject_Z_plus, !inject_Z_mult, inject_Z_plus,
      inject_Z_opp.
    change (inject_Z 2) with 2. change (inject_Z 1) with 1. ring.
Qed.

Lemma near_exact (p : Z) :
  (Z.abs (2 * p + 3) < 2 ^ 53)%Z →
  to_double (- (3 # 2) - inject_Z p) == - (3 # 2) - inject_Z p.
Proof.
  intros Hp.
  apply (stored_half 53 (-1074) _ _ (- (2 * p + 3)));
    [done|done|reflexivity| |lia].
  rewrite inject_Z_opp, inject_Z_plus, inject_Z_mult.
  change (inject_Z 2) with 2. change (inject_Z 3) with 3. field.
Qed.

End RoundingFacts.

(** ** The end marker below [2^23] *)

Section EndMarker.
Context {V C : Type} `{Container V C}.

Ltac same_floor :=
  match goal with
  | |- Giterator (Position (_ + Qfloor ?a * _) _ _) _
       = Giterator (Position (_ + Qfloor ?b * _) _ _) _ =>
      let Hfl := fresh in
      assert (Hfl : Qfloor a = Qfloor b); [apply Qfloor_comp|by rewrite Hfl]
  end.

Ltac half_of_integer :=
  unfold Z.sub;
  rewrite ?inject_Z_opp, ?inject_Z_plus, ?inject_Z_mult, ?inject_Z_plus,
    ?inject_Z_opp;
  change (inject_Z 2) with 2%Q; change (inject_Z 1) with 1%Q;
  change (inject_Z 3) with 3%Q; change (inject_Z (-1)) with (- (1))%Q;
  field.

(** For a unit displacement, extents below [2^23] and a start within
    the extent of its axis, [float] holds [u] and [toss] exactly: [gend]
    is [gend_exact]. *)
Lemma gend_is_exact (c : C) (s : Position_s) (d : Displacement_s) :
  unit_axis d →
  0 ≤ sizeX c < 2 ^ 23 → 0 ≤ sizeY c < 2 ^ 23 → 0 ≤ sizeZ c < 2 ^ 23 →
  (dif_x d ≠ 0 → 0 ≤ pos_x s ≤ sizeX c) →
  (dif_y d ≠ 0 → 0 ≤ pos_y s ≤ sizeY c) →
  (dif_z d ≠ 0 → 0 ≤ pos_z s ≤ sizeZ c) →
  (dif_x d < 0 → pos_x s < sizeX c) →
  (dif_y d < 0 → pos_y s < sizeY c) →
  (dif_z d < 0 → pos_z s < sizeZ c) →
  gend c (Giterator s d) = gend_exact c (Giterator s d).
Proof.
  intros Hd Hsx Hsy Hsz Hx Hy Hz Hx' Hy' Hz'.
  unfold unit_axis in Hd. rewrite !elem_of_cons, elem_of_nil in Hd.
  destruct s as [x y z].
  destruct Hd as [->|[->|[->|[->|[->|[->|[]]]]]]];
    cbn [dif_x dif_y dif_z pos_x pos_y pos_z] in *;
    unfold gend, gend_exact; cbv zeta;
    cbn [diff pos dif_x dif_y dif_z pos_x pos_y pos_z];
    change (0 <? 1) with true; change (1 <? 0) with false;
    change (0 <? 0) with false; change (0 <? -1) with false;
    change (-1 <? 0) with true; cbv iota; same_floor;
    (apply clip_float_exact; [apply float_Z; lia|]).
  - apply (toss_exact _ _ _ (2 * (sizeX c - x) + 1));
      [apply far_exact; lia|half_of_integer|lia].
  - apply (toss_exact _ _ _ (2 * x + 3));
      [apply near_exact; lia|half_of_integer|lia].
  - apply (toss_exact _ _ _ (2 * (sizeY c - y) + 1));
      [apply far_exact; lia|half_of_integer|lia].
  - apply (toss_exact _ _ _ (2 * y + 3));
      [apply near_exact; lia|half_of_integer|lia].
  - apply (toss_exact _ _ _ (2 * (sizeZ c - z) + 1));
      [apply far_exact; lia|half_of_integer|lia].
  - apply (toss_exact _ _ _ (2 * z + 3));
      [apply near_exact; lia|half_of_integer|lia].
Qed.

End EndMarker.

(** * The directional iterator *)

Ltac solve_clip :=
  first [ lia
        | rewrite ?inject_Z_pred;
          change (inject_Z 0) with 0%Q; change (inject_Z 1) with 1%Q;
          change (inject_Z (-1)) with (- (1))%Q; field ].

Section IteratorFacts.
Context {V C : Type} `{Container V C}.
Implicit Types (c : C) (d : Displacement_s) (s p : Position_s).

(** The clipping plane half a voxel past the last of [n] voxels stops
    the ray after [n] steps. *)
Lemma clip_half (m n : Z) (bound : Q) (d : Z) :
  n ≤ m → (bound / inject_Z d == inject_Z n + (1 # 2))%Q →
  Qfloor (clip (inject_Z m) bound d) = n.
Proof.
  intros Hnm Hb. unfold clip.
  destruct (Qlt_le_dec _ _) as [Hlt|Hle].
  - apply Qfloor_unique. lra.
  - assert (m ≤ n) by (apply inject_Z_lt_inv; lra).
    replace m with n by lia. apply Qfloor_inject_Z.
Qed.

(** The starting positions along [d], one family per nonzero component
    of [d]. *)
Lemma elem_of_iteratorPositions c d s :
  s ∈ iteratorPositions c d ↔
  (dif_x d ≠ 0 ∧ pos_x s = (if 0 <? dif_x d then 0 else sizeX c - 1)
   ∧ 0 ≤ pos_y s < sizeY c ∧ 0 ≤ pos_z s < sizeZ c)
  ∨ (dif_y d ≠ 0 ∧ pos_y s = (if 0 <? dif_y d then 0 else sizeY c - 1)
     ∧ 0 ≤ pos_x s < sizeX c ∧ 0 ≤ pos_z s < sizeZ c)
  ∨ (dif_z d ≠ 0 ∧ pos_z s = (if 0 <? dif_z d then 0 else sizeZ c - 1)
     ∧ 0 ≤ pos_x s < sizeX c ∧ 0 ≤ pos_y s < sizeY c).
Proof.
  unfold iteratorPositions. rewrite !elem_of_app.
  assert (Hfam : ∀ (m n : Z) (f : Z → Z → Position_s),
    s ∈ (i ← seqZ 0 m; j ← seqZ 0 n; [f i j])
    ↔ ∃ i j, 0 ≤ i < m ∧ 0 ≤ j < n ∧ s = f i j).
  { intros m n f. rewrite list_elem_of_bind. split.
    - intros (i & (j & Hs%list_elem_of_singleton & Hj%elem_of_seqZ)%list_elem_of_bind
                & Hi%elem_of_seqZ).
      exists i, j. split_and!; (lia || done).
    - intros (i & j & Hi & Hj & ->). exists i.
      rewrite list_elem_of_bind, elem_of_seqZ. split; [|lia].
      exists j. rewrite list_elem_of_singleton, elem_of_seqZ. split; [done|lia]. }
  assert (Hx : ∀ x0, s ∈ (i ← seqZ 0 (sizeY c); j ← seqZ 0 (sizeZ c);
                            [Position x0 i j])
    ↔ pos_x s = x0 ∧ 0 ≤ pos_y s < sizeY c ∧ 0 ≤ pos_z s < sizeZ c).
  { intros x0. rewrite Hfam. destruct s as [x y z]. simpl. split.
    - intros (i & j & Hi & Hj & [= -> -> ->]). done.
    - intros (-> & Hi & Hj). by exists y, z. }
  assert (Hy : ∀ y0, s ∈ (i ← seqZ 0 (sizeX c); j ← seqZ 0 (sizeZ c);
                            [Position i y0 j])
    ↔ pos_y s = y0 ∧ 0 ≤ pos_x s < sizeX c ∧ 0 ≤ pos_z s < sizeZ c).
  { intros y0. rewrite Hfam. destruct s as [x y z]. simpl. split.
    - intros (i & j & Hi & Hj & [= -> -> ->]). done.
    - intros (-> & Hi & Hj). by exists x, z. }
  assert (Hz : ∀ z0, s ∈ (i ← seqZ 0 (sizeX c); j ← seqZ 0 (sizeY c);
                            [Position i j z0])
    ↔ pos_z s = z0 ∧ 0 ≤ pos_x s < sizeX c ∧ 0 ≤ pos_y s < sizeY c).
  { intros z0. rewrite Hfam. destruct s as [x y z]. simpl. split.
    - intros (i & j & Hi & Hj & [= -> -> ->]). done.
    - intros (-> & Hi & Hj). by exists x, y. }
  repeat case_bool_decide; rewrite ?Hx, ?Hy, ?Hz, ?elem_of_nil; tauto.
Qed.

(** Where the exact end marker of an iterator started by
    [iteratorPositions] is. *)
Lemma gend_exact_start c d s :
  0 < sizeX c → 0 < sizeY c → 0 < sizeZ c →
  unit_axis d → s ∈ iteratorPositions c d →
  gend_exact c (Giterator s d)
  = Giterator (pos_add s (dif_scale d (extent_along c d))) d.
Proof.
  intros Hsx Hsy Hsz Hd Hs. apply elem_of_iteratorPositions in Hs.
  unfold unit_axis in Hd. rewrite !elem_of_cons, elem_of_nil in Hd.
  destruct s as [x y z].
  destruct Hd as [->|[->|[->|[->|[->|[->|[]]]]]]]; simpl in Hs;
    destruct Hs as [(? & -> & ? & ?)|[(? & -> & ? & ?)|(? & -> & ? & ?)]];
    try done.
  all: unfold gend_exact, extent_along; simpl.
  all: first
    [ rewrite (clip_half _ (sizeX c)) by (solve_clip)
    | rewrite (clip_half _ (sizeY c)) by (solve_clip)
    | rewrite (clip_half _ (sizeZ c)) by (solve_clip) ].
  all: unfold pos_add, dif_scale; simpl; do 2 f_equal; lia.
Qed.

(** With extents below [2^23] the end marker of an iterator started by
    [iteratorPositions] is the exact one. *)
Lemma gend_start_is_exact c d s :
  0 < sizeX c < 2 ^ 23 → 0 < sizeY c < 2 ^ 23 → 0 < sizeZ c < 2 ^ 23 →
  unit_axis d → s ∈ iteratorPositions c d →
  gend c (Giterator s d) = gend_exact c (Giterator s d).
Proof.
  intros Hsx Hsy Hsz Hd Hs. apply elem_of_iteratorPositions in Hs.
  apply gend_is_exact; [done|lia..| | | | | |].
  all: unfold unit_axis in Hd; rewrite !elem_of_cons, elem_of_nil in Hd.
  all: destruct Hd as [->|[->|[->|[->|[->|[->|[]]]]]]]; simpl in *; lia.
Qed.

(** Where an iterator started by [iteratorPositions] ends. *)
Lemma gend_start c d s :
  0 < sizeX c < 2 ^ 23 → 0 < sizeY c < 2 ^ 23 → 0 < sizeZ c < 2 ^ 23 →
  unit_axis d → s ∈ iteratorPositions c d →
  gend c (Giterator s d)
  = Giterator (pos_add s (dif_scale d (extent_along c d))) d.
Proof.
  intros Hsx Hsy Hsz Hd Hs. rewrite gend_start_is_exact by done.
  apply gend_exact_start; (lia || done).
Qed.

(** *** Sweeping a line *)

Lemma pos_add_0 s d : pos_add s (dif_scale d 0) = s.
Proof. destruct s. unfold pos_add, dif_scale. simpl. f_equal; lia. Qed.

Lemma pos_add_succ s d m :
  pos_add (pos_add s d) (dif_scale d m) = pos_add s (dif_scale d (1 + m)).
Proof. destruct s, d. unfold pos_add, dif_scale. simpl. f_equal; lia. Qed.

Lemma pos_add_inj s d m m' :
  d ≠ Displacement 0 0 0 →
  pos_add s (dif_scale d m) = pos_add s (dif_scale d m') → m = m'.
Proof.
  destruct s as [x y z], d as [dx dy dz]. unfold pos_add, dif_scale. simpl.
  intros Hd [= Hx Hy Hz].
  destruct (decide (m = m')) as [|Hne]; [done|]. exfalso. apply Hd.
  f_equal; nia.
Qed.

Lemma line_cons s d n :
  0 < n → line s d n = s :: line (pos_add s d) d (n - 1).
Proof.
  intros Hn. unfold line. rewrite seqZ_cons by lia. csimpl.
  rewrite pos_add_0. f_equal.
  rewrite <-(fmap_add_seqZ 1 0), <-list_fmap_compose.
  replace (Z.pred n) with (n - 1) by lia.
  apply list_fmap_ext. intros _ i _. simpl. by rewrite pos_add_succ.
Qed.

Lemma length_line s d n : length (line s d n) = Z.to_nat n.
Proof. unfold line. by rewrite length_fmap, length_seqZ. Qed.

Lemma elem_of_line s d n p :
  p ∈ line s d n ↔ ∃ i, 0 ≤ i < n ∧ p = pos_add s (dif_scale d i).
Proof.
  unfold line. rewrite list_elem_of_fmap. setoid_rewrite elem_of_seqZ.
  split.
  - intros (i & -> & Hi). exists i. split; [lia|done].
  - intros (i & Hi & ->). exists i. split; [done|lia].
Qed.

Lemma NoDup_line s d n : d ≠ Displacement 0 0 0 → NoDup (line s d n).
Proof.
  intros Hd. unfold line. apply NoDup_fmap_2_strong; [|apply NoDup_seqZ].
  intros i j _ _. by apply pos_add_inj.
Qed.

(** The loop [while ( it != end ) ++it] from [s] to [s + n d] visits the
    [n] positions of the line and stops. *)
Lemma sweep_until_line d : d ≠ Displacement 0 0 0 →
  ∀ (n : nat) (fuel : nat) s, (n < fuel)%nat →
  sweep_until fuel (Giterator s d)
    (Giterator (pos_add s (dif_scale d (Z.of_nat n))) d)
  = Some (line s d (Z.of_nat n)).
Proof.
  intros Hd. induction n as [|n IH]; intros fuel s Hfuel;
    (destruct fuel as [|fuel]; [lia|]); simpl.
  - unfold it_neq, it_eq. simpl.
    rewrite pos_add_0, bool_decide_eq_true_2 by done. done.
  - unfold it_neq, it_eq. simpl. rewrite bool_decide_eq_false_2.
    2:{ rewrite <-(pos_add_0 s d) at 1. intros Heq%pos_add_inj; [lia|done]. }
    simpl. unfold it_incr. simpl.
    replace (Z.of_nat (S n)) with (1 + Z.of_nat n) by lia.
    rewrite <-pos_add_succ, IH by lia. simpl.
    rewrite (line_cons s d (1 + Z.of_nat n)) by lia.
    do 3 f_equal. lia.
Qed.

Lemma unit_axis_nonzero d : unit_axis d → d ≠ Displacement 0 0 0.
Proof.
  unfold unit_axis. rewrite !elem_of_cons, elem_of_nil.
  intros [->|[->|[->|[->|[->|[->|[]]]]]]]; discriminate.
Qed.

Lemma sweep_start fuel c d s :
  0 < sizeX c < 2 ^ 23 → 0 < sizeY c < 2 ^ 23 → 0 < sizeZ c < 2 ^ 23 →
  unit_axis d → s ∈ iteratorPositions c d →
  (Z.to_nat (extent_along c d) < fuel)%nat →
  sweep fuel c s d = Some (line s d (extent_along c d)).
Proof.
  intros Hsx Hsy Hsz Hd Hs Hfuel. unfold sweep, gbegin.
  rewrite gend_start by done.
  assert (0 ≤ extent_along c d)
    by (unfold extent_along; repeat case_bool_decide; lia).
  rewrite <-(Z2Nat.id (extent_along c d)) by done.
  apply sweep_until_line; [by apply unit_axis_nonzero|done].
Qed.

(** *** All lines together *)

Lemma mapM_fmap_Some_all {A B} (f : A → option B) (g : A → B) (l : list A) :
  (∀ x, x ∈ l → f x = Some (g x)) → mapM f l = Some (g <$> l).
Proof.
  intros Hf. apply mapM_Some_2.
  induction l as [|x l IH]; csimpl; constructor.
  - apply Hf. left.
  - apply IH. intros y Hy. apply Hf. by right.
Qed.

Lemma NoDup_family (m n : Z) (f : Z → Z → Position_s) :
  (∀ i j i' j', f i j = f i' j' → i = i' ∧ j = j') →
  NoDup (i ← seqZ 0 m; j ← seqZ 0 n; [f i j]).
Proof.
  intros Hf. apply NoDup_bind; [| |apply NoDup_seqZ].
  - intros i i' p _ _.
    intros (j & ->%list_elem_of_singleton & _)%list_elem_of_bind.
    intros (j' & Hp%list_elem_of_singleton & _)%list_elem_of_bind.
    by apply Hf in Hp as [-> _].
  - intros i _. apply NoDup_bind; [| |apply NoDup_seqZ].
    + intros j j' p _ _ ->%list_elem_of_singleton Hp%list_elem_of_singleton.
      by apply Hf in Hp as [_ ->].
    + intros j _. apply NoDup_singleton.
Qed.

Lemma NoDup_iteratorPositions c d :
  unit_axis d → NoDup (iteratorPositions c d).
Proof.
  unfold unit_axis. rewrite !elem_of_cons, elem_of_nil.
  intros [->|[->|[->|[->|[->|[->|[]]]]]]]; unfold iteratorPositions; simpl;
    rewrite ?app_nil_r; apply NoDup_family; intros i j i' j' [= -> ->]; done.
Qed.

(** Two starting positions on one line are one position. *)
Lemma starts_on_distinct_lines c d a b :
  unit_axis d → a ∈ iteratorPositions c d → b ∈ iteratorPositions c d →
  same_line d a b → a = b.
Proof.
  intros Hd Ha%elem_of_iteratorPositions Hb%elem_of_iteratorPositions [m ->].
  unfold unit_axis in Hd. rewrite !elem_of_cons, elem_of_nil in Hd.
  destruct a as [x y z].
  destruct Hd as [->|[->|[->|[->|[->|[->|[]]]]]]]; simpl in *;
    unfold pos_add, dif_scale; simpl; f_equal; lia.
Qed.

(** The lines started by [iteratorPositions] hold exactly the voxels of
    the volume. *)
Lemma lines_cover c d p :
  0 < sizeX c → 0 < sizeY c → 0 < sizeZ c → unit_axis d →
  (∃ s, p ∈ line s d (extent_along c d) ∧ s ∈ iteratorPositions c d)
  ↔ out_of_range (sizeX c) (sizeY c) (sizeZ c)
      (pos_x p) (pos_y p) (pos_z p) = false.
Proof.
  intros Hsx Hsy Hsz Hd. rewrite out_of_range_false.
  setoid_rewrite elem_of_line. setoid_rewrite elem_of_iteratorPositions.
  unfold unit_axis in Hd. rewrite !elem_of_cons, elem_of_nil in Hd.
  destruct p as [x y z]. simpl.
  split.
  - intros ([sx sy sz] & (i & Hi & Hp) & Hs).
    unfold pos_add, dif_scale in Hp. simpl in Hp, Hs.
    injection Hp as -> -> ->.
    destruct Hd as [->|[->|[->|[->|[->|[->|[]]]]]]];
      unfold extent_along in Hi; simpl in *; lia.
  - intros (Hx & Hy & Hz).
    destruct Hd as [->|[->|[->|[->|[->|[->|[]]]]]]];
      unfold extent_along; simpl.
    + exists (Position 0 y z). split; [exists x|]; simpl;
        unfold pos_add, dif_scale; simpl;
        [split; [lia|f_equal; lia]|left; lia].
    + exists (Position (sizeX c - 1) y z).
      split; [exists (sizeX c - 1 - x)|]; simpl;
        unfold pos_add, dif_scale; simpl;
        [split; [lia|f_equal; lia]|left; lia].
    + exists (Position x 0 z). split; [exists y|]; simpl;
        unfold pos_add, dif_scale; simpl;
        [split; [lia|f_equal; lia]|right; left; lia].
    + exists (Position x (sizeY c - 1) z).
      split; [exists (sizeY c - 1 - y)|]; simpl;
        unfold pos_add, dif_scale; simpl;
        [split; [lia|f_equal; lia]|right; left; lia].
    + exists (Position x y 0). split; [exists z|]; simpl;
        unfold pos_add, dif_scale; simpl;
        [split; [lia|f_equal; lia]|right; right; lia].
    + exists (Position x y (sizeZ c - 1)).
      split; [exists (sizeZ c - 1 - z)|]; simpl;
        unfold pos_add, dif_scale; simpl;
        [split; [lia|f_equal; lia]|right; right; lia].
Qed.

End IteratorFacts.

Lemma mapM_singleton {A B} (f : A → option B) (x : A) :
  mapM f [x] = (λ y, [y]) <$> f x.
Proof. simpl. by destruct (f x). Qed.

(** Claim C5.  The claim is what the source documents ([iteratorPositions]:
    "iterators with such displacement cover the entire volume"), and the
    code does not do it on every volume: [gend] holds [u] and [toss] in
    [float].  On a volume of 16777217 x 1 x 1 voxels swept along
    (1,0,0), whose sizes are positive and whose only starting position is
    (0,0,0), [u] is 16777217 stored as 16777216 and [toss] is 16777217.5
    stored as 16777218, so that the end marker is (16777216,0,0): the
    sweep completes after 16777216 of the 16777217 voxels of the line
    and never visits the in-range voxel (16777216,0,0). *)
Theorem line_coverage_beyond_float :
  let c : Octree.Volume_t Z := Octree.Volume 16777217 1 1 0 in
  let d := Displacement 1 0 0 in
  let s := Position 0 0 0 in
  let last := Position 16777216 0 0 in
  unit_axis d ∧ 0 < sizeX c ∧ 0 < sizeY c ∧ 0 < sizeZ c
  ∧ extent_along c d = 16777217
  ∧ iteratorPositions c d = [s]
  ∧ gend c (Giterator s d) = Giterator last d
  ∧ out_of_range (sizeX c) (sizeY c) (sizeZ c)
      (pos_x last) (pos_y last) (pos_z last) = false
  ∧ ∀ extra : nat,
      sweep_lines (Z.to_nat 16777217 + extra) c d
      = Some [line s d 16777216]
      ∧ Z.of_nat (length (line s d 16777216)) = 16777216
      ∧ last ∉ line s d 16777216.
Proof.
  intros c d s last.
  assert (Hpos : iteratorPositions c d = [s]) by (by vm_compute).
  assert (Hend : gend c (Giterator s d) = Giterator last d)
    by (by vm_compute).
  split_and!; [|done..|].
  { unfold unit_axis. apply list_elem_of_here. }
  intros extra. split_and!.
  - unfold sweep_lines. rewrite Hpos, mapM_singleton.
    unfold sweep, gbegin. rewrite Hend.
    pose proof (sweep_until_line d (unit_axis_nonzero d
                  ltac:(unfold unit_axis; apply list_elem_of_here))
                  (Z.to_nat 16777216) (Z.to_nat 16777217 + extra) s
                  ltac:(lia)) as Hs.
    rewrite Z2Nat.id in Hs by lia.
    change (pos_add s (dif_scale d 16777216)) with last in Hs.
    by rewrite Hs.
  - rewrite length_line. lia.
  - intros (i & Hi & Hp)%elem_of_line.
    unfold last, s, d, pos_add, dif_scale in Hp. simpl in Hp.
    injection Hp as Hp. lia.
Qed.

(** Line coverage below [2^23].  For every container with positive
    [sizeX], [sizeY], [sizeZ] below [2^23] and every unit displacement
    along exactly one axis: two starting positions returned by
    [iteratorPositions] at different places of the list lie on different
    lines; and the sweeps [for ( it = start; it != gend( it ); ++it )] of
    all starting positions terminate, each visits exactly as many
    positions as the volume has voxels along the axis, and together they
    visit every in-range voxel exactly once and no other position. *)
Theorem line_coverage {V C : Type} `{Container V C}
    (c : C) (d : Displacement_s) :
  0 < sizeX c < 2 ^ 23 → 0 < sizeY c < 2 ^ 23 → 0 < sizeZ c < 2 ^ 23 →
  unit_axis d →
  (∀ (i j : nat) (a b : Position_s),
     iteratorPositions c d !! i = Some a →
     iteratorPositions c d !! j = Some b → same_line d a b → i = j)
  ∧ ∀ fuel : nat, (Z.to_nat (extent_along c d) < fuel)%nat →
      ∃ lines : list (list Position_s),
        sweep_lines fuel c d = Some lines
        ∧ Forall (λ l, length l = Z.to_nat (extent_along c d)) lines
        ∧ NoDup (mjoin lines)
        ∧ ∀ p, p ∈ mjoin lines
               ↔ out_of_range (sizeX c) (sizeY c) (sizeZ c)
                   (pos_x p) (pos_y p) (pos_z p) = false.
Proof.
  intros Hsx Hsy Hsz Hd. split.
  - intros i j a b Ha Hb Hab.
    assert (a = b) as <-.
    { apply (starts_on_distinct_lines c d); try done;
        by eapply list_elem_of_lookup_2. }
    by eapply NoDup_lookup; [apply NoDup_iteratorPositions|..].
  - intros fuel Hfuel.
    exists ((λ s, line s d (extent_along c d)) <$> iteratorPositions c d).
    split_and!.
    + unfold sweep_lines. apply mapM_fmap_Some_all.
      intros s Hs. by apply sweep_start.
    + apply Forall_fmap, Forall_forall. intros s _. simpl. apply length_line.
    + rewrite list_join_bind, list_fmap_bind.
      apply NoDup_bind; [| |by apply NoDup_iteratorPositions].
      * intros s1 s2 p Hs1 Hs2. simpl.
        intros (i1 & _ & ->)%elem_of_line (i2 & _ & Hp)%elem_of_line.
        symmetry. apply (starts_on_distinct_lines c d); try done.
        exists (i2 - i1). destruct s1, s2, d.
        unfold pos_add, dif_scale in *. simpl in *.
        injection Hp as Hx Hy Hz. f_equal; lia.
      * intros s _. simpl. apply NoDup_line. by apply unit_axis_nonzero.
    + intros p. rewrite <-lines_cover by (lia || done).
      rewrite list_join_bind, list_fmap_bind, list_elem_of_bind. done.
Qed.

Lemma line_coverage_witness :
  let c : Octree.Volume_t Z := Octree.Volume 3 2 2 0 in
  ∃ lines : list (list Position_s),
    sweep_lines 4 c (Displacement (-1) 0 0) = Some lines
    ∧ Forall (λ l, length l = 3%nat) lines
    ∧ NoDup (mjoin lines).
Proof.
  intros c.
  destruct (line_coverage c (Displacement (-1) 0 0)) as [_ Hlines].
  - simpl. lia.
  - simpl. lia.
  - simpl. lia.
  - unfold unit_axis. apply list_elem_of_further, list_elem_of_here.
  - destruct (Hlines 4%nat) as (lines & H1 & H2 & H3 & _).
    + vm_compute. lia.
    + exists lines. exact (conj H1 (conj H2 H3)).
Defined.

(** The end marker of a line.  For a container with positive extents
    below [2^23], a unit displacement [d] along one axis and a starting
    position [s] of [iteratorPositions], [gend] of the iterator at [s] is
    the one of exact arithmetic, [s + n d] for the number [n] of voxels
    along the axis: the first position past the volume on the line. *)
Theorem gend_past_the_line {V C : Type} `{Container V C}
    (c : C) (d : Displacement_s) (s : Position_s) :
  0 < sizeX c < 2 ^ 23 → 0 < sizeY c < 2 ^ 23 → 0 < sizeZ c < 2 ^ 23 →
  unit_axis d → s ∈ iteratorPositions c d →
  gend c (Giterator s d) = gend_exact c (Giterator s d)
  ∧ gend c (Giterator s d)
    = Giterator (pos_add s (dif_scale d (extent_along c d))) d.
Proof.
  intros Hsx Hsy Hsz Hd Hs. split.
  - by apply gend_start_is_exact.
  - by apply gend_start.
Qed.

Lemma gend_past_the_line_witness :
  let c : Octree.Volume_t Z := Octree.Volume 3 2 2 0 in
  gend c (Giterator (Position 2 1 0) (Displacement (-1) 0 0))
  = Giterator (Position (-1) 1 0) (Displacement (-1) 0 0).
Proof.
  intros c.
  destruct (gend_past_the_line c (Displacement (-1) 0 0) (Position 2 1 0))
    as [_ Hend].
  - simpl. lia.
  - simpl. lia.
  - simpl. lia.
  - unfold unit_axis. apply list_elem_of_further, list_elem_of_here.
  - vm_compute. apply list_elem_of_further, list_elem_of_further,
      list_elem_of_here.
  - exact Hend.
Defined.

(** * Quad extraction *)

Lemma elem_of_voxels sx sy sz p :
  p ∈ voxels sx sy sz ↔ 0 ≤ pos_x p < sx ∧ 0 ≤ pos_y p < sy ∧ 0 ≤ pos_z p < sz.
Proof.
  unfold voxels. rewrite list_elem_of_bind. setoid_rewrite list_elem_of_bind.
  setoid_rewrite list_elem_of_bind. setoid_rewrite list_elem_of_singleton.
  setoid_rewrite elem_of_seqZ. destruct p as [x y z]. simpl. split.
  - intros (i & (j & (k & [= -> -> ->] & Hk) & Hj) & Hi). lia.
  - intros (Hx & Hy & Hz). exists x. split; [|lia]. exists y. split; [|lia].
    exists z. split; [done|lia].
Qed.

Lemma NoDup_voxels sx sy sz : NoDup (voxels sx sy sz).
Proof.
  unfold voxels. apply NoDup_bind; [| |apply NoDup_seqZ].
  - intros i i' p _ _.
    intros (j & (k & ->%list_elem_of_singleton & _)%list_elem_of_bind & _)
      %list_elem_of_bind.
    intros (j' & (k' & [= -> _ _]%list_elem_of_singleton & _)
      %list_elem_of_bind & _)%list_elem_of_bind. done.
  - intros i _. apply NoDup_bind; [| |apply NoDup_seqZ].
    + intros j j' p _ _.
      intros (k & ->%list_elem_of_singleton & _)%list_elem_of_bind.
      intros (k' & [= -> _]%list_elem_of_singleton & _)%list_elem_of_bind.
      done.
    + intros j _. apply NoDup_bind; [| |apply NoDup_seqZ].
      * intros k k' p _ _ ->%list_elem_of_singleton
          [= ->]%list_elem_of_singleton. done.
      * intros k _. apply NoDup_singleton.
Qed.

(** A loop whose body emits nothing except at one element emits what the
    body emits there. *)
Lemma bind_single {A B} (f : A → list B) (x : A) (l : list A) :
  NoDup l → x ∈ l → (∀ y, y ∈ l → y ≠ x → f y = []) → l ≫= f = f x.
Proof.
  induction 1 as [|y l Hy Hl IH]; [by intros ?%elem_of_nil|].
  intros Hx Hf. rewrite bind_cons.
  assert (Hrest : ∀ z, z ∈ l → z ≠ x → f z = [])
    by (intros z Hz; apply Hf; by right).
  apply elem_of_cons in Hx as [->|Hx].
  - assert (l ≫= f = []) as ->; [|by rewrite app_nil_r].
    clear IH Hl Hf. induction l as [|z l IH]; [done|]. rewrite bind_cons.
    rewrite Hrest; [|left|intros ->; apply Hy; left].
    apply IH.
    + intros Hin. apply Hy. by right.
    + intros w Hw. apply Hrest. by right.
  - rewrite Hf, IH; [done..|left|]. by intros ->.
Qed.

Section QuadFacts.
Context {C : Type} {HC : Container Qc C}.
Implicit Types (f : GeoVolume_t C).

(** The coordinates of a corner of an in-range voxel of a georeferenced
    field. *)
Lemma corner_coords f i j k a b c :
  georeferenced f → in_volume f (Position i j k) →
  fpos_eq (corner f i j k a b c)
    (FPosition
       (fpos_x (lower f) + (inject_Z i + (a # 2) + (1 # 2)) * voxelSize f)
       (fpos_y (lower f) + (inject_Z j + (b # 2) + (1 # 2)) * voxelSize f)
       (fpos_z (lower f) + (inject_Z k + (c # 2) + (1 # 2)) * voxelSize f)).
Proof.
  intros (Hvs & Hx & Hy & Hz) (Hi & Hj & Hk). simpl in Hi, Hj, Hk.
  unfold fpos_eq, corner, grid2geo_f. simpl.
  split_and!; apply axis_grid2geo; try done.
  - assert (0 < inject_Z (sizeX (container_ f)))%Q; [|lra].
    rewrite <-(Zlt_Qlt 0). lia.
  - assert (0 < inject_Z (sizeY (container_ f)))%Q; [|lra].
    rewrite <-(Zlt_Qlt 0). lia.
  - assert (0 < inject_Z (sizeZ (container_ f)))%Q; [|lra].
    rewrite <-(Zlt_Qlt 0). lia.
Qed.

Lemma half_inj (a a' : Z) (x vs : Q) :
  (0 < vs)%Q →
  (x + (a # 2) + (1 # 2)) * vs == (x + (a' # 2) + (1 # 2)) * vs → a = a'.
Proof.
  intros Hvs Heq.
  assert (Hd : ((a # 2) - (a' # 2)) * vs == 0) by lra.
  apply Qmult_integral in Hd as [Hd|Hd]; [|lra].
  assert (Ha : a # 2 == a' # 2) by lra.
  unfold Qeq in Ha. simpl in Ha. lia.
Qed.

(** Different corners of a voxel are different points. *)
Lemma corner_inj f i j k a b c a' b' c' :
  georeferenced f → in_volume f (Position i j k) →
  fpos_eq (corner f i j k a b c) (corner f i j k a' b' c') →
  a = a' ∧ b = b' ∧ c = c'.
Proof.
  intros Hg Hin (Ex & Ey & Ez).
  destruct (corner_coords f i j k a b c Hg Hin) as (Hx & Hy & Hz).
  destruct (corner_coords f i j k a' b' c' Hg Hin) as (Hx' & Hy' & Hz').
  simpl in *. destruct Hg as (Hvs & _).
  split_and!.
  - apply (half_inj a a' (inject_Z i) (voxelSize f)); [done|lra].
  - apply (half_inj b b' (inject_Z j) (voxelSize f)); [done|lra].
  - apply (half_inj c c' (inject_Z k) (voxelSize f)); [done|lra].
Qed.

Lemma crossing_from f threshold i j k i' j' k' :
  (threshold < GeoVolume_get f i j k)%Qc →
  (GeoVolume_get f i' j' k' ≤ threshold)%Qc →
  crossing f threshold TO_MIN i j k i' j' k' = true.
Proof.
  intros Hhot Hn. unfold crossing.
  rewrite (bool_decide_eq_true_2 (threshold < GeoVolume_get f i j k)%Qc)
    by done.
  rewrite (bool_decide_eq_true_2 (GeoVolume_get f i' j' k' ≤ threshold)%Qc)
    by done.
  by rewrite (bool_decide_eq_true_2 (TO_MIN = TO_MIN)) by done.
Qed.

Lemma no_crossing_from f threshold i j k i' j' k' :
  (GeoVolume_get f i j k ≤ threshold)%Qc →
  crossing f threshold TO_MIN i j k i' j' k' = false.
Proof.
  intros Hle. unfold crossing.
  rewrite (bool_decide_eq_false_2 (threshold < _)%Qc)
    by (by apply Qcle_not_lt).
  rewrite (bool_decide_eq_false_2 (TO_MIN = TO_MAX)) by done.
  simpl. by rewrite andb_false_r.
Qed.

Lemma pairwise_distinct_quad f i j k a0 b0 c0 a1 b1 c1 a2 b2 c2 a3 b3 c3 :
  georeferenced f → in_volume f (Position i j k) →
  NoDup [(a0, b0, c0); (a1, b1, c1); (a2, b2, c2); (a3, b3, c3)] →
  pairwise_distinct
    [corner f i j k a0 b0 c0; corner f i j k a1 b1 c1;
     corner f i j k a2 b2 c2; corner f i j k a3 b3 c3].
Proof.
  intros Hg Hin Hnd m n p q Hm Hn Hne Heq.
  assert (Hc : ∀ t : nat,
    [corner f i j k a0 b0 c0; corner f i j k a1 b1 c1;
     corner f i j k a2 b2 c2; corner f i j k a3 b3 c3] !! t
    = (λ abc : Z * Z * Z, corner f i j k abc.1.1 abc.1.2 abc.2)
      <$> [(a0, b0, c0); (a1, b1, c1); (a2, b2, c2); (a3, b3, c3)] !! t).
  { intros t. by do 4 (destruct t as [|t]; [done|]). }
  rewrite Hc in Hm, Hn.
  destruct (_ !! m) as [[[a b] c]|] eqn:Em; [|done].
  destruct (_ !! n) as [[[a' b'] c']|] eqn:En; [|done].
  simpl in Hm, Hn. injection Hm as <-. injection Hn as <-.
  apply corner_inj in Heq as (-> & -> & ->); [|done..].
  apply Hne. by eapply NoDup_lookup.
Qed.

End QuadFacts.

(** Claim C8.  For every scalar field (of positive voxel size) in which
    exactly one in-range voxel holds a value strictly above the threshold,
    and every other in-range voxel and the out-of-range initial value are
    at or below it, [getQuads(threshold, TO_MIN)] returns exactly 24
    points: the 6 faces of that voxel, one quad of 4 corners each, and the
    4 corners of each quad are pairwise distinct. *)
Theorem getQuads_single_voxel {C : Type} {HC : Container Qc C}
    {HS : ContainerSpec Qc C}
    (f : GeoVolume_t C) (threshold : Qc) (i j k : Z) :
  georeferenced f →
  in_volume f (Position i j k) →
  (threshold < GeoVolume_get f i j k)%Qc →
  (∀ i' j' k', in_volume f (Position i' j' k') →
     Position i' j' k' ≠ Position i j k →
     (GeoVolume_get f i' j' k' ≤ threshold)%Qc) →
  (initial (container_ f) ≤ threshold)%Qc →
  getQuads f threshold TO_MIN = mjoin (voxelFaces f i j k)
  ∧ length (getQuads f threshold TO_MIN) = 24%nat
  ∧ length (voxelFaces f i j k) = 6%nat
  ∧ Forall (λ quad, length quad = 4%nat ∧ pairwise_distinct quad)
           (voxelFaces f i j k).
Proof.
  intros Hg Hin Hhot Hothers Hinit.
  assert (Hle : ∀ i' j' k', Position i' j' k' ≠ Position i j k →
    (GeoVolume_get f i' j' k' ≤ threshold)%Qc).
  { intros i' j' k' Hne.
    destruct (out_of_range (sizeX (container_ f)) (sizeY (container_ f))
                (sizeZ (container_ f)) i' j' k') eqn:Hr.
    - unfold GeoVolume_get. by rewrite get_outside.
    - apply out_of_range_false in Hr. by apply Hothers. }
  assert (Hquads : getQuads f threshold TO_MIN = mjoin (voxelFaces f i j k)).
  { unfold getQuads.
    rewrite (bind_single _ (Position i j k));
      [|apply NoDup_voxels|by apply elem_of_voxels|].
    - unfold voxelQuads. simpl.
      rewrite !crossing_from
        by (done || (apply Hle; intros Heq; injection Heq; lia)).
      done.
    - intros [x y z] _ Hne. unfold voxelQuads. simpl.
      by rewrite !no_crossing_from by (by apply Hle). }
  split_and!; [done|by rewrite Hquads|done|].
  unfold voxelFaces.
  repeat (apply Forall_cons; split;
    [split; [done|apply pairwise_distinct_quad; [done|done|]]|]);
    [..|apply Forall_nil];
    compute_done.
Qed.

Lemma getQuads_single_voxel_witness :
  let f : GeoVolume_t (FlatArray.VolumeArray Qc) :=
    {| container_ :=
         FlatArray.VolumeArray_set (FlatArray.Array 2 2 2 (Q2Qc 0)) 1 0 1
           (Q2Qc 5);
       lower := FPosition 0 0 0; upper := FPosition 2 2 2;
       voxelSize := 1 |} in
  getQuads f (Q2Qc 2) TO_MIN = mjoin (voxelFaces f 1 0 1)
  ∧ length (getQuads f (Q2Qc 2) TO_MIN) = 24%nat.
Proof.
  intros f.
  destruct (getQuads_single_voxel f (Q2Qc 2) 1 0 1) as (H1 & H2 & _).
  - unfold georeferenced. simpl. repeat split; reflexivity.
  - unfold in_volume. simpl. lia.
  - reflexivity.
  - intros i' j' k' (Hi & Hj & Hk) Hne. simpl in Hi, Hj, Hk.
    assert (Hi' : i' = 0 ∨ i' = 1) by lia.
    assert (Hj' : j' = 0 ∨ j' = 1) by lia.
    assert (Hk' : k' = 0 ∨ k' = 1) by lia.
    destruct Hi' as [-> | ->], Hj' as [-> | ->], Hk' as [-> | ->];
      first [ by destruct Hne | by vm_compute ].
  - by vm_compute.
  - exact (conj H1 H2).
Defined.

(** * Indexed-mesh reconstruction *)

Section MeshFacts.

Lemma vertexIndex_inv pVertex st :
  mesh_inv st →
  let r := vertexIndex pVertex st in
  mesh_inv r.2
  ∧ vertices r.2.1 !! r.1 = Some pVertex
  ∧ faces r.2.1 = faces st.1
  ∧ (length (vertices st.1) ≤ length (vertices r.2.1))%nat.
Proof.
  destruct st as [ret vidMap]. intros [Hmap Hfaces]. simpl in *.
  unfold vertexIndex. destruct (vidMap !! pVertex) as [idx|] eqn:Hl; simpl.
  { split_and!; [by split|by apply Hmap|done|done]. }
  split_and!; [split|..]; simpl.
  - intros p i. destruct (decide (p = pVertex)) as [->|Hne].
    + rewrite lookup_insert_eq. split.
      * intros [= <-]. by rewrite lookup_app_r, Nat.sub_diag.
      * intros Hi. f_equal.
        destruct (decide (i < length (vertices ret))%nat) as [Hlt|Hge].
        -- rewrite lookup_app_l in Hi by done. apply Hmap in Hi. congruence.
        -- apply lookup_lt_Some in Hi. rewrite length_app in Hi.
           simpl in Hi. lia.
    + rewrite lookup_insert_ne by done. rewrite Hmap. split.
      * intros Hi. rewrite lookup_app_l; [done|]. by eapply lookup_lt_Some.
      * intros Hi.
        destruct (decide (i < length (vertices ret))%nat) as [Hlt|Hge].
        -- by rewrite lookup_app_l in Hi.
        -- rewrite lookup_app_r in Hi by lia.
           destruct (i - length (vertices ret))%nat; [|done].
           simpl in Hi. congruence.
  - eapply Forall_impl; [done|]. simpl. intros fc (? & ? & ? & ?).
    rewrite length_app. simpl. split_and!; (done || lia).
  - by rewrite lookup_app_r, Nat.sub_diag.
  - done.
  - rewrite length_app. lia.
Qed.

Lemma reconstructFace_inv stream st face :
  mesh_inv st → mesh_inv (reconstructFace stream st face).
Proof.
  intros Hst. unfold reconstructFace.
  set (p0 := toPoint3 _). set (p1 := toPoint3 _). set (p2 := toPoint3 _).
  destruct (vertexIndex_inv p0 st Hst) as (H0 & Hv0 & Hf0 & Hl0).
  destruct (vertexIndex p0 st) as [i0 st0]. simpl in *.
  destruct (vertexIndex_inv p1 st0 H0) as (H1 & Hv1 & Hf1 & Hl1).
  destruct (vertexIndex p1 st0) as [i1 st1]. simpl in *.
  destruct (vertexIndex_inv p2 st1 H1) as (H2 & Hv2 & Hf2 & Hl2).
  destruct (vertexIndex p2 st1) as [i2 st2]. simpl in *.
  destruct (bool_decide (i0 = i1) || _ || _) eqn:Hdeg; [done|].
  rewrite !orb_false_iff, !bool_decide_eq_false in Hdeg.
  destruct Hdeg as [[Hab Hac] Hbc].
  destruct H2 as [Hmap Hfaces]. split; simpl; [done|].
  apply Forall_app. split; [done|]. apply Forall_singleton. simpl.
  apply lookup_lt_Some in Hv0, Hv1, Hv2.
  unfold proper_face. simpl. split_and!; (done || lia).
Qed.

Lemma reconstructFaces_inv stream :
  mesh_inv (foldl (reconstructFace stream) (mkMesh [] [], ∅)
              (seq 0 (length stream / 3))).
Proof.
  generalize (seq 0 (length stream / 3)).
  assert (Hinit : mesh_inv (mkMesh [] [], ∅)).
  { split; simpl; [|done]. intros p i. by rewrite lookup_empty, lookup_nil. }
  revert Hinit. generalize (mkMesh [] [], ∅ : gmap Point3 nat).
  intros st Hst l. revert st Hst.
  induction l as [|face l IH]; intros st Hst; [done|].
  simpl. apply IH. by apply reconstructFace_inv.
Qed.

Lemma mesh_inv_NoDup st : mesh_inv st → NoDup (vertices st.1).
Proof.
  intros [Hmap _]. apply NoDup_alt. intros i j p Hi Hj.
  apply Hmap in Hi, Hj. congruence.
Qed.

End MeshFacts.


(** * The distance map on a flat volume *)

(** Claim C7 fails on the code.  On the bitfield above, with the initial
    value 100, the distance map is built without an error and holds 0 at
    the feature, but at the grid position (1,0,0), at distance 1 from the
    feature, it still holds the initial value 100: a volume of one layer in
    Z is never scanned. *)
Theorem distance_map_flat_volume :
  ∃ (bitfield : DistanceMap.Bitfield_t) (dm : DistanceMap.DistanceMap_t),
    flat_bitfield = Some bitfield
    ∧ (∀ i j k, GeoVolume_get bitfield i j k = true
                ↔ Position i j k = Position 0 0 0)
    ∧ DistanceMap.DistanceMap bitfield (Q2Qc 100) = Some dm
    ∧ sizeX (container_ dm) = 2 ∧ sizeY (container_ dm) = 1
    ∧ sizeZ (container_ dm) = 1
    ∧ GeoVolume_get dm 0 0 0 = Q2Qc 0
    ∧ GeoVolume_get dm 1 0 0 = Q2Qc 100.
Proof.
  destruct flat_bitfield as [bitfield|] eqn:Hb; [|by vm_compute in Hb].
  vm_compute in Hb. injection Hb as <-.
  eexists _, _. split_and!; [reflexivity| |by vm_compute|..].
  - intros i j k. unfold GeoVolume_get. simpl. unfold Octree.Volume_get.
    simpl. destruct (out_of_range 2 1 1 i j k) eqn:Hr.
    + apply out_of_range_true in Hr. split; [done|]. intros [= -> -> ->]. lia.
    + apply out_of_range_false in Hr.
      assert (i = 0 ∨ i = 1) as [-> | ->] by lia;
        assert (j = 0) as -> by lia; assert (k = 0) as -> by lia;
        vm_compute; split; congruence.
  - reflexivity.
  - reflexivity.
  - reflexivity.
  - apply Qc_is_canon. reflexivity.
  - apply Qc_is_canon. reflexivity.
Qed.

(** * Downscaling *)

(** A [for] loop whose body keeps an invariant, and completes under it,
    completes and keeps the invariant. *)
Lemma for_each_total {A St : Type} (I : St → Prop) (l : list A)
    (body : St → A → option St) (s : St) :
  I s → (∀ s a, I s → ∃ s', body s a = Some s' ∧ I s') →
  ∃ s', for_each l body s = Some s' ∧ I s'.
Proof.
  intros Hs Hbody. revert s Hs.
  induction l as [|a l IH]; intros s Hs; simpl; [by exists s|].
  destruct (Hbody s a Hs) as (s1 & -> & Hs1). simpl. by apply IH.
Qed.

Section DownscaleFacts.
Context {C : Type} {HC : Container Qc C} {HS : ContainerSpec Qc C}.
Implicit Types (c dst : C) (d : Displacement_s) (s : Position_s).

Lemma like_refl c : valid c → like c c.
Proof. by intros ?; split_and!. Qed.






Section Filter.
Variable convolute : Q → (Z → Qc) → Z → Z → Q.
Variable value_max value_lowest : Q.







End Filter.

End DownscaleFacts.




(** The rounding of [downscale] at work: a field of 5x5x5 voxels of size
    0.1, the [double] nearest to one tenth, downscaled by the factor 3,
    has 3 voxels per axis, one more than
    [ceil((5 + (3 - 1) / 2) / 3) = 2]: [shift], narrowed to [float], is
    above 0.1 and the new voxel size is the [double] 0.30000000000000004,
    so that the quotient is above 2. *)
Theorem downscale_rounds_up :
  let f : GeoVolume_t (FlatArray.VolumeArray Qc) :=
    GeoVolume_double (FPosition 0 0 0) (FPosition (1 # 2) (1 # 2) (1 # 2))
      (to_double (1 # 10)) (Q2Qc 7) in
  sizeX (container_ f) = 5 ∧ sizeY (container_ f) = 5
  ∧ sizeZ (container_ f) = 5
  ∧ downscaled_count 5 3 = 2
  ∧ ∃ f', downscale pass_through 1000 (-1000) 4 3 f = Some f'
        ∧ sizeX (container_ f') = 3 ∧ sizeY (container_ f') = 3
        ∧ sizeZ (container_ f') = 3.
Proof.
  intros f. split_and!; [by vm_compute..|].
  destruct (downscale pass_through 1000 (-1000) 4 3 f) as [f'|] eqn:Hd;
    [|by vm_compute in Hd].
  exists f'. split; [done|].
  assert (Hs : (f'' ← downscale pass_through 1000 (-1000) 4 3 f;
                Some (sizeX (container_ f''), sizeY (container_ f''),
                      sizeZ (container_ f''))) = Some (3, 3, 3))
    by (by vm_compute).
  rewrite Hd in Hs. simpl in Hs. injection Hs as H1 H2 H3.
  exact (conj H1 (conj H2 H3)).
Qed.

(** * The distance transform on volumes of at least two layers *)

Lemma for_each_app {A St : Type} (l1 l2 : list A)
    (body : St → A → option St) (s : St) :
  for_each (l1 ++ l2) body s = s' ← for_each l1 body s; for_each l2 body s'.
Proof.
  revert s. induction l1 as [|a l1 IH]; intros s; simpl; [done|].
  destruct (body s a) as [s1|]; simpl; [apply IH|done].
Qed.

Section Loops.
Context {St : Type} (Inv : St → Prop) (R : St → St → Prop).
Hypothesis R_refl : ∀ s, R s s.
Hypothesis R_trans : ∀ s1 s2 s3, R s1 s2 → R s2 s3 → R s1 s3.

(** A loop whose iterations each turn a fact [pre a] of the state before
    the loop into a fact [post a] of the state after it. *)
Lemma par_loop {A : Type} (body : St → A → option St)
    (pre post : A → St → Prop) (l : list A) (s : St) :
  (∀ a s s', R s s' → pre a s → pre a s') →
  (∀ a s s', R s s' → post a s → post a s') →
  (∀ s a, a ∈ l → Inv s →
     ∃ s', body s a = Some s' ∧ Inv s' ∧ R s s' ∧ (pre a s → post a s')) →
  Inv s →
  ∃ s', for_each l body s = Some s' ∧ Inv s' ∧ R s s'
      ∧ ∀ a, a ∈ l → pre a s → post a s'.
Proof.
  intros Hpre Hpost. revert s.
  induction l as [|a l IH]; intros s Hbody Hs; simpl.
  { exists s. split_and!; [done..|]. by intros a ?%elem_of_nil. }
  destruct (Hbody s a) as (s1 & -> & Hs1 & HR1 & Ha); [left|done|].
  destruct (IH s1) as (s' & Hrun & Hs' & HR' & Hl); [|done|].
  { intros s2 b Hb. apply Hbody. by right. }
  exists s'. simpl. split_and!; [done|done|by eapply R_trans|].
  intros b [->|Hb]%elem_of_cons Hb0.
  - eapply Hpost; [done|]. by apply Ha.
  - apply Hl; [done|]. by eapply Hpre.
Qed.

(** A loop over [m, m+1, ..., m+n-1] whose iteration [i] carries a fact
    from [i-1] to [i]. *)
Lemma chain_loop (body : St → Z → option St) (Q : Z → St → Prop)
    (m : Z) (n : nat) (s : St) :
  (∀ i s s', R s s' → Q i s → Q i s') →
  (∀ s i, m ≤ i < m + Z.of_nat n → Inv s →
     ∃ s', body s i = Some s' ∧ Inv s' ∧ R s s' ∧ (Q (i - 1) s → Q i s')) →
  Inv s → Q (m - 1) s →
  ∃ s', for_each (seqZ m (Z.of_nat n)) body s = Some s' ∧ Inv s' ∧ R s s'
      ∧ ∀ i, m - 1 ≤ i < m + Z.of_nat n → Q i s'.
Proof.
  intros HQ. induction n as [|n IH]; intros Hbody Hs H0.
  { exists s. simpl. split_and!; [done..|].
    intros i Hi. by replace i with (m - 1) by lia. }
  destruct IH as (s1 & Hrun & Hs1 & HR1 & Hq1); [|done|done|].
  { intros s2 i Hi. apply Hbody. lia. }
  destruct (Hbody s1 (m + Z.of_nat n)) as (s' & Hb & Hs' & HR' & Hq');
    [lia|done|].
  exists s'. replace (Z.of_nat (S n)) with (Z.of_nat n + 1) by lia.
  rewrite seqZ_app, for_each_app, Hrun by lia.
  change (seqZ (m + Z.of_nat n) 1) with [m + Z.of_nat n].
  simpl. rewrite Hb. simpl.
  split_and!; [done|done|by eapply R_trans|].
  intros i Hi. destruct (decide (i = m + Z.of_nat n)) as [->|Hne].
  - apply Hq'. apply Hq1. lia.
  - eapply HQ; [done|]. apply Hq1. lia.
Qed.

End Loops.

Module DistanceFacts.
Import DistanceMap.

Lemma this_Q2Qc (q : Q) : (this (Q2Qc q) == q)%Q.
Proof. simpl. apply Qred_correct. Qed.

Lemma this_plus (x y : Qc) : (this (x + y)%Qc == this x + this y)%Q.
Proof. unfold Qcplus. apply this_Q2Qc. Qed.

Lemma this_mult (x y : Qc) : (this (x * y)%Qc == this x * this y)%Q.
Proof. unfold Qcmult. apply this_Q2Qc. Qed.

Lemma this_norm (a : DistVector_s) :
  (this (sqr (distX a) + sqr (distY a) + sqr (distZ a))%Qc
   == this (distX a) * this (distX a) + this (distY a) * this (distY a)
      + this (distZ a) * this (distZ a))%Q.
Proof. unfold sqr. by rewrite !this_plus, !this_mult. Qed.

Lemma Qc_le_inject (i j : Z) :
  (Q2Qc (inject_Z i) ≤ Q2Qc (inject_Z j))%Qc ↔ i ≤ j.
Proof. unfold Qcle. by rewrite !this_Q2Qc, Zle_Qle. Qed.

Lemma dv_le_zvec i j k i' j' k' :
  dv_le (zvec i j k) (zvec i' j' k') ↔ i ≤ i' ∧ j ≤ j' ∧ k ≤ k'.
Proof. unfold dv_le. simpl. by rewrite !Qc_le_inject. Qed.

Lemma dv_le_trans a b c : dv_le a b → dv_le b c → dv_le a c.
Proof.
  intros (? & ? & ?) (? & ? & ?). split_and!; by eapply Qcle_trans.
Qed.

Lemma dv_plus_zvec i j k i' j' k' :
  dv_plus (zvec i j k) (zvec i' j' k') = zvec (i + i') (j + j') (k + k').
Proof.
  unfold dv_plus, zvec. simpl.
  f_equal; apply Qc_is_canon; rewrite this_plus, !this_Q2Qc, inject_Z_plus;
    reflexivity.
Qed.

Lemma dv_plus_le a b c : dv_le a b → dv_le (dv_plus a c) (dv_plus b c).
Proof.
  intros (? & ? & ?). unfold dv_le, dv_plus. simpl.
  split_and!; (apply Qcplus_le_compat; [done|apply Qcle_refl]).
Qed.

Lemma min_sound v a b : dv_le v a → dv_le v b → dv_le v (min a b).
Proof. intros. unfold min. by case_bool_decide. Qed.

(** A vector that bounds a non-negative integer vector from above is at
    least as long. *)
Lemma norm_le i j k b :
  0 ≤ i → 0 ≤ j → 0 ≤ k → dv_le (zvec i j k) b →
  (sqr (distX (zvec i j k)) + sqr (distY (zvec i j k))
   + sqr (distZ (zvec i j k))
   ≤ sqr (distX b) + sqr (distY b) + sqr (distZ b))%Qc.
Proof.
  intros Hi Hj Hk (Hx & Hy & Hz). unfold Qcle in *. rewrite !this_norm.
  simpl distX in *. simpl distY in *. simpl distZ in *.
  rewrite !this_Q2Qc in *.
  rewrite Zle_Qle in Hi, Hj, Hk. change (inject_Z 0) with 0%Q in *.
  set (x := this (distX b)) in *. set (y := this (distY b)) in *.
  set (z := this (distZ b)) in *.
  set (a := inject_Z i) in *. set (c := inject_Z j) in *.
  set (d := inject_Z k) in *. clearbody x y z a c d.
  assert (a * a <= x * x)%Q by nra.
  assert (c * c <= y * y)%Q by nra.
  assert (d * d <= z * z)%Q by nra.
  lra.
Qed.

Lemma min_exact_l i j k b :
  0 ≤ i → 0 ≤ j → 0 ≤ k → dv_le (zvec i j k) b →
  min (zvec i j k) b = zvec i j k.
Proof.
  intros. unfold min. rewrite bool_decide_eq_true_2; [done|].
  by apply norm_le.
Qed.

(** ... and is that vector when it is no longer. *)
Lemma min_exact_r i j k a :
  0 ≤ i → 0 ≤ j → 0 ≤ k → dv_le (zvec i j k) a →
  min a (zvec i j k) = zvec i j k.
Proof.
  intros Hi Hj Hk (Hx & Hy & Hz). unfold min. case_bool_decide as Hn; [|done].
  unfold Qcle in *. rewrite !this_norm in Hn.
  simpl distX in *. simpl distY in *. simpl distZ in *.
  rewrite !this_Q2Qc in *.
  rewrite Zle_Qle in Hi, Hj, Hk. change (inject_Z 0) with 0%Q in *.
  destruct a as [x y z]. simpl in *. unfold zvec.
  assert (Hxx : (inject_Z i * inject_Z i <= x * x)%Q) by nra.
  assert (Hyy : (inject_Z j * inject_Z j <= y * y)%Q) by nra.
  assert (Hzz : (inject_Z k * inject_Z k <= z * z)%Q) by nra.
  assert (Ex : (this x == inject_Z i)%Q) by nra.
  assert (Ey : (this y == inject_Z j)%Q) by nra.
  assert (Ez : (this z == inject_Z k)%Q) by nra.
  f_equal; apply Qc_is_canon; by rewrite this_Q2Qc.
Qed.

(** The voxel count that the constructor computes from georeferenced
    extents is the count they were built from. *)
Lemma count_georeferenced (l u vs : Q) (n : Z) :
  (0 < vs)%Q → (u == l + inject_Z n * vs)%Q → Qceiling ((u - l) / vs) = n.
Proof.
  intros Hvs Hu. rewrite <-(Qceiling_inject_Z n). apply Qceiling_comp.
  rewrite Hu. field. lra.
Qed.

(** The modelled [sqrt] does not exceed a bound whose square bounds its
    argument. *)
Lemma sqrt_le (q : Q) (m : Z) :
  0 ≤ m → (q <= inject_Z (m * m))%Q → (sqrt q <= inject_Z m)%Q.
Proof.
  intros Hm Hq. unfold sqrt.
  assert (Hfl : Qfloor (q * inject_Z (4 ^ 26)) ≤ (m * 2 ^ 26) * (m * 2 ^ 26)).
  { rewrite <-(Qfloor_inject_Z (m * 2 ^ 26 * (m * 2 ^ 26))).
    apply Qfloor_resp_le.
    replace (m * 2 ^ 26 * (m * 2 ^ 26)) with (m * m * 4 ^ 26) by lia.
    rewrite (inject_Z_mult (m * m)).
    apply Qmult_le_compat_r; [done|]. by rewrite <-(Zle_Qle 0). }
  apply Z.sqrt_le_mono in Hfl. rewrite Z.sqrt_square in Hfl by lia.
  apply Qle_shift_div_r; [by rewrite <-(Zlt_Qlt 0)|].
  rewrite <-inject_Z_mult. by rewrite <-Zle_Qle.
Qed.

Lemma sqrt_comp (q q' : Q) : (q == q')%Q → sqrt q = sqrt q'.
Proof.
  intros Hq. unfold sqrt. do 3 f_equal. apply Qfloor_comp. by rewrite Hq.
Qed.

Section Scan.
Variables sx sy sz : Z.
Hypothesis Hsx : 1 ≤ sx.
Hypothesis Hsy : 2 ≤ sy.
Hypothesis Hsz : 2 ≤ sz.
Implicit Types (dv : DistVectorField_t).

Lemma keeps_refl dv : keeps dv dv.
Proof. by intros i j k. Qed.

Lemma keeps_trans dv1 dv2 dv3 : keeps dv1 dv2 → keeps dv2 dv3 → keeps dv1 dv3.
Proof. intros H12 H23 i j k ?. by apply H23, H12. Qed.

(** One propagation step from the voxel [q] to the voxel [p] along the
    offset [e]. *)
Lemma propagate_step dv (pi pj pk qi qj qk ei ej ek : Z) :
  (shape sx sy sz) dv →
  0 ≤ pi < sx → 0 ≤ pj < sy → 0 ≤ pk < sz →
  0 ≤ qi < sx → 0 ≤ qj < sy → 0 ≤ qk < sz →
  pi ≤ qi + ei → pj ≤ qj + ej → pk ≤ qk + ek →
  ∃ dv', propagate qi qj qk (zvec ei ej ek) pi pj pk dv = Some dv'
    ∧ (shape sx sy sz) dv' ∧ keeps dv dv'
    ∧ (pi = qi + ei → pj = qj + ej → pk = qk + ek →
       exact dv qi qj qk → exact dv' pi pj pk).
Proof.
  intros (Hv & Hx & Hy & Hz & Hsound) Hpi Hpj Hpk Hqi Hqj Hqk Hi Hj Hk.
  unfold propagate.
  set (cand := dv_plus (get dv qi qj qk) (zvec ei ej ek)).
  set (v := min (get dv pi pj pk) cand).
  assert (Hvv : valid dv) by exact Hv.
  destruct (set_spec dv pi pj pk v Hvv)
    as (dv' & -> & Hv' & Hx' & Hy' & Hz' & _ & Hget).
  assert (Hin : out_of_range (sizeX dv) (sizeY dv) (sizeZ dv) pi pj pk = false)
    by (apply out_of_range_false; lia).
  rewrite Hin in Hget. cbn [negb andb] in Hget.
  assert (Hcand : dv_le (zvec pi pj pk) cand).
  { eapply dv_le_trans; [|apply dv_plus_le, (Hsound qi qj qk); lia].
    rewrite dv_plus_zvec. apply dv_le_zvec. lia. }
  exists dv'. split_and!; [done| | |].
  - split_and!; [done|congruence..|].
    intros i j k ? ? ?. rewrite Hget. case_bool_decide as Heq.
    + injection Heq as -> -> ->. apply min_sound; [|done]. by apply Hsound.
    + by apply Hsound.
  - intros i j k He. unfold exact in *. rewrite Hget.
    case_bool_decide as Heq; [|done].
    injection Heq as -> -> ->. unfold v. rewrite He.
    apply min_exact_l; [lia..|done].
  - intros -> -> -> He. unfold exact in *. rewrite Hget.
    rewrite bool_decide_eq_true_2 by done.
    unfold v, cand. rewrite He, dv_plus_zvec.
    apply min_exact_r; [lia..|]. apply Hsound; lia.
Qed.

Lemma elem_of_pairsZ m n (ij : Z * Z) :
  ij ∈ pairsZ m n ↔ 0 ≤ ij.1 < m ∧ 0 ≤ ij.2 < n.
Proof.
  unfold pairsZ. rewrite list_elem_of_bind.
  setoid_rewrite list_elem_of_bind. setoid_rewrite list_elem_of_singleton.
  setoid_rewrite elem_of_seqZ. destruct ij as [a b]. simpl. split.
  - intros (i & (j & [= -> ->] & Hj) & Hi). lia.
  - intros [Ha Hb]. exists a. split; [|lia]. exists b. split; [done|lia].
Qed.

(** [scanXLine] completes; it makes the line [(_, j, k)] exact when the
    line's first voxel is, or when the scan ascends and the first voxel
    of the line before is. *)
Lemma scanXLine_spec dv (j k : Z) (scandir : Scandir_t) :
  (shape sx sy sz) dv → 0 ≤ k < sz →
  match scandir with ASC => 1 ≤ j < sy | DESC => 0 ≤ j < sy - 1 end →
  ∃ dv', scanXLine dv j k scandir = Some dv' ∧ (shape sx sy sz) dv' ∧ keeps dv dv'
    ∧ (exact dv 0 j k ∨ (scandir = ASC ∧ exact dv 0 (j - 1) k) →
       ∀ i, 0 ≤ i < sx → exact dv' i j k).
Proof.
  intros Hs Hk Hj. unfold scanXLine.
  assert (Hjr : 0 ≤ j < sy) by (destruct scandir; lia).
  (* y propagation *)
  destruct (par_loop (shape sx sy sz) keeps keeps_refl keeps_trans
    (λ dv i, match scandir with
             | ASC => propagate i (j - 1) k (DistVector 0 1 0) i j k dv
             | DESC => propagate i (j + 1) k (DistVector 0 1 0) i j k dv
             end)
    (λ i s, scandir = ASC ∧ exact s i (j - 1) k) (λ i s, exact s i j k)
    (seqZ 0 (sizeX dv)) dv) as (s1 & -> & Hs1 & HR1 & Hp1); [| | |done|].
  { intros i s s' HR [? ?]. split; [done|]. by apply HR. }
  { intros i s s' HR ?. by apply HR. }
  { destruct Hs as (_ & -> & _). intros s i Hi%elem_of_seqZ Hss.
    destruct scandir.
    - destruct (propagate_step s i j k i (j - 1) k 0 1 0)
        as (s' & Hrun & Hs' & HR & Hq); [done|lia..|].
      exists s'. split_and!; [done..|].
      intros [_ He]. apply Hq; [lia..|done].
    - destruct (propagate_step s i j k i (j + 1) k 0 1 0)
        as (s' & Hrun & Hs' & HR & Hq); [done|lia..|].
      exists s'. split_and!; [done..|]. by intros [? _]. }
  cbn [mbind option_bind].
  pose proof Hs1 as (_ & Hx1 & _). rewrite Hx1.
  (* x propagation, forward *)
  destruct (chain_loop (shape sx sy sz) keeps keeps_refl keeps_trans
    (λ dv i, propagate (i - 1) j k (DistVector 1 0 0) i j k dv)
    (λ i s, exact s1 0 j k → exact s i j k) 1 (Z.to_nat (sx - 1)) s1)
    as (s2 & Hrun2 & Hs2 & HR2 & Hp2); [| |done|done|].
  { intros i s s' HR Hq H0. by apply HR, Hq. }
  { intros s i Hi Hss.
    destruct (propagate_step s i j k (i - 1) j k 1 0 0)
      as (s' & Hrun & Hs' & HR & Hq); [done|lia..|].
    exists s'. split_and!; [done..|].
    intros Hprev H0. apply Hq; [lia..|]. by apply Hprev. }
  rewrite Z2Nat.id in Hrun2, Hp2 by lia. rewrite Hrun2.
  cbn [mbind option_bind].
  pose proof Hs2 as (_ & Hx2 & _). rewrite Hx2.
  (* x propagation, backward *)
  destruct (par_loop (shape sx sy sz) keeps keeps_refl keeps_trans
    (λ dv i, propagate (i + 1) j k (DistVector 1 0 0) i j k dv)
    (λ _ _, False) (λ _ _, True)
    (reverse (seqZ 0 (sx - 1))) s2) as (s3 & -> & Hs3 & HR3 & _);
    [done|done| |done|].
  { intros s i Hi%elem_of_reverse%elem_of_seqZ Hss.
    destruct (propagate_step s i j k (i + 1) j k 1 0 0)
      as (s' & Hrun & Hs' & HR & Hq); [done|lia..|].
    exists s'. by split_and!. }
  exists s3. split_and!; [done|done|by do 2 (eapply keeps_trans; [|done])|].
  intros Hpre i Hi. apply HR3, Hp2; [lia|].
  destruct Hpre as [H0|[-> H0]]; [by apply HR1|].
  apply Hp1; [|done]. apply elem_of_seqZ. destruct Hs as (_ & -> & _). lia.
Qed.

(** [scanXYPlane] completes; it makes the plane [(_, _, k)] exact when
    the plane's first voxel is, or when the scan ascends and the first
    voxel of the plane before is. *)
Lemma scanXYPlane_spec dv (k : Z) (scandir : Scandir_t) :
  (shape sx sy sz) dv →
  match scandir with ASC => 1 ≤ k < sz | DESC => 0 ≤ k < sz - 1 end →
  ∃ dv', scanXYPlane dv k scandir = Some dv' ∧ (shape sx sy sz) dv' ∧ keeps dv dv'
    ∧ (exact dv 0 0 k ∨ (scandir = ASC ∧ exact dv 0 0 (k - 1)) →
       ∀ i j, 0 ≤ i < sx → 0 ≤ j < sy → exact dv' i j k).
Proof.
  intros Hs Hk. unfold scanXYPlane.
  assert (Hkr : 0 ≤ k < sz) by (destruct scandir; lia).
  (* z propagation *)
  destruct (par_loop (shape sx sy sz) keeps keeps_refl keeps_trans
    (λ dv (ij : Z * Z),
       match scandir with
       | ASC => propagate ij.1 ij.2 (k - 1) (DistVector 0 0 1) ij.1 ij.2 k dv
       | DESC => propagate ij.1 ij.2 (k + 1) (DistVector 0 0 1) ij.1 ij.2 k dv
       end)
    (λ ij s, scandir = ASC ∧ exact s ij.1 ij.2 (k - 1))
    (λ ij s, exact s ij.1 ij.2 k)
    (pairsZ (sizeX dv) (sizeY dv)) dv) as (s1 & -> & Hs1 & HR1 & Hp1);
    [| | |done|].
  { intros ij s s' HR [? ?]. split; [done|]. by apply HR. }
  { intros ij s s' HR ?. by apply HR. }
  { destruct Hs as (_ & -> & -> & _).
    intros s [i j] [Hi Hj]%elem_of_pairsZ Hss. simpl in *.
    destruct scandir.
    - destruct (propagate_step s i j k i j (k - 1) 0 0 1)
        as (s' & Hrun & Hs' & HR & Hq); [done|lia..|].
      exists s'. split_and!; [done..|].
      intros [_ He]. apply Hq; [lia..|done].
    - destruct (propagate_step s i j k i j (k + 1) 0 0 1)
        as (s' & Hrun & Hs' & HR & Hq); [done|lia..|].
      exists s'. split_and!; [done..|]. by intros [? _]. }
  cbn [mbind option_bind].
  pose proof Hs1 as (_ & _ & Hy1 & _). rewrite Hy1.
  (* xy propagation, ascending *)
  destruct (chain_loop (shape sx sy sz) keeps keeps_refl keeps_trans
    (λ dv j, scanXLine dv j k ASC)
    (λ j s, exact s1 0 0 k →
            ∀ i, 0 ≤ i < sx → 1 ≤ j ∨ i = 0 → exact s i j k)
    1 (Z.to_nat (sy - 1)) s1)
    as (s2 & Hrun2 & Hs2 & HR2 & Hp2); [| |done| |].
  { intros j s s' HR Hq H0 i Hi Hji. by apply HR, Hq. }
  { intros s j Hj Hss.
    destruct (scanXLine_spec s j k ASC) as (s' & Hrun & Hs' & HR & Hq);
      [done|done|lia|].
    exists s'. split_and!; [done..|].
    intros Hprev H0 i Hi _. apply Hq; [|done].
    right. split; [done|]. apply Hprev; [done|lia|by right]. }
  { intros H0 i Hi [?| ->]; [lia|done]. }
  rewrite Z2Nat.id in Hrun2, Hp2 by lia. rewrite Hrun2.
  cbn [mbind option_bind].
  pose proof Hs2 as (_ & _ & Hy2 & _). rewrite Hy2.
  (* xy propagation, descending *)
  destruct (par_loop (shape sx sy sz) keeps keeps_refl keeps_trans
    (λ dv j, scanXLine dv j k DESC)
    (λ j s, exact s 0 j k) (λ j s, ∀ i, 0 ≤ i < sx → exact s i j k)
    (reverse (seqZ 0 (sy - 1))) s2) as (s3 & -> & Hs3 & HR3 & Hp3);
    [| | |done|].
  { intros j s s' HR ?. by apply HR. }
  { intros j s s' HR Hq i Hi. by apply HR, Hq. }
  { intros s j Hj%elem_of_reverse%elem_of_seqZ Hss.
    destruct (scanXLine_spec s j k DESC) as (s' & Hrun & Hs' & HR & Hq);
      [done|done|lia|].
    exists s'. split_and!; [done..|].
    intros H0. apply Hq. by left. }
  exists s3. split_and!; [done|done|by do 2 (eapply keeps_trans; [|done])|].
  intros Hpre i j Hi Hj.
  assert (H0 : exact s1 0 0 k).
  { destruct Hpre as [H0|[-> H0]]; [by apply HR1|].
    apply (Hp1 (0, 0)); [|done]. apply elem_of_pairsZ.
    destruct Hs as (_ & -> & -> & _). simpl. lia. }
  destruct (decide (j = 0)) as [->|Hne].
  - apply Hp3; [apply elem_of_reverse, elem_of_seqZ; lia| |done].
    apply (Hp2 0); [lia|done|lia|by right].
  - apply HR3, (Hp2 j); [lia|done|done|left; lia].
Qed.

End Scan.

(** The distance of a voxel of the grid is below a bound on the sum of
    the extents. *)
Lemma distance_lt (vs : Q) (initValue : Qc) (sx sy sz i j k : Z) :
  (0 < vs)%Q → (vs * inject_Z (sx + sy + sz) <= initValue)%Q →
  0 ≤ i < sx → 0 ≤ j < sy → 0 ≤ k < sz →
  (distance vs (zvec i j k) < initValue)%Qc.
Proof.
  intros Hvs Hbig Hi Hj Hk. unfold Qclt, distance. rewrite this_Q2Qc.
  eapply Qle_lt_trans; [|eapply Qlt_le_trans; [|exact Hbig]].
  - apply Qmult_le_l; [done|]. apply (sqrt_le _ (i + j + k)); [lia|].
    rewrite this_norm. unfold zvec. cbn [distX distY distZ].
    rewrite !this_Q2Qc.
    rewrite <-!inject_Z_mult, <-!inject_Z_plus, <-Zle_Qle. nia.
  - apply Qmult_lt_l; [done|]. rewrite <-Zlt_Qlt. lia.
Qed.

Lemma DistanceMap_spec (bitfield : Bitfield_t) (initValue : Qc) :
  georeferenced bitfield →
  1 ≤ sizeX (container_ bitfield) → 2 ≤ sizeY (container_ bitfield) →
  2 ≤ sizeZ (container_ bitfield) →
  (∀ i j k, 0 ≤ i < sizeX (container_ bitfield) →
     0 ≤ j < sizeY (container_ bitfield) →
     0 ≤ k < sizeZ (container_ bitfield) →
     GeoVolume_get bitfield i j k = true ↔ Position i j k = Position 0 0 0) →
  (voxelSize bitfield
   * inject_Z (sizeX (container_ bitfield) + sizeY (container_ bitfield)
               + sizeZ (container_ bitfield)) <= initValue)%Q →
  ∃ dm : DistanceMap_t, DistanceMap bitfield initValue = Some dm
    ∧ ∀ i j k, 0 ≤ i < sizeX (container_ bitfield) →
        0 ≤ j < sizeY (container_ bitfield) →
        0 ≤ k < sizeZ (container_ bitfield) →
        GeoVolume_get dm i j k = distance (voxelSize bitfield) (zvec i j k).
Proof.
  intros (Hvs & Hux & Huy & Huz) Hx Hy Hz Hfeat Hbig.
  set (sx := sizeX (container_ bitfield)) in *.
  set (sy := sizeY (container_ bitfield)) in *.
  set (sz := sizeZ (container_ bitfield)) in *.
  unfold DistanceMap.
  set (this0 := GeoVolume _ _ _ initValue).
  cbv zeta.
  assert (H0x : sizeX (container_ this0) = sx)
    by (by apply count_georeferenced).
  assert (H0y : sizeY (container_ this0) = sy)
    by (by apply count_georeferenced).
  assert (H0z : sizeZ (container_ this0) = sz)
    by (by apply count_georeferenced).
  assert (H0v : valid (container_ this0)) by apply valid_new.
  change (voxelSize this0) with (voxelSize bitfield).
  rewrite H0x, H0y, H0z.
  set (infty := Q2Qc (initValue / voxelSize bitfield)).
  set (dv0 := Octree.Volume sx sy sz (DistVector_infty infty)).
  change (sizeX dv0) with sx. change (sizeY dv0) with sy.
  change (sizeZ dv0) with sz.
  assert (Hdv0 : shape sx sy sz dv0).
  { split_and!; [apply OctreeFacts.Volume_well_formed|done..|].
    intros i j k Hi Hj Hk.
    assert (Hget0 : get (dv0 : DistVectorField_t) i j k
                    = DistVector_infty infty)
      by exact (get_new (C:=DistVectorField_t) sx sy sz
                  (DistVector_infty infty) i j k).
    rewrite Hget0.
    assert (Hinf : ∀ n, n < sx + sy + sz →
              (Q2Qc (inject_Z n) ≤ infty)%Qc).
    { intros n Hn. unfold Qcle, infty. rewrite !this_Q2Qc.
      apply Qle_shift_div_l; [done|].
      eapply Qle_trans; [|exact Hbig]. rewrite (Qmult_comm (voxelSize _)).
      apply Qmult_le_compat_r; [|lra]. rewrite <-Zle_Qle. lia. }
    split_and!; simpl; apply Hinf; lia. }
  clearbody dv0.
  (* initialize vector distance field *)
  destruct (par_loop (shape sx sy sz) keeps keeps_refl keeps_trans
    (λ (dv : DistVectorField_t) (p : Position_s),
       if (GeoVolume_get bitfield (pos_x p) (pos_y p) (pos_z p) : bool)
       then set dv (pos_x p) (pos_y p) (pos_z p) (DistVector 0 0 0)
       else Some dv)
    (λ _ _, True) (λ p s, p = Position 0 0 0 → exact s 0 0 0)
    (voxels sx sy sz) dv0) as (s1 & Hrun1 & Hs1 & HR1 & Hp1);
    [done| | |done|].
  { intros p s s' HR Hq ->. by apply HR, Hq. }
  { intros s [i j k] Hp%elem_of_voxels Hss. simpl in Hp.
    cbn [pos_x pos_y pos_z].
    destruct (GeoVolume_get bitfield i j k) eqn:Hb.
    - apply Hfeat in Hb; [|lia..]. injection Hb as -> -> ->.
      destruct Hss as (Hv & Hsx & Hsy & Hsz & Hsound).
      assert (Hvv : valid s) by exact Hv.
      destruct (set_spec s 0 0 0 (DistVector 0 0 0) Hvv)
        as (s' & -> & Hv' & Hx' & Hy' & Hz' & _ & Hget).
      assert (Hin : out_of_range (sizeX s) (sizeY s) (sizeZ s) 0 0 0 = false)
        by (apply out_of_range_false; lia).
      rewrite Hin in Hget. cbn [negb andb] in Hget.
      assert (H0 : exact s' 0 0 0).
      { unfold exact. rewrite Hget. by rewrite bool_decide_eq_true_2. }
      exists s'. split_and!; [done| | |done].
      + split_and!; [done|congruence..|].
        intros i j k ? ? ?. rewrite Hget. case_bool_decide as Heq.
        * injection Heq as -> -> ->. by apply dv_le_zvec.
        * by apply Hsound.
      + intros i j k He. unfold exact in *. rewrite Hget.
        case_bool_decide as Heq; [|done]. by injection Heq as -> -> ->.
    - exists s. split_and!; [done|done|apply keeps_refl|].
      intros _ [= -> -> ->].
      assert (GeoVolume_get bitfield 0 0 0 = true)
        by (apply Hfeat; [lia..|done]).
      congruence. }
  rewrite Hrun1. cbn [mbind option_bind].
  pose proof Hs1 as (_ & _ & _ & Hz1 & _). rewrite Hz1.
  assert (H000 : exact s1 0 0 0).
  { apply (Hp1 (Position 0 0 0)); [|done..]. apply elem_of_voxels. simpl. lia. }
  (* ascending planes *)
  destruct (chain_loop (shape sx sy sz) keeps keeps_refl keeps_trans
    (λ dv k, scanXYPlane dv k ASC)
    (λ k s, ∀ i j, 0 ≤ i < sx → 0 ≤ j < sy → 1 ≤ k ∨ (i = 0 ∧ j = 0) →
            exact s i j k)
    1 (Z.to_nat (sz - 1)) s1) as (s2 & Hrun2 & Hs2 & HR2 & Hp2);
    [| |done| |].
  { intros k s s' HR Hq i j Hi Hj Hk. by apply HR, Hq. }
  { intros s k Hk Hss.
    odestruct (scanXYPlane_spec sx sy sz _ _ s k ASC)
      as (s' & Hrun & Hs' & HR & Hq); [done|done|done|lia|].
    exists s'. split_and!; [done..|].
    intros Hprev i j Hi Hj _. apply Hq; [|done..].
    right. split; [done|]. apply Hprev; [lia|lia|by right]. }
  { intros i j Hi Hj [?|[-> ->]]; [lia|done]. }
  rewrite Z2Nat.id in Hrun2, Hp2 by lia. rewrite Hrun2.
  cbn [mbind option_bind].
  pose proof Hs2 as (_ & _ & _ & Hz2 & _). rewrite Hz2.
  (* descending planes *)
  destruct (par_loop (shape sx sy sz) keeps keeps_refl keeps_trans
    (λ dv k, scanXYPlane dv k DESC)
    (λ k s, exact s 0 0 k)
    (λ k s, ∀ i j, 0 ≤ i < sx → 0 ≤ j < sy → exact s i j k)
    (reverse (seqZ 0 (sz - 1))) s2) as (s3 & Hrun3 & Hs3 & HR3 & Hp3);
    [| | |done|].
  { intros k s s' HR ?. by apply HR. }
  { intros k s s' HR Hq i j Hi Hj. by apply HR, Hq. }
  { intros s k Hk%elem_of_reverse%elem_of_seqZ Hss.
    odestruct (scanXYPlane_spec sx sy sz _ _ s k DESC)
      as (s' & Hrun & Hs' & HR & Hq); [done|done|done|lia|].
    exists s'. split_and!; [done..|].
    intros H0. apply Hq. by left. }
  rewrite Hrun3. cbn [mbind option_bind].
  assert (Hexact : ∀ i j k, 0 ≤ i < sx → 0 ≤ j < sy → 0 ≤ k < sz →
            get s3 i j k = zvec i j k).
  { intros i j k Hi Hj Hk. destruct (decide (k = 0)) as [->|Hne].
    - apply Hp3; [apply elem_of_reverse, elem_of_seqZ; lia| |done..].
      by apply HR2.
    - apply HR3, (Hp2 k); [lia|done|done|left; lia]. }
  pose proof Hs3 as (_ & -> & -> & -> & _).
  (* compute distance map based on the vector field *)
  set (D := λ i j k, distance (voxelSize bitfield) (zvec i j k)).
  destruct (par_loop
    (λ t : DistanceMap_t,
       valid (container_ t) ∧ sizeX (container_ t) = sx
       ∧ sizeY (container_ t) = sy ∧ sizeZ (container_ t) = sz
       ∧ voxelSize t = voxelSize bitfield)
    (λ t t' : DistanceMap_t,
       ∀ i j k, GeoVolume_get t i j k = D i j k →
                GeoVolume_get t' i j k = D i j k)
    (λ t i j k H, H) (λ t1 t2 t3 H12 H23 i j k H, H23 i j k (H12 i j k H))
    (λ (this : DistanceMap_t) (p : Position_s),
       if bool_decide
            (distance (voxelSize this)
               (get s3 (pos_x p) (pos_y p) (pos_z p)) < initValue)%Qc
       then GeoVolume_set this (pos_x p) (pos_y p) (pos_z p)
              (distance (voxelSize this)
                 (get s3 (pos_x p) (pos_y p) (pos_z p)))
       else Some this)
    (λ _ _, True)
    (λ p t, GeoVolume_get t (pos_x p) (pos_y p) (pos_z p)
            = D (pos_x p) (pos_y p) (pos_z p))
    (voxels sx sy sz) this0) as (dm & Hrun4 & _ & _ & Hp4);
    [done| | |done|].
  { intros p t t' HR Hq. by apply HR. }
  { intros t [i j k] Hp%elem_of_voxels (Hv & Htx & Hty & Htz & Htv).
    simpl in Hp. cbn [pos_x pos_y pos_z].
    rewrite Hexact, Htv by lia.
    rewrite bool_decide_eq_true_2
      by (apply (distance_lt _ _ sx sy sz); [done|done|lia..]).
    unfold GeoVolume_set. fold (D i j k).
    destruct (set_spec (container_ t) i j k (D i j k) Hv)
      as (c' & -> & Hv' & Hx' & Hy' & Hz' & _ & Hget).
    assert (Hin : out_of_range (sizeX (container_ t)) (sizeY (container_ t))
                    (sizeZ (container_ t)) i j k = false)
      by (apply out_of_range_false; lia).
    rewrite Hin in Hget. cbn [negb andb] in Hget.
    eexists. split; [done|]. cbn [container_ voxelSize].
    split_and!; [done|congruence..| |].
    - intros i' j' k' He. unfold GeoVolume_get in *. cbn [container_].
      rewrite Hget. case_bool_decide as Heq; [|done].
      by injection Heq as -> -> ->.
    - intros _. unfold GeoVolume_get. cbn [container_].
      rewrite Hget. by rewrite bool_decide_eq_true_2. }
  exists dm. split; [done|].
  intros i j k Hi Hj Hk.
  apply (Hp4 (Position i j k)); [|done]. apply elem_of_voxels. simpl. lia.
Qed.

End DistanceFacts.

(** Where the volume has at least two voxels along Y and along Z, the
    distance transform of a single feature is exact.  For every
    georeferenced [Bitfield_t] of [sizeX >= 1], [sizeY >= 2] and
    [sizeZ >= 2] voxels that is true at the origin of the grid and false at
    every other voxel, and every [initValue] of at least
    [voxelSize * (sizeX + sizeY + sizeZ)], the constructor
    [DistanceMap_t( bitfield, initValue )] completes and stores at every
    grid position [(i,j,k)] the value [voxelSize * sqrt(i^2 + j^2 + k^2)]. *)
Theorem distance_map_single_feature (bitfield : DistanceMap.Bitfield_t)
    (initValue : Qc) :
  georeferenced bitfield →
  1 ≤ sizeX (container_ bitfield) → 2 ≤ sizeY (container_ bitfield) →
  2 ≤ sizeZ (container_ bitfield) →
  (∀ i j k, in_volume bitfield (Position i j k) →
     GeoVolume_get bitfield i j k = true ↔ Position i j k = Position 0 0 0) →
  (voxelSize bitfield
   * inject_Z (sizeX (container_ bitfield) + sizeY (container_ bitfield)
               + sizeZ (container_ bitfield)) <= initValue)%Q →
  ∃ dm : DistanceMap.DistanceMap_t,
    DistanceMap.DistanceMap bitfield initValue = Some dm
    ∧ ∀ i j k, in_volume bitfield (Position i j k) →
        GeoVolume_get dm i j k
        = Q2Qc (voxelSize bitfield
                * DistanceMap.sqrt (inject_Z (i * i + j * j + k * k)))%Q.
Proof.
  intros Hg Hx Hy Hz Hfeat Hbig.
  destruct (DistanceFacts.DistanceMap_spec bitfield initValue)
    as (dm & Hdm & Hget); [done..| |done|].
  { intros i j k Hi Hj Hk. by apply Hfeat. }
  exists dm. split; [done|]. intros i j k (Hi & Hj & Hk). simpl in *.
  rewrite Hget by done. unfold DistanceMap.distance. do 2 f_equal.
  apply DistanceFacts.sqrt_comp. rewrite DistanceFacts.this_norm.
  unfold zvec. cbn [DistanceMap.distX DistanceMap.distY
                                  DistanceMap.distZ].
  rewrite !DistanceFacts.this_Q2Qc.
  by rewrite <-!inject_Z_mult, <-!inject_Z_plus.
Qed.

Lemma distance_map_single_feature_witness :
  ∃ (bitfield : DistanceMap.Bitfield_t) (dm : DistanceMap.DistanceMap_t),
    GeoVolume_set (GeoVolume (FPosition 0 0 0) (FPosition 1 2 2) 1 false)
      0 0 0 true = Some bitfield
    ∧ DistanceMap.DistanceMap bitfield (Q2Qc 100) = Some dm
    ∧ GeoVolume_get dm 0 1 1 = Q2Qc (1 * DistanceMap.sqrt (inject_Z 2))%Q.
Proof.
  destruct (GeoVolume_set
              (GeoVolume (FPosition 0 0 0) (FPosition 1 2 2) 1 false
                 : DistanceMap.Bitfield_t) 0 0 0 true)
    as [bitfield|] eqn:Hb; [|by vm_compute in Hb].
  vm_compute in Hb. injection Hb as <-.
  match goal with
  | |- ∃ b _, Some ?bf = Some b ∧ _ => pose (bitfield := bf)
  end.
  destruct (distance_map_single_feature bitfield (Q2Qc 100))
    as (dm & Hdm & Hget).
  - unfold georeferenced. vm_compute. repeat split; discriminate.
  - vm_compute. discriminate.
  - vm_compute. discriminate.
  - vm_compute. discriminate.
  - intros i j k (Hi & Hj & Hk). simpl in Hi, Hj, Hk.
    assert (i = 0) as -> by lia.
    assert (j = 0 ∨ j = 1) as [-> | ->] by lia;
      assert (k = 0 ∨ k = 1) as [-> | ->] by lia;
      vm_compute; split; congruence.
  - vm_compute. discriminate.
  - exists bitfield, dm. split; [reflexivity|]. split; [exact Hdm|].
    apply (Hget 0 1 1). vm_compute. repeat split; discriminate.
Defined.

(** * Positions and iterators *)

Lemma pos_eqb_eq p q : pos_eqb p q = true ↔ p = q.
Proof.
  destruct p, q. unfold pos_eqb. simpl. rewrite !andb_true_iff, !Z.eqb_eq.
  split; [intros [[-> ->] ->]; done|intros [= -> -> ->]; done].
Qed.

Lemma pos_ltb_lt p q :
  pos_ltb p q = true ↔
  pos_z p < pos_z q
  ∨ (pos_z p = pos_z q ∧ pos_y p < pos_y q)
  ∨ (pos_z p = pos_z q ∧ pos_y p = pos_y q ∧ pos_x p < pos_x q).
Proof.
  unfold pos_ltb.
  destruct (_ || _) eqn:E; [|apply orb_false_iff in E as [E1 E2];
    apply orb_false_iff in E1 as [E0 E1]].
  - apply orb_true_iff in E as [E|E]; [apply orb_true_iff in E as [E|E]|].
    + lia.
    + apply andb_true_iff in E. lia.
    + rewrite !andb_true_iff in E. lia.
  - rewrite !andb_false_iff in E1, E2. split; [done|]. lia.
Qed.

(** [Position_s::operator<] is a strict total order, as [std::set] asks of
    its keys: it is irreflexive and transitive, and of two positions either
    one is less than the other or [operator==] holds, never two of these
    at once. *)
Theorem pos_ltb_strict_total_order (p q r : Position_s) :
  pos_ltb p p = false
  ∧ (pos_ltb p q = true → pos_ltb q r = true → pos_ltb p r = true)
  ∧ (pos_ltb p q = true ∨ pos_eqb p q = true ∨ pos_ltb q p = true)
  ∧ ¬ (pos_ltb p q = true ∧ pos_ltb q p = true)
  ∧ ¬ (pos_ltb p q = true ∧ pos_eqb p q = true).
Proof.
  split_and!.
  - apply not_true_is_false. rewrite pos_ltb_lt. lia.
  - rewrite !pos_ltb_lt. lia.
  - rewrite !pos_ltb_lt, pos_eqb_eq. destruct p as [x y z], q as [x' y' z'].
    simpl.
    destruct (decide (z = z')) as [->|]; [|lia].
    destruct (decide (y = y')) as [->|]; [|lia].
    destruct (decide (x = x')) as [->|]; [|lia].
    right. by left.
  - rewrite !pos_ltb_lt. lia.
  - rewrite pos_ltb_lt, pos_eqb_eq. intros [H ->]. lia.
Qed.

Lemma it_distance_it_plus (it : Giterator_t) (count : Z) :
  it_distance (it_plus it count) it
  = if (0 <? dif_x (diff it)) || (0 <? dif_y (diff it))
       || (0 <? dif_z (diff it))
    then count else 0.
Proof.
  destruct it as [[x y z] [dx dy dz]].
  unfold it_plus, it_distance, pos_add, pos_diff, dif_scale. simpl.
  replace (x + count * dx - x) with (count * dx) by lia.
  replace (y + count * dy - y) with (count * dy) by lia.
  replace (z + count * dz - z) with (count * dz) by lia.
  destruct (0 <? dx) eqn:Hx; [apply Z.ltb_lt in Hx; apply Z.quot_mul; lia|].
  destruct (0 <? dy) eqn:Hy; [apply Z.ltb_lt in Hy; apply Z.quot_mul; lia|].
  destruct (0 <? dz) eqn:Hz; [apply Z.ltb_lt in Hz; apply Z.quot_mul; lia|].
  done.
Qed.

(** Stepping an iterator [count] times forward and [count] times back
    returns to where it was, and the index distance [operator-] between
    the stepped iterator and the original is [count] when the displacement
    has a positive component, and 0 when it has none. *)
Theorem it_plus_minus_distance (it : Giterator_t) (count : Z) :
  it_minus (it_plus it count) count = it
  ∧ it_distance (it_plus it count) it
    = if (0 <? dif_x (diff it)) || (0 <? dif_y (diff it))
         || (0 <? dif_z (diff it))
      then count else 0.
Proof.
  split; [|apply it_distance_it_plus].
  destruct it as [[x y z] [dx dy dz]].
  unfold it_minus, it_plus, pos_sub, pos_add, dif_scale. simpl.
  do 2 f_equal; lia.
Qed.

Lemma it_lt_spec (it s : Giterator_t) :
  it_lt it s = true ↔
  let df := pos_diff (pos s) (pos it) in
  (0 ≤ dif_x df * dif_x (diff it) ∧ 0 ≤ dif_y df * dif_y (diff it)
   ∧ 0 ≤ dif_z df * dif_z (diff it))
  ∧ (0 < dif_x df ∨ 0 < dif_y df ∨ dif_z df ≠ 0).
Proof.
  unfold it_lt. cbv zeta.
  set (df := pos_diff (pos s) (pos it)). clearbody df.
  destruct (_ || _) eqn:E1.
  { rewrite !orb_true_iff, !Z.ltb_lt in E1. split; [done|lia]. }
  rewrite !orb_false_iff, !Z.ltb_ge in E1.
  unfold int_to_bool, bool_to_int. rewrite !Z.gtb_ltb.
  destruct (0 <? dif_x df) eqn:Hx;
    [apply Z.ltb_lt in Hx; simpl; split; [lia|done]|].
  destruct (0 <? dif_y df) eqn:Hy;
    [apply Z.ltb_lt in Hy; simpl; split; [lia|done]|].
  apply Z.ltb_ge in Hx, Hy. simpl.
  destruct (0 <? Z.abs (dif_z df)) eqn:Hz;
    [apply Z.ltb_lt in Hz|apply Z.ltb_ge in Hz]; split; try done; lia.
Qed.

(** [operator<] between two iterators on one line of a unit displacement,
    the second [n] steps from the first: along +x, +y, +z and -z it holds
    exactly when [n] is positive, and [operator<=] exactly when [n] is not
    negative; along -x and -y [operator<] never holds. *)
Theorem it_lt_on_line (p : Position_s) (d : Displacement_s) (n : Z) :
  unit_axis d →
  let it := Giterator p d in
  let s := Giterator (pos_add p (dif_scale d n)) d in
  (d ≠ Displacement (-1) 0 0 → d ≠ Displacement 0 (-1) 0 →
   (it_lt it s = true ↔ 0 < n) ∧ (it_le it s = true ↔ 0 ≤ n))
  ∧ (d = Displacement (-1) 0 0 ∨ d = Displacement 0 (-1) 0 →
     it_lt it s = false).
Proof.
  intros Hd. unfold unit_axis in Hd. rewrite !elem_of_cons, elem_of_nil in Hd.
  destruct p as [x y z]. cbv zeta.
  unfold it_le. rewrite orb_true_iff, pos_eqb_eq, it_lt_spec.
  split.
  - intros Hx Hy.
    destruct Hd as [->|[->|[->|[->|[->|[->|[]]]]]]]; try done;
      unfold pos_diff, pos_add, dif_scale; simpl;
      (split; [lia|]); (split; [intros [?|[= ? ? ?]]; lia|]);
      intros Hn; (destruct (decide (n = 0)) as [->|];
        [right; f_equal; lia|left; lia]).
  - intros Hdd. apply not_true_is_false. rewrite it_lt_spec.
    destruct Hdd as [-> | ->]; unfold pos_diff, pos_add, dif_scale; simpl; lia.
Qed.

Lemma it_lt_on_line_witness :
  it_lt (Giterator (Position 5 0 0) (Displacement (-1) 0 0))
        (Giterator (Position 2 0 0) (Displacement (-1) 0 0)) = false
  ∧ (it_lt (Giterator (Position 2 0 0) (Displacement 1 0 0))
           (Giterator (Position 5 0 0) (Displacement 1 0 0)) = true ↔ 0 < 3).
Proof.
  split.
  - apply (it_lt_on_line (Position 5 0 0) (Displacement (-1) 0 0) 3).
    + unfold unit_axis. apply list_elem_of_further, list_elem_of_here.
    + by left.
  - apply (it_lt_on_line (Position 2 0 0) (Displacement 1 0 0) 3).
    + unfold unit_axis. apply list_elem_of_here.
    + discriminate.
    + discriminate.
Defined.

(** * Georeferencing *)

Section GeoMore.
Context {V C : Type} `{ContainerSpec V C}.
Implicit Types (g : GeoVolume_t C) (p : FPosition_s).

Lemma round_switch_floor f : round_switch (-1) f = Qfloor f.
Proof. unfold round_switch. apply c_round_inject_Z. Qed.

Lemma round_switch_ceil f : round_switch 1 f = Qceiling f.
Proof. unfold round_switch. apply c_round_inject_Z. Qed.

Lemma round_modes f :
  Qfloor f ≤ c_round f ≤ Qceiling f ∧ Qceiling f ≤ Qfloor f + 1.
Proof.
  pose proof (c_round_near f) as [H1 H2].
  pose proof (Qfloor_bounds f) as [H3 H4].
  pose proof (Qceiling_bounds f) as [H5 H6].
  split_and!; apply inject_Z_lt_inv; rewrite ?inject_Z_plus;
    change (inject_Z 1) with 1%Q; lra.
Qed.

End GeoMore.

(** The three rounding modes of [geo2grid] are ordered: on every axis the
    floor index (-1) is at most the nearest index (0), which is at most
    the ceiling index (1), and the ceiling index exceeds the floor index
    by at most one. *)
Theorem geo2grid_rounding_modes {V C : Type} `{Container V C}
    (g : GeoVolume_t C) (p : FPosition_s) :
  let lo := geo2grid g p (-1) (-1) (-1) in
  let mid := geo2grid g p 0 0 0 in
  let hi := geo2grid g p 1 1 1 in
  (pos_x lo ≤ pos_x mid ≤ pos_x hi ∧ pos_x hi ≤ pos_x lo + 1)
  ∧ (pos_y lo ≤ pos_y mid ≤ pos_y hi ∧ pos_y hi ≤ pos_y lo + 1)
  ∧ (pos_z lo ≤ pos_z mid ≤ pos_z hi ∧ pos_z hi ≤ pos_z lo + 1).
Proof.
  cbv zeta. unfold geo2grid. cbn [pos_x pos_y pos_z].
  rewrite !round_switch_floor, !round_switch_ceil.
  change (round_switch 0 ?f) with (c_round f).
  split_and!; apply round_modes.
Qed.

(** The continuous maps [geo2gridf] and [grid2geo] are inverse to each
    other on a georeferenced volume with voxels along every axis. *)
Theorem geo2gridf_grid2geo_inverse {V C : Type} `{Container V C}
    (g : GeoVolume_t C) (p : FPosition_s) :
  georeferenced g →
  0 < sizeX (container_ g) → 0 < sizeY (container_ g) →
  0 < sizeZ (container_ g) →
  fpos_eq (geo2gridf g (grid2geo_f g p)) p
  ∧ fpos_eq (grid2geo_f g (geo2gridf g p)) p.
Proof.
  intros (Hvs & Hx & Hy & Hz) Hsx Hsy Hsz.
  rewrite Zlt_Qlt in Hsx, Hsy, Hsz. change (inject_Z 0) with 0%Q in *.
  unfold fpos_eq, geo2gridf, grid2geo_f. cbn [fpos_x fpos_y fpos_z].
  assert (Haxis : ∀ l u x n : Q, (0 < n)%Q → (u == l + n * voxelSize g)%Q →
    ((l + (x + (1 # 2)) / n * (u - l) - l) / (u - l) * n - (1 # 2) == x
     ∧ l + ((x - l) / (u - l) * n - (1 # 2) + (1 # 2)) / n * (u - l) == x)%Q).
  { intros l u x n Hn Hu.
    assert (Hul : (u - l == n * voxelSize g)%Q) by lra.
    rewrite !Hul. split; field; split; lra. }
  destruct (Haxis _ _ (fpos_x p) _ Hsx Hx).
  destruct (Haxis _ _ (fpos_y p) _ Hsy Hy).
  destruct (Haxis _ _ (fpos_z p) _ Hsz Hz).
  by split_and!.
Qed.

Lemma geo2gridf_grid2geo_inverse_witness :
  let g : GeoVolume_t (Octree.Volume_t Qc) :=
    GeoVolume (FPosition 0 0 0) (FPosition 4 2 2) (1 # 2) 0%Qc in
  let p := FPosition (1 # 3) 5 (- (7 # 2)) in
  fpos_eq (geo2gridf g (grid2geo_f g p)) p
  ∧ fpos_eq (grid2geo_f g (geo2gridf g p)) p.
Proof.
  intros g p. apply (geo2gridf_grid2geo_inverse g p).
  - by apply GeoVolume_georeferenced.
  - reflexivity.
  - reflexivity.
  - reflexivity.
Defined.

(** The constructor corrects the upper corner upwards, by less than one
    voxel: on every axis the corrected upper extent is at least the
    requested one and exceeds it by less than [voxelSize]. *)
Theorem GeoVolume_corrected_extents {V C : Type} `{ContainerSpec V C}
    (lo up : FPosition_s) (voxelSize : Q) (initValue : V) :
  (0 < voxelSize)%Q →
  let g : GeoVolume_t C := GeoVolume lo up voxelSize initValue in
  (fpos_x up <= fpos_x (upper g) < fpos_x up + voxelSize
   ∧ fpos_y up <= fpos_y (upper g) < fpos_y up + voxelSize
   ∧ fpos_z up <= fpos_z (upper g) < fpos_z up + voxelSize)%Q.
Proof.
  intros Hvs g. unfold g, GeoVolume. cbn [upper fpos_x fpos_y fpos_z].
  rewrite sizeX_new, sizeY_new, sizeZ_new.
  assert (Haxis : ∀ l u : Q,
    (u <= l + inject_Z (Qceiling ((u - l) / voxelSize)) * voxelSize
       < u + voxelSize)%Q).
  { intros l u. destruct (Qceiling_bounds ((u - l) / voxelSize)) as [H1 H2].
    set (n := inject_Z (Qceiling ((u - l) / voxelSize))) in *.
    assert (Hq : ((u - l) / voxelSize * voxelSize == u - l)%Q)
      by (field; lra).
    set (q := ((u - l) / voxelSize)%Q) in *. clearbody q n.
    assert (0 <= (n - q) * voxelSize)%Q by (apply Qmult_le_0_compat; lra).
    assert (0 < (q - (n - 1)) * voxelSize)%Q
      by (apply Qmult_lt_0_compat; lra).
    split; lra. }
  split_and!; apply Haxis.
Qed.

Lemma GeoVolume_corrected_extents_witness :
  let g : GeoVolume_t (Octree.Volume_t Qc) :=
    GeoVolume (FPosition 0 0 0) (FPosition (5 # 2) 1 (1 # 3)) 1 0%Qc in
  ((5 # 2) <= fpos_x (upper g) < (5 # 2) + 1
   ∧ 1 <= fpos_y (upper g) < 1 + 1
   ∧ (1 # 3) <= fpos_z (upper g) < (1 # 3) + 1)%Q.
Proof.
  apply (GeoVolume_corrected_extents (C := Octree.Volume_t Qc)
           (FPosition 0 0 0) (FPosition (5 # 2) 1 (1 # 3)) 1 0%Qc).
  reflexivity.
Defined.

(** * Filtering in place *)

(** A loop over distinct elements each of which turns its own [pre] into
    its own [post] and leaves those of the other elements alone. *)
Lemma for_each_disjoint {A St : Type} (Inv : St → Prop)
    (pre post : A → St → Prop) (body : St → A → option St) (l : list A) :
  NoDup l →
  (∀ s a, a ∈ l → Inv s → pre a s →
     ∃ s', body s a = Some s' ∧ Inv s' ∧ post a s'
         ∧ ∀ b, b ∈ l → b ≠ a →
             (pre b s → pre b s') ∧ (post b s → post b s')) →
  ∀ s, Inv s → (∀ a, a ∈ l → pre a s) →
  ∃ s', for_each l body s = Some s' ∧ Inv s' ∧ ∀ a, a ∈ l → post a s'.
Proof.
  intros Hnd Hbody.
  assert (Hgen : ∀ rest done_, l ≡ₚ done_ ++ rest → NoDup (done_ ++ rest) →
    ∀ s, Inv s → (∀ a, a ∈ done_ → post a s) → (∀ a, a ∈ rest → pre a s) →
    ∃ s', for_each rest body s = Some s' ∧ Inv s'
        ∧ ∀ a, a ∈ done_ ++ rest → post a s').
  { induction rest as [|a rest IH]; intros done_ Hl Hnd' s Hs Hdone Hrest.
    { exists s. split_and!; [done..|]. intros a. rewrite app_nil_r. auto. }
    simpl.
    destruct (Hbody s a) as (s1 & -> & Hs1 & Hpost & Hframe).
    { rewrite Hl. apply elem_of_app. right. left. }
    { done. }
    { apply Hrest. left. }
    simpl.
    assert (Hnd1 : NoDup ((done_ ++ [a]) ++ rest)) by by rewrite <-app_assoc.
    apply NoDup_app in Hnd' as (Hnd_done & Hdisj & Hnd_rest).
    apply NoDup_cons in Hnd_rest as [Ha_rest _].
    destruct (IH (done_ ++ [a])) with (s := s1) as (s' & Hrun & Hs' & Hall).
    - by rewrite <-app_assoc.
    - done.
    - done.
    - intros b [Hb| ->%list_elem_of_singleton]%elem_of_app; [|done].
      apply Hframe; [rewrite Hl; apply elem_of_app; by left| |by apply Hdone].
      intros ->. apply (Hdisj a); [done|left].
    - intros b Hb.
      apply Hframe;
        [rewrite Hl; apply elem_of_app; right; by right|
        |apply Hrest; by right].
      intros ->. done.
    - exists s'. split_and!; [done..|]. intros b Hb. apply Hall.
      rewrite <-app_assoc. done. }
  intros s Hs Hpre.
  destruct (Hgen l [] (reflexivity _) Hnd s Hs) as (s' & ? & ? & ?);
    [by intros ? ?%elem_of_nil|done|].
  by exists s'.
Qed.

Section FilterFacts.
Context {C : Type} {HC : Container Qc C} {HS : ContainerSpec Qc C}.
Implicit Types (c cur : C) (d : Displacement_s) (s q : Position_s).

Lemma it_plus_pos s d x :
  it_plus (Giterator s d) x = Giterator (pos_add s (dif_scale d x)) d.
Proof. done. Qed.

Lemma pos_add_add s d x i :
  pos_add (pos_add s (dif_scale d x)) (dif_scale d i)
  = pos_add s (dif_scale d (x + i)).
Proof. destruct s, d. unfold pos_add, dif_scale. simpl. f_equal; lia. Qed.

Lemma gend_exact_like c cur it :
  like c cur → gend_exact cur it = gend_exact c it.
Proof.
  intros (_ & Hx & Hy & Hz). unfold gend_exact. by rewrite Hx, Hy, Hz.
Qed.

Lemma gend_like c cur it :
  like c cur → gend cur it = gend c it.
Proof. intros (_ & Hx & Hy & Hz). unfold gend. by rewrite Hx, Hy, Hz. Qed.

(** Writing the values [vals] to the positions [s + k d, s + (k+1) d, ...]
    of a line. *)
Lemma write_line c s d (vals : list Qc) :
  d ≠ Displacement 0 0 0 →
  ∀ (k : Z) cur, like c cur →
  (∀ x, k ≤ x < k + Z.of_nat (length vals) →
     out_of_range (sizeX c) (sizeY c) (sizeZ c)
       (pos_x (pos_add s (dif_scale d x))) (pos_y (pos_add s (dif_scale d x)))
       (pos_z (pos_add s (dif_scale d x))) = false) →
  ∃ cur',
    for_each (zip (seqZ k (Z.of_nat (length vals))) vals)
      (λ c xv, setValue c (it_plus (Giterator s d) xv.1) xv.2) cur
    = Some cur'
    ∧ like c cur'
    ∧ (∀ (i : nat) v, vals !! i = Some v →
         value cur' (Giterator (pos_add s (dif_scale d (k + Z.of_nat i))) d)
         = v)
    ∧ (∀ q, (∀ x, k ≤ x < k + Z.of_nat (length vals) →
               q ≠ pos_add s (dif_scale d x)) →
         get cur' (pos_x q) (pos_y q) (pos_z q)
         = get cur (pos_x q) (pos_y q) (pos_z q)).
Proof.
  intros Hd. induction vals as [|v vals IH]; intros k cur Hcur Hin.
  { exists cur. simpl. split_and!; [done..| |done]. by intros i v ?. }
  rewrite length_cons, Nat2Z.inj_succ, seqZ_cons by lia.
  replace (Z.pred (Z.succ (Z.of_nat (length vals))))
    with (Z.of_nat (length vals)) by lia.
  cbn [zip zip_with for_each]. unfold setValue at 2.
  rewrite it_plus_pos. cbn [pos fst snd].
  set (p := pos_add s (dif_scale d k)).
  pose proof Hcur as (Hv & Hx & Hy & Hz).
  destruct (set_spec cur (pos_x p) (pos_y p) (pos_z p) v Hv)
    as (cur1 & -> & Hv1 & Hx1 & Hy1 & Hz1 & _ & Hget1).
  rewrite Hx, Hy, Hz in Hget1.
  assert (Hk : out_of_range (sizeX c) (sizeY c) (sizeZ c)
                 (pos_x p) (pos_y p) (pos_z p) = false)
    by (apply Hin; rewrite length_cons; lia).
  rewrite Hk in Hget1.
  cbn [negb andb] in Hget1. cbn [mbind option_bind].
  destruct (IH (Z.succ k) cur1) as (cur' & Hrun & Hcur' & Hvals & Hrest).
  { split_and!; congruence. }
  { intros x Hx'. apply Hin. rewrite length_cons. lia. }
  exists cur'. split_and!; [done|done| |].
  - intros [|i] w Hw; simpl in Hw.
    + injection Hw as ->. rewrite Z.add_0_r. fold p. unfold value.
      cbn [pos]. rewrite (Hrest p), Hget1.
      * rewrite bool_decide_eq_true_2; [done|by destruct p].
      * intros x Hx' Heq. apply pos_add_inj in Heq; [lia|done].
    + replace (k + Z.of_nat (S i)) with (Z.succ k + Z.of_nat i) by lia.
      by apply Hvals.
  - intros q Hq. rewrite (Hrest q), Hget1.
    + rewrite bool_decide_eq_false_2; [done|].
      intros Heq. apply (Hq k); [lia|].
      destruct q; simpl in Heq. by injection Heq as -> -> ->.
    + intros x Hx'. apply Hq. lia.
Qed.

Lemma positive_unit_axis d : positive_axis d → unit_axis d.
Proof.
  unfold positive_axis, unit_axis. rewrite !elem_of_cons, !elem_of_nil.
  tauto.
Qed.

Lemma positive_axis_distance d s (n : Z) :
  positive_axis d →
  it_distance (Giterator (pos_add s (dif_scale d n)) d) (Giterator s d) = n.
Proof.
  intros Hd. rewrite <-it_plus_pos, it_distance_it_plus.
  unfold positive_axis in Hd. rewrite !elem_of_cons, elem_of_nil in Hd.
  by destruct Hd as [->|[->|[->|[]]]].
Qed.

Lemma same_line_meet c d a b m x :
  unit_axis d → a ∈ iteratorPositions c d → b ∈ iteratorPositions c d →
  pos_add b (dif_scale d m) = pos_add a (dif_scale d x) → a = b.
Proof.
  intros Hd Ha Hb Heq. apply (starts_on_distinct_lines c d); [done..|].
  exists (x - m). destruct a, b, d. unfold pos_add, dif_scale in *.
  simpl in *. injection Heq as Hx Hy Hz. f_equal; lia.
Qed.

Section Filter.
Variable convolute : Q → (Z → Qc) → Z → Z → Q.
Variable value_max value_lowest : Q.

(** Every line of a positive unit displacement is filtered from the
    values the line had before the call. *)
Lemma filterInplace_lines (cutoff : Q) d c :
  valid c → 0 < sizeX c → 0 < sizeY c → 0 < sizeZ c → positive_axis d →
  ∃ c', filterInplace convolute value_max value_lowest cutoff d c = Some c'
    ∧ like c c'
    ∧ ∀ s x, s ∈ iteratorPositions c d → 0 ≤ x < extent_along c d →
        ∃ f : Z → Qc,
          (∀ i, f i = value c (Giterator (pos_add s (dif_scale d (x + i))) d))
          ∧ value c' (Giterator (pos_add s (dif_scale d x)) d)
            = clamp value_max value_lowest
                (convolute cutoff f x (extent_along c d)).
Proof.
  intros Hv Hsx Hsy Hsz Hd. pose proof (positive_unit_axis d Hd) as Hu.
  pose proof (unit_axis_nonzero d Hu) as Hd0.
  set (n := extent_along c d).
  assert (Hn : 0 ≤ n).
  { unfold n, extent_along. repeat case_bool_decide; lia. }
  unfold filterInplace.
  destruct (for_each_disjoint (like c)
    (λ s cur, ∀ m, value cur (Giterator (pos_add s (dif_scale d m)) d)
                   = value c (Giterator (pos_add s (dif_scale d m)) d))
    (λ s cur, ∀ x, 0 ≤ x < n →
       ∃ f : Z → Qc,
         (∀ i, f i = value c (Giterator (pos_add s (dif_scale d (x + i))) d))
         ∧ value cur (Giterator (pos_add s (dif_scale d x)) d)
           = clamp value_max value_lowest (convolute cutoff f x n))
    (λ container pos,
       let sit := Giterator pos d in
       let send := gend_exact container sit in
       let rowSize := it_distance send sit in
       let filtered :=
         (λ x, Q2Qc (Qmin (Qmax (convolute cutoff
                                   (it_at container (it_plus sit x)) x rowSize)
                                value_lowest) value_max))
         <$> seqZ 0 rowSize in
       for_each (zip (seqZ 0 rowSize) filtered)
         (λ container xv, setValue container (it_plus sit xv.1) xv.2)
         container)
    (iteratorPositions c d)) with (s := c) as (c' & Hrun & Hc' & Hpost).
  - by apply NoDup_iteratorPositions.
  - intros cur s Hs Hcur Hpre. cbv zeta.
    rewrite (gend_exact_like c cur) by done.
    rewrite gend_exact_start by done. fold n.
    rewrite positive_axis_distance by done.
    set (vals := (λ x, Q2Qc _) <$> seqZ 0 n).
    assert (Hlen : Z.of_nat (length vals) = n)
      by (unfold vals; rewrite length_fmap, length_seqZ; lia).
    replace (seqZ 0 n) with (seqZ 0 (Z.of_nat (length vals)))
      by (by rewrite Hlen).
    destruct (write_line c s d vals Hd0 0 cur Hcur)
      as (cur' & -> & Hcur' & Hvals & Hrest).
    { intros x Hx. apply (lines_cover c d); [done..|].
      exists s. split; [|done]. apply elem_of_line. exists x. split; [lia|done]. }
    exists cur'. split_and!; [done|done| |].
    + intros x Hx.
      exists (it_at cur (it_plus (Giterator s d) x)). split.
      * intros i. unfold it_at. rewrite !it_plus_pos, pos_add_add.
        apply Hpre.
      * replace x with (0 + Z.of_nat (Z.to_nat x)) at 1 by lia.
        apply Hvals. unfold vals. rewrite list_lookup_fmap.
        rewrite lookup_seqZ_lt by lia. simpl. unfold clamp.
        by replace (0 + Z.of_nat (Z.to_nat x)) with x by lia.
    + intros b Hb Hne.
      assert (Hframe : ∀ m,
        value cur' (Giterator (pos_add b (dif_scale d m)) d)
        = value cur (Giterator (pos_add b (dif_scale d m)) d)).
      { intros m. unfold value. cbn [pos]. apply Hrest.
        intros x _ Heq. apply Hne.
        symmetry. by apply (same_line_meet c d s b m x). }
      split.
      * intros Hb_pre m. by rewrite Hframe.
      * intros Hb_post x Hx. destruct (Hb_post x Hx) as (f & Hf & Hval).
        exists f. split; [done|]. by rewrite Hframe.
  - by apply like_refl.
  - done.
  - exists c'. split; [exact Hrun|]. split; [done|].
    intros s x Hs Hx. by apply Hpost.
Qed.

End Filter.

End FilterFacts.

(** [filterInplace] along a positive unit displacement on a container
    with positive extents below [2^23], for a filter whose result depends
    only on the values it reads.  The end marker [gend( sit )] of every
    line, in the container and in every container of its extents, is the
    one of exact arithmetic; the call completes, keeps the container valid
    and its extents, and every voxel of every line holds afterwards the
    clamped result of the filter on the values that the line (continued
    by [initValue] out of range) had before the call. *)
Theorem filterInplace_positive_axis {C : Type} {HC : Container Qc C}
    {HS : ContainerSpec Qc C}
    (convolute : Q → (Z → Qc) → Z → Z → Q) (value_max value_lowest : Q)
    (cutoff : Q) (d : Displacement_s) (c : C) :
  (∀ (cutoff : Q) (f g : Z → Qc) (x rowSize : Z),
     (∀ i, f i = g i) →
     convolute cutoff f x rowSize = convolute cutoff g x rowSize) →
  valid c →
  0 < sizeX c < 2 ^ 23 → 0 < sizeY c < 2 ^ 23 → 0 < sizeZ c < 2 ^ 23 →
  positive_axis d →
  (∀ cur s, like c cur → s ∈ iteratorPositions c d →
     gend cur (Giterator s d) = gend_exact cur (Giterator s d))
  ∧ ∃ c', filterInplace convolute value_max value_lowest cutoff d c = Some c'
    ∧ valid c'
    ∧ sizeX c' = sizeX c ∧ sizeY c' = sizeY c ∧ sizeZ c' = sizeZ c
    ∧ ∀ s x, s ∈ iteratorPositions c d → 0 ≤ x < extent_along c d →
        value c' (it_plus (Giterator s d) x)
        = clamp value_max value_lowest
            (convolute cutoff (it_at c (it_plus (Giterator s d) x)) x
               (extent_along c d)).
Proof.
  intros Hext Hv Hsx Hsy Hsz Hd. split.
  { intros cur s Hcur Hs.
    rewrite (gend_like c cur), (gend_exact_like c cur) by done.
    apply gend_start_is_exact; [done..|by apply positive_unit_axis|done]. }
  destruct (filterInplace_lines convolute value_max value_lowest cutoff d c)
    as (c' & Hrun & (Hv' & Hx & Hy & Hz) & Hlines); [done|lia..|done|].
  exists c'. split_and!; [done..|].
  intros s x Hs Hx'. destruct (Hlines s x Hs Hx') as (f & Hf & Hval).
  rewrite it_plus_pos, Hval. f_equal. apply Hext. intros i. rewrite Hf.
  unfold it_at. by rewrite it_plus_pos, pos_add_add.
Qed.

Lemma filterInplace_positive_axis_witness :
  let c : FlatArray.VolumeArray Qc := FlatArray.Array 2 1 1 (Q2Qc 5) in
  gend c (Giterator (Position 0 0 0) (Displacement 1 0 0))
  = gend_exact c (Giterator (Position 0 0 0) (Displacement 1 0 0))
  ∧ ∃ c', filterInplace pass_through 1000 (-1000) 2 (Displacement 1 0 0) c
          = Some c'
        ∧ sizeX c' = 2
        ∧ value c' (it_plus (Giterator (Position 0 0 0) (Displacement 1 0 0)) 1)
          = clamp 1000 (-1000) 5.
Proof.
  intros c.
  destruct (filterInplace_positive_axis pass_through 1000 (-1000) 2
              (Displacement 1 0 0) c)
    as (Hend & c' & Hrun & _ & Hx & _ & _ & Hval).
  - intros cutoff f g x rowSize Hfg. unfold pass_through. by rewrite Hfg.
  - exact (valid_new (C := FlatArray.VolumeArray Qc) 2 1 1 (Q2Qc 5)).
  - simpl. lia.
  - simpl. lia.
  - simpl. lia.
  - unfold positive_axis. apply list_elem_of_here.
  - split.
    + apply Hend.
      * apply like_refl.
        exact (valid_new (C := FlatArray.VolumeArray Qc) 2 1 1 (Q2Qc 5)).
      * vm_compute. apply list_elem_of_here.
    + exists c'. split; [exact Hrun|]. split; [exact Hx|].
      rewrite (Hval (Position 0 0 0) 1).
      * reflexivity.
      * vm_compute. apply list_elem_of_here.
      * vm_compute. split; [discriminate|reflexivity].
Defined.



(** [filterInplace] along a displacement without a positive component,
    such as (-1,0,0), changes nothing: the row size [send - sit] is 0 for
    every line, so no voxel is filtered or written. *)
Theorem filterInplace_negative_axis {C : Type} {HC : Container Qc C}
    (convolute : Q → (Z → Qc) → Z → Z → Q) (value_max value_lowest : Q)
    (cutoff : Q) (d : Displacement_s) (c : C) :
  dif_x d ≤ 0 → dif_y d ≤ 0 → dif_z d ≤ 0 →
  filterInplace convolute value_max value_lowest cutoff d c = Some c.
Proof.
  intros Hx Hy Hz. unfold filterInplace.
  destruct (for_each_total (λ s, s = c) (iteratorPositions c d)
    (λ container pos,
       let sit := Giterator pos d in
       let send := gend_exact container sit in
       let rowSize := it_distance send sit in
       let filtered :=
         (λ x, Q2Qc (Qmin (Qmax (convolute cutoff
                                   (it_at container (it_plus sit x)) x rowSize)
                                value_lowest) value_max))
         <$> seqZ 0 rowSize in
       for_each (zip (seqZ 0 rowSize) filtered)
         (λ container xv, setValue container (it_plus sit xv.1) xv.2)
         container) c) as (c' & Hrun & ->); [done| |exact Hrun].
  intros cur pos ->. exists c. split; [|done]. cbv zeta.
  assert (Hrow : it_distance (gend_exact c (Giterator pos d))
                   (Giterator pos d) = 0).
  { unfold it_distance, gend_exact. cbn [diff dif_x dif_y dif_z].
    by rewrite !(proj2 (Z.ltb_ge _ _)) by done. }
  by rewrite Hrow.
Qed.

Lemma filterInplace_negative_axis_witness :
  let c : FlatArray.VolumeArray Qc := FlatArray.Array 2 1 1 (Q2Qc 5) in
  filterInplace pass_through 1 0 2 (Displacement (-1) 0 0) c = Some c.
Proof.
  intros c.
  apply (filterInplace_negative_axis pass_through 1 0 2
           (Displacement (-1) 0 0) c); simpl; lia.
Defined.

(** * Marching tetrahedra *)

Lemma opposite_sides_sym t a b : opposite_sides t a b → opposite_sides t b a.
Proof. unfold opposite_sides. tauto. Qed.

(** [interpolate] between two values on different sides of [midval]:
    the weight [alpha] of [p1]. *)
Lemma interpolate_alpha p1 v1 p2 v2 t :
  opposite_sides t v1 v2 →
  ∃ alpha : Q, (0 <= alpha <= 1)%Q
    ∧ (alpha * v1 + (1 - alpha) * v2 == t)%Q
    ∧ fpos_eq (interpolate p1 v1 p2 v2 t)
        (FPosition (fpos_x p1 * alpha + fpos_x p2 * (1 - alpha))%Q
                   (fpos_y p1 * alpha + fpos_y p2 * (1 - alpha))%Q
                   (fpos_z p1 * alpha + fpos_z p2 * (1 - alpha))%Q).
Proof.
  intros Hopp. unfold interpolate.
  assert (Hcase : (v2 < v1 ∧ v2 ≤ t ∧ t < v1)%Qc
                  ∨ (v1 < v2 ∧ v1 ≤ t ∧ t < v2)%Qc).
  { destruct Hopp as [[H1 H2]|[H1 H2]]; [right|left];
      (split; [|done]); by eapply Qcle_lt_trans. }
  destruct Hcase as [(H21 & Hl & Hu)|(H12 & Hl & Hu)].
  - rewrite bool_decide_eq_true_2 by done. cbn [fst snd].
    unfold Qclt, Qcle in *.
    set (a := ((t - v2) / (v1 - v2))%Q).
    assert (Ha : (a * (v1 - v2) == t - v2)%Q) by (unfold a; field; lra).
    clearbody a.
    exists a. split_and!; [| |lra|by unfold fpos_eq].
    + destruct (Qlt_le_dec a 0) as [Hneg|]; [|done]. exfalso.
      assert (0 < (- a) * (v1 - v2))%Q by (apply Qmult_lt_0_compat; lra).
      lra.
    + destruct (Qlt_le_dec 1 a) as [Hbig|]; [|done]. exfalso.
      assert (0 < (a - 1) * (v1 - v2))%Q by (apply Qmult_lt_0_compat; lra).
      lra.
  - rewrite bool_decide_eq_false_2
      by (intros ?; eapply Qclt_not_le; [done|by apply Qclt_le_weak]).
    cbn [fst snd]. unfold Qclt, Qcle in *.
    set (a := ((t - v1) / (v2 - v1))%Q).
    assert (Ha : (a * (v2 - v1) == t - v1)%Q) by (unfold a; field; lra).
    clearbody a.
    exists (1 - a)%Q. split_and!; [| |lra|].
    + destruct (Qlt_le_dec 1 a) as [Hbig|]; [|lra]. exfalso.
      assert (0 < (a - 1) * (v2 - v1))%Q by (apply Qmult_lt_0_compat; lra).
      lra.
    + destruct (Qlt_le_dec a 0) as [Hneg|]; [|lra]. exfalso.
      assert (0 < (- a) * (v2 - v1))%Q by (apply Qmult_lt_0_compat; lra).
      lra.
    + unfold fpos_eq. cbn [fpos_x fpos_y fpos_z]. split_and!; ring.
Qed.

Lemma interpolate_on_segment p1 v1 p2 v2 t :
  opposite_sides t v1 v2 → on_segment (interpolate p1 v1 p2 v2 t) p1 p2.
Proof.
  intros (alpha & Ha & _ & Hp)%(interpolate_alpha p1 v1 p2 v2 t).
  by exists alpha.
Qed.

Lemma interpolate_sym p1 v1 p2 v2 t :
  v1 ≠ v2 →
  fpos_eq (interpolate p1 v1 p2 v2 t) (interpolate p2 v2 p1 v1 t).
Proof.
  intros Hne. unfold interpolate.
  destruct (Qclt_le_dec v2 v1) as [H21|H12].
  - rewrite bool_decide_eq_true_2 by done.
    rewrite bool_decide_eq_false_2
      by (intros ?; eapply Qclt_not_le; [done|by apply Qclt_le_weak]).
    unfold fpos_eq. cbn [fst snd fpos_x fpos_y fpos_z]. split_and!; ring.
  - assert (v1 < v2)%Qc.
    { apply Qcle_lt_or_eq in H12 as [|Heq]; [done|]. by destruct Hne. }
    rewrite bool_decide_eq_false_2 by (by apply Qcle_not_lt).
    rewrite bool_decide_eq_true_2 by done.
    unfold fpos_eq. cbn [fst snd fpos_x fpos_y fpos_z]. split_and!; ring.
Qed.

(** [interpolate] between two points whose values lie on different sides
    of [midval] returns a point of the segment between them, the one at
    which the value, taken linear along the segment, is [midval]; and it
    returns the same point when the two ends are exchanged. *)
Theorem interpolate_crossing (p1 : FPosition_s) (value1 : Qc)
    (p2 : FPosition_s) (value2 : Qc) (midval : Qc) :
  opposite_sides midval value1 value2 →
  (∃ alpha : Q, (0 <= alpha <= 1)%Q
     ∧ (alpha * value1 + (1 - alpha) * value2 == midval)%Q
     ∧ fpos_eq (interpolate p1 value1 p2 value2 midval)
         (FPosition (fpos_x p1 * alpha + fpos_x p2 * (1 - alpha))%Q
                    (fpos_y p1 * alpha + fpos_y p2 * (1 - alpha))%Q
                    (fpos_z p1 * alpha + fpos_z p2 * (1 - alpha))%Q))
  ∧ fpos_eq (interpolate p1 value1 p2 value2 midval)
            (interpolate p2 value2 p1 value1 midval).
Proof.
  intros Hopp. split; [by apply interpolate_alpha|].
  apply interpolate_sym. intros ->.
  destruct Hopp as [[H1 H2]|[H1 H2]]; by eapply Qcle_not_lt.
Qed.

Lemma interpolate_crossing_witness :
  fpos_eq (interpolate (FPosition 0 0 0) (Q2Qc 1) (FPosition 4 0 0) (Q2Qc 5)
             (Q2Qc 2))
          (interpolate (FPosition 4 0 0) (Q2Qc 5) (FPosition 0 0 0) (Q2Qc 1)
             (Q2Qc 2)).
Proof.
  apply (interpolate_crossing (FPosition 0 0 0) (Q2Qc 1) (FPosition 4 0 0)
           (Q2Qc 5) (Q2Qc 2)).
  left. split; [discriminate|reflexivity].
Defined.

Lemma le_as_negb (t v : Qc) :
  bool_decide (v ≤ t)%Qc = negb (bool_decide (t < v)%Qc).
Proof.
  destruct (Qclt_le_dec t v) as [Hlt|Hle].
  - rewrite bool_decide_eq_false_2, bool_decide_eq_true_2;
      [done|done|by apply Qclt_not_le].
  - rewrite bool_decide_eq_true_2, bool_decide_eq_false_2;
      [done|by apply Qcle_not_lt|done].
Qed.

Lemma side_sound (t v : Qc) :
  if bool_decide (t < v)%Qc then (t < v)%Qc else (v ≤ t)%Qc.
Proof.
  case_bool_decide as H; [done|]. by apply Qcnot_lt_le.
Qed.

Lemma above_bools (t v0 v1 v2 v3 : Qc) :
  above t [v0; v1; v2; v3]
  = (Nat.b2n (bool_decide (t < v0)%Qc) + Nat.b2n (bool_decide (t < v1)%Qc)
     + Nat.b2n (bool_decide (t < v2)%Qc)
     + Nat.b2n (bool_decide (t < v3)%Qc))%nat.
Proof.
  unfold above.
  assert (Hcons : ∀ v vs,
    length (filter (λ v, (t < v)%Qc) (v :: vs))
    = (Nat.b2n (bool_decide (t < v)%Qc)
       + length (filter (λ v, (t < v)%Qc) vs))%nat).
  { intros v vs. case_bool_decide.
    - by rewrite filter_cons_True.
    - by rewrite filter_cons_False. }
  rewrite !Hcons. simpl. lia.
Qed.

Ltac solve_elem_of :=
  repeat first [apply list_elem_of_here | apply list_elem_of_further].

Lemma is_min_eq o :
  bool_decide (o = TO_MIN) = match o with TO_MIN => true | TO_MAX => false end.
Proof. by destruct o. Qed.

Lemma is_max_eq o :
  bool_decide (o = TO_MAX) = match o with TO_MIN => false | TO_MAX => true end.
Proof. by destruct o. Qed.

(** [isoFromTetrahedron] in continuation-passing form: whatever holds of
    [retval] extended by crossing points of the right number holds of the
    result. *)
Lemma isoFromTetrahedron_cps (P : list FPosition_s → Prop)
    retval vx0 v0 vx1 v1 vx2 v2 vx3 v3 t o :
  (∀ out,
     length out = triangle_points (above t [v0; v1; v2; v3]) →
     Forall (crossing_point t [(vx0, v0); (vx1, v1); (vx2, v2); (vx3, v3)])
            out →
     P (retval ++ out)) →
  P (isoFromTetrahedron retval vx0 v0 vx1 v1 vx2 v2 vx3 v3 t o).
Proof.
  unfold triangle_points. rewrite above_bools. intros HP.
  pose proof (side_sound t v0) as H0. pose proof (side_sound t v1) as H1.
  pose proof (side_sound t v2) as H2. pose proof (side_sound t v3) as H3.
  set (corners := [(vx0, v0); (vx1, v1); (vx2, v2); (vx3, v3)]) in *.
  assert (Hi : ∀ pa va pb vb,
    (pa, va) ∈ corners → (pb, vb) ∈ corners →
    opposite_sides t va vb →
    crossing_point t corners (interpolate pa va pb vb t)).
  { intros pa va pb vb Ha Hb Hopp. exists (pa, va), (pb, vb).
    split_and!; [done|done|done|split_and!; reflexivity
                |by apply interpolate_on_segment]. }
  assert (Hc0 : (vx0, v0) ∈ corners) by (subst corners; solve_elem_of).
  assert (Hc1 : (vx1, v1) ∈ corners) by (subst corners; solve_elem_of).
  assert (Hc2 : (vx2, v2) ∈ corners) by (subst corners; solve_elem_of).
  assert (Hc3 : (vx3, v3) ∈ corners) by (subst corners; solve_elem_of).
  clearbody corners.
  cbv beta delta [isoFromTetrahedron].
  repeat lazymatch goal with
  | |- P (let x := ?v in @?b x) =>
      change (let x := v in P (b x)); intros ?; cbv beta
  end.
  subst case side; cbv beta iota.
  rewrite !le_as_negb, is_min_eq, is_max_eq.
  repeat match goal with
  | i := interpolate _ _ _ _ _ |- _ => subst i
  end.
  destruct (bool_decide (t < v0)%Qc), (bool_decide (t < v1)%Qc),
    (bool_decide (t < v2)%Qc), (bool_decide (t < v3)%Qc), o.
  all: cbv beta iota zeta delta [negb andb orb Nat.b2n Nat.add] in *.
  all: first [apply (HP (_ :: _)) | rewrite <-(app_nil_r retval); apply HP];
    [reflexivity|].
  all: repeat (apply Forall_cons; split;
            [apply Hi; [assumption|assumption|first [by left|by right]]|]).
  all: by apply Forall_nil.
Qed.

(** What [isoFromTetrahedron] appends. *)
Lemma isoFromTetrahedron_out retval vx0 v0 vx1 v1 vx2 v2 vx3 v3 t o :
  ∃ out,
    isoFromTetrahedron retval vx0 v0 vx1 v1 vx2 v2 vx3 v3 t o = retval ++ out
    ∧ length out = triangle_points (above t [v0; v1; v2; v3])
    ∧ Forall (crossing_point t [(vx0, v0); (vx1, v1); (vx2, v2); (vx3, v3)])
             out.
Proof.
  apply (isoFromTetrahedron_cps (λ r, ∃ out, r = retval ++ out ∧ _ ∧ _)).
  intros out Hlen Hout. by exists out.
Qed.

(** [isoFromTetrahedron] appends to [retval] no point, three or six,
    by the number of the four values above the threshold, whatever the
    orientation; each of the points is where the linear interpolation of
    the values along an edge of the tetrahedron, between two corners whose
    values lie on different sides of the threshold, meets the threshold,
    and lies on that edge. *)
Theorem isoFromTetrahedron_triangles retval vx0 v0 vx1 v1 vx2 v2 vx3 v3 t o :
  ∃ out,
    isoFromTetrahedron retval vx0 v0 vx1 v1 vx2 v2 vx3 v3 t o = retval ++ out
    ∧ length out = match above t [v0; v1; v2; v3] with
                   | 0 | 4 => 0
                   | 2 => 6
                   | _ => 3
                   end%nat
    ∧ Forall (crossing_point t [(vx0, v0); (vx1, v1); (vx2, v2); (vx3, v3)])
             out.
Proof. apply isoFromTetrahedron_out. Qed.

Lemma crossing_point_mono t corners corners' p :
  corners ⊆ corners' → crossing_point t corners p →
  crossing_point t corners' p.
Proof.
  intros Hsub (a & b & Ha & Hb & H). exists a, b.
  split_and!; [by apply Hsub|by apply Hsub|apply H..].
Qed.

Section TetrahedronFacts.
Context {C : Type} {HC : Container Qc C}.
Implicit Types (f : GeoVolume_t C) (cell : Position_s).

Lemma cellTetrahedrons_out f t o retval cell :
  ∃ out,
    cellTetrahedrons f t o retval cell = retval ++ out
    ∧ length out = cell_points f t cell
    ∧ Forall (crossing_point t (cell_corners f cell)) out.
Proof.
  unfold cellTetrahedrons. cbv zeta. cbn [fst snd].
  repeat match goal with
  | |- context [isoFromTetrahedron ?r ?a ?va ?b ?vb ?c ?vc ?d ?vd t o] =>
      lazymatch r with
      | context [isoFromTetrahedron] => fail
      | _ =>
          let out := fresh "out" in
          let E := fresh "E" in
          destruct (isoFromTetrahedron_out r a va b vb c vc d vd t o)
            as (out & E & ? & ?);
          rewrite E; clear E
      end
  end.
  exists (out ++ out0 ++ out1 ++ out2 ++ out3 ++ out4).
  rewrite <-!app_assoc. split; [done|]. split.
  - rewrite !length_app. unfold cell_points, cell_tetrahedrons, cell_corner.
    cbn [fmap list_fmap sum_list_with fst snd id]. lia.
  - rewrite !Forall_app.
    split_and!;
      (eapply Forall_impl; [eassumption|]; intros p;
       apply crossing_point_mono; intros x Hx;
       rewrite !elem_of_cons, elem_of_nil in Hx;
       unfold cell_corners, cell_corner;
       cbn [fmap list_fmap fst snd];
       destruct Hx as [->|[->|[->|[->|[]]]]]; solve_elem_of).
Qed.

Lemma foldl_cellTetrahedrons f t o cs retval :
  ∃ out,
    foldl (cellTetrahedrons f t o) retval cs = retval ++ out
    ∧ length out = sum_list (cell_points f t <$> cs)
    ∧ Forall (λ p, ∃ cell, cell ∈ cs
                           ∧ crossing_point t (cell_corners f cell) p) out.
Proof.
  revert retval. induction cs as [|cell cs IH]; intros retval.
  { exists []. by rewrite app_nil_r. }
  cbn [foldl].
  destruct (cellTetrahedrons_out f t o retval cell) as (out1 & -> & Hl1 & Hc1).
  destruct (IH (retval ++ out1)) as (out2 & -> & Hl2 & Hc2).
  exists (out1 ++ out2). rewrite <-app_assoc. split; [done|]. split.
  - rewrite length_app, Hl1, Hl2. done.
  - apply Forall_app. split.
    + eapply Forall_impl; [exact Hc1|]. intros p Hp. exists cell.
      split; [apply list_elem_of_here|done].
    + eapply Forall_impl; [exact Hc2|]. intros p (cell' & Hin & Hp).
      exists cell'. split; [by apply list_elem_of_further|done].
Qed.

Lemma elem_of_cells sx sy sz cell :
  cell ∈ cells sx sy sz
  ↔ -1 ≤ pos_x cell < sx ∧ -1 ≤ pos_y cell < sy ∧ -1 ≤ pos_z cell < sz.
Proof.
  unfold cells. split.
  - intros (i & (j & (k & Hc & Hk)%list_elem_of_bind & Hj)%list_elem_of_bind
              & Hi)%list_elem_of_bind.
    apply list_elem_of_singleton in Hc as ->.
    apply elem_of_seqZ in Hi, Hj, Hk. simpl. lia.
  - destruct cell as [i j k]. simpl. intros (Hi & Hj & Hk).
    apply list_elem_of_bind. exists i. split; [|apply elem_of_seqZ; lia].
    apply list_elem_of_bind. exists j. split; [|apply elem_of_seqZ; lia].
    apply list_elem_of_bind. exists k. split; [|apply elem_of_seqZ; lia].
    apply list_elem_of_here.
Qed.

Lemma triangle_points_multiple n : ∃ m, triangle_points n = (3 * m)%nat.
Proof.
  destruct n as [|[|[|[|[|n]]]]]; simpl;
    [by exists 0%nat|by exists 1%nat|by exists 2%nat|by exists 1%nat
    |by exists 0%nat|by exists 1%nat].
Qed.

Lemma sum_list_multiple (l : list nat) :
  Forall (λ n, ∃ m, n = (3 * m)%nat) l → ∃ m, sum_list l = (3 * m)%nat.
Proof.
  induction 1 as [|n l [m' ->] _ [m IH]]; [by exists 0%nat|].
  cbn [sum_list_with id]. rewrite IH. exists (m' + m)%nat. lia.
Qed.

Lemma cell_points_multiple f t cell :
  ∃ m, cell_points f t cell = (3 * m)%nat.
Proof.
  unfold cell_points. apply sum_list_multiple, Forall_fmap, Forall_forall.
  intros [[[p q] r] s] _. apply triangle_points_multiple.
Qed.

Lemma opposite_sides_bool t (a b : Qc) :
  opposite_sides t a b ↔ bool_decide (t < a)%Qc ≠ bool_decide (t < b)%Qc.
Proof.
  unfold opposite_sides.
  pose proof (side_sound t a) as Ha. pose proof (side_sound t b) as Hb.
  destruct (bool_decide (t < a)%Qc), (bool_decide (t < b)%Qc); split;
    try done.
  - intros [[H _]|[H _]]; [by apply Qcle_not_lt in H..].
  - intros _. by right.
  - intros _. by left.
  - intros [[_ H]|[_ H]]; [by apply Qcle_not_lt in Hb|by apply Qcle_not_lt in Ha].
Qed.

Lemma triangle_points_zero t (v0 v1 v2 v3 : Qc) :
  triangle_points (above t [v0; v1; v2; v3]) = 0%nat
  ↔ bool_decide (t < v1)%Qc = bool_decide (t < v0)%Qc
    ∧ bool_decide (t < v2)%Qc = bool_decide (t < v0)%Qc
    ∧ bool_decide (t < v3)%Qc = bool_decide (t < v0)%Qc.
Proof.
  rewrite above_bools.
  destruct (bool_decide (t < v0)%Qc), (bool_decide (t < v1)%Qc),
    (bool_decide (t < v2)%Qc), (bool_decide (t < v3)%Qc); simpl;
    split; (done || by intros (? & ? & ?)).
Qed.

Lemma cell_points_zero f t cell :
  cell_points f t cell = 0%nat
  ↔ ∀ a b, a ∈ cell_corners f cell → b ∈ cell_corners f cell →
           ¬ opposite_sides t a.2 b.2.
Proof.
  unfold cell_points, cell_tetrahedrons, cell_corners.
  cbn [fmap list_fmap sum_list_with id].
  assert (Hsum : ∀ a b c d e g : nat,
    (a + (b + (c + (d + (e + (g + 0))))) = 0)%nat
    ↔ a = 0%nat ∧ b = 0%nat ∧ c = 0%nat ∧ d = 0%nat ∧ e = 0%nat
      ∧ g = 0%nat) by (intros; lia).
  rewrite Hsum, !triangle_points_zero. clear Hsum.
  split.
  - intros ((? & ? & ?) & (? & ? & ?) & (? & ? & ?) & (? & ? & ?)
            & (? & ? & ?) & (? & ? & ?)) a b Ha Hb.
    rewrite opposite_sides_bool.
    rewrite !elem_of_cons, elem_of_nil in Ha, Hb.
    destruct Ha as [->|[->|[->|[->|[->|[->|[->|[->|[]]]]]]]]];
      destruct Hb as [->|[->|[->|[->|[->|[->|[->|[->|[]]]]]]]]];
      intros Hne; apply Hne; congruence.
  - intros H.
    assert (Hs : ∀ d : Z * Z * Z,
      cell_corner f cell d
      ∈ [cell_corner f cell (0, 0, 0); cell_corner f cell (1, 0, 0);
         cell_corner f cell (0, 1, 0); cell_corner f cell (1, 1, 0);
         cell_corner f cell (0, 0, 1); cell_corner f cell (1, 0, 1);
         cell_corner f cell (0, 1, 1); cell_corner f cell (1, 1, 1)] →
      let v0 := (cell_corner f cell (0, 0, 0)).2 in
      bool_decide (t < (cell_corner f cell d).2)%Qc
      = bool_decide (t < v0)%Qc).
    { intros d Hd. cbv zeta.
      match goal with |- ?x = ?y => destruct (decide (x = y)) as [|Hne] end;
        [done|].
      apply opposite_sides_bool in Hne. exfalso. revert Hne.
      apply H; [done|]. apply list_elem_of_here. }
    split_and!; apply Hs; solve_elem_of.
Qed.

Lemma sum_list_zero (l : list nat) : sum_list l = 0%nat ↔ Forall (λ n, n = 0%nat) l.
Proof.
  induction l as [|n l IH]; [done|]. cbn [sum_list_with id].
  rewrite Forall_cons, <-IH. lia.
Qed.

Lemma isosurfaceTetrahedrons_spec f t o :
  let cs := cells (sizeX (container_ f)) (sizeY (container_ f))
                  (sizeZ (container_ f)) in
  length (isosurfaceTetrahedrons f t o) = sum_list (cell_points f t <$> cs)
  ∧ Forall (λ p, ∃ cell, cell ∈ cs
                         ∧ crossing_point t (cell_corners f cell) p)
           (isosurfaceTetrahedrons f t o).
Proof.
  intros cs. unfold isosurfaceTetrahedrons. fold cs.
  by destruct (foldl_cellTetrahedrons f t o cs []) as (out & -> & Hl & Hc).
Qed.

End TetrahedronFacts.

(** [isosurfaceTetrahedrons] returns a triangle soup: the number of its
    points is a multiple of three, and each point is where the linear
    interpolation of the values, along a segment between two corners of
    one cell of the lattice of voxel centres (extended by one layer of
    [initValue] around the volume) whose values lie on different sides of
    the threshold, meets the threshold; the point lies on that
    segment. *)
Theorem isosurfaceTetrahedrons_triangles {C : Type} {HC : Container Qc C}
    (f : GeoVolume_t C) (threshold : Qc) (orientation : SurfaceOrientation_t) :
  let stream := isosurfaceTetrahedrons f threshold orientation in
  (∃ n, length stream = (3 * n)%nat)
  ∧ Forall (λ p, ∃ cell,
              (-1 ≤ pos_x cell < sizeX (container_ f)
               ∧ -1 ≤ pos_y cell < sizeY (container_ f)
               ∧ -1 ≤ pos_z cell < sizeZ (container_ f))
              ∧ crossing_point threshold (cell_corners f cell) p)
           stream.
Proof.
  intros stream.
  destruct (isosurfaceTetrahedrons_spec f threshold orientation) as [Hl Hc].
  split.
  - fold stream in Hl. rewrite Hl.
    apply sum_list_multiple, Forall_fmap, Forall_forall.
    intros cell _. apply cell_points_multiple.
  - eapply Forall_impl; [exact Hc|]. intros p (cell & Hin & Hp).
    exists cell. by rewrite <-elem_of_cells.
Qed.

(** [isosurfaceTetrahedrons] returns no triangle exactly when no cell of
    the lattice of voxel centres (extended by one layer of [initValue]
    around the volume) has two corners whose values lie on different
    sides of the threshold; the orientation plays no part in it. *)
Theorem isosurfaceTetrahedrons_empty_iff {C : Type} {HC : Container Qc C}
    (f : GeoVolume_t C) (threshold : Qc) (orientation : SurfaceOrientation_t) :
  isosurfaceTetrahedrons f threshold orientation = []
  ↔ ∀ cell a b,
      -1 ≤ pos_x cell < sizeX (container_ f) →
      -1 ≤ pos_y cell < sizeY (container_ f) →
      -1 ≤ pos_z cell < sizeZ (container_ f) →
      a ∈ cell_corners f cell → b ∈ cell_corners f cell →
      ¬ opposite_sides threshold a.2 b.2.
Proof.
  destruct (isosurfaceTetrahedrons_spec f threshold orientation) as [Hl _].
  rewrite <-length_zero_iff_nil, Hl, sum_list_zero, Forall_fmap, Forall_forall.
  split.
  - intros H cell a b Hx Hy Hz. apply cell_points_zero, H, elem_of_cells.
    done.
  - intros H cell (Hx & Hy & Hz)%elem_of_cells. apply cell_points_zero.
    intros a b. by apply H.
Qed.

(** * Meshes of the extracted surfaces *)

Section MeshMore.
Implicit Types (st : Mesh * gmap Point3 nat) (stream : list FPosition_s).

Lemma vertexIndex_grow pVertex st :
  mesh_inv st →
  let r := vertexIndex pVertex st in
  (∃ ext, vertices r.2.1 = vertices st.1 ++ ext)
  ∧ (∀ p, p ∈ vertices r.2.1 ↔ p ∈ vertices st.1 ∨ p = pVertex).
Proof.
  destruct st as [ret vidMap]. intros [Hmap _]. simpl in *.
  unfold vertexIndex. destruct (vidMap !! pVertex) as [idx|] eqn:Hl; simpl.
  - split; [exists []; by rewrite app_nil_r|]. intros p. split; [by left|].
    intros [Hp| ->]; [done|]. apply Hmap in Hl.
    by eapply list_elem_of_lookup_2.
  - split; [by eexists|]. intros p.
    rewrite elem_of_app, list_elem_of_singleton. done.
Qed.

Lemma face_points_extend (m m' : Mesh) ext fc :
  vertices m' = vertices m ++ ext →
  (face_a fc < length (vertices m))%nat →
  (face_b fc < length (vertices m))%nat →
  (face_c fc < length (vertices m))%nat →
  face_points m' fc = face_points m fc.
Proof.
  intros Hv Ha Hb Hc. unfold face_points.
  by rewrite Hv, !lookup_app_l by done.
Qed.

Lemma mesh_inv_inj st i j p :
  mesh_inv st → vertices st.1 !! i = Some p → vertices st.1 !! j = Some p →
  i = j.
Proof. intros [Hmap _] Hi%Hmap Hj%Hmap. congruence. Qed.

Lemma reconstructFace_reconstructed stream done st face :
  reconstructed stream done st →
  reconstructed stream (done ++ [face]) (reconstructFace stream st face).
Proof.
  intros (Hst & Hfaces & Hverts).
  pose proof (reconstructFace_inv stream st face Hst) as Hinv'.
  revert Hinv'. unfold reconstructFace.
  set (p0 := toPoint3 _). set (p1 := toPoint3 _). set (p2 := toPoint3 _).
  assert (Htr : triangle stream face = (p0, p1, p2)) by done.
  destruct (vertexIndex_inv p0 st Hst) as (H0 & Hv0 & Hf0 & _).
  destruct (vertexIndex_grow p0 st Hst) as ([e0 He0] & Hs0).
  destruct (vertexIndex p0 st) as [i0 st0]. simpl in *.
  destruct (vertexIndex_inv p1 st0 H0) as (H1 & Hv1 & Hf1 & _).
  destruct (vertexIndex_grow p1 st0 H0) as ([e1 He1] & Hs1).
  destruct (vertexIndex p1 st0) as [i1 st1]. simpl in *.
  destruct (vertexIndex_inv p2 st1 H1) as (H2 & Hv2 & Hf2 & _).
  destruct (vertexIndex_grow p2 st1 H1) as ([e2 He2] & Hs2).
  destruct (vertexIndex p2 st1) as [i2 st2]. simpl in *.
  assert (Hext : vertices st2.1 = vertices st.1 ++ (e0 ++ e1 ++ e2)).
  { by rewrite He2, He1, He0, <-!app_assoc. }
  assert (Hl0 : vertices st2.1 !! i0 = Some p0).
  { rewrite He2, He1. by do 2 apply lookup_app_l_Some. }
  assert (Hl1 : vertices st2.1 !! i1 = Some p1).
  { rewrite He2. by apply lookup_app_l_Some. }
  assert (Hold : face_points st2.1 <$> faces st.1
                 = face_points st.1 <$> faces st.1).
  { apply Forall_fmap_ext_1. destruct Hst as [_ Hst].
    eapply Forall_impl; [exact Hst|]. simpl. intros fc (_ & ? & ? & ?).
    by eapply face_points_extend. }
  assert (Hvs : ∀ p, p ∈ vertices st2.1
    ↔ ∃ tr, tr ∈ triangle stream <$> done ++ [face]
            ∧ (p = tr.1.1 ∨ p = tr.1.2 ∨ p = tr.2)).
  { intros p. rewrite Hs2, Hs1, Hs0, Hverts. split.
    - intros [[[Hp|Hp]|Hp]|Hp].
      + destruct Hp as (tr & Htr' & Hp). exists tr. split; [|done]. rewrite fmap_app, elem_of_app. by left.
      + exists (p0, p1, p2). rewrite fmap_app, elem_of_app. simpl.
        split; [right; rewrite Htr; apply list_elem_of_here|by left].
      + exists (p0, p1, p2). rewrite fmap_app, elem_of_app. simpl.
        split; [right; rewrite Htr; apply list_elem_of_here|by right; left].
      + exists (p0, p1, p2). rewrite fmap_app, elem_of_app. simpl.
        split; [right; rewrite Htr; apply list_elem_of_here|by right; right].
    - intros (tr & Hin & Hp). rewrite fmap_app, elem_of_app in Hin.
      destruct Hin as [Hin|Hin].
      + left; left; left. by exists tr.
      + simpl in Hin. apply list_elem_of_singleton in Hin.
        rewrite Htr in Hin. subst tr. simpl in Hp.
        destruct Hp as [->|[->| ->]];
          [by left; left; right|by left; right|by right]. }
  unfold reconstructed.
  destruct (bool_decide (i0 = i1) || _ || _) eqn:Hdeg; intros Hinv'.
  - (* a degenerate triangle: no face *)
    split; [done|]. split; [|done].
    rewrite fmap_app, filter_app. simpl. rewrite Htr.
    rewrite Hf2, Hf1, Hf0, Hold, Hfaces.
    rewrite filter_cons_False, filter_nil, app_nil_r; [done|].
    intros (Hab & Hac & Hbc). simpl in *.
    rewrite !orb_true_iff, !bool_decide_eq_true in Hdeg.
    destruct Hdeg as [[->| ->]| ->]; congruence.
  - rewrite !orb_false_iff, !bool_decide_eq_false in Hdeg.
    destruct Hdeg as [[Hab Hac] Hbc].
    split; [done|]. split; [|done].
    change (face_points (addFace st2.1 i0 i1 i2, st2.2).1)
      with (face_points st2.1).
    rewrite (fmap_app (triangle stream)), filter_app. simpl. rewrite Htr.
    rewrite !fmap_app, Hf2, Hf1, Hf0, Hold, Hfaces. simpl.
    rewrite filter_cons_True, filter_nil.
    + f_equal. unfold face_points. simpl. by rewrite Hl0, Hl1, Hv2.
    + split_and!; simpl; intros Heq.
      * apply Hab, (mesh_inv_inj st2 i0 i1 p0 H2 Hl0). by rewrite Heq.
      * apply Hac, (mesh_inv_inj st2 i0 i2 p0 H2 Hl0). by rewrite Heq.
      * apply Hbc, (mesh_inv_inj st2 i1 i2 p1 H2 Hl1). by rewrite Heq.
Qed.

Lemma foldl_reconstructed stream l done st :
  reconstructed stream done st →
  reconstructed stream (done ++ l) (foldl (reconstructFace stream) st l).
Proof.
  revert done st. induction l as [|face l IH]; intros done st Hst.
  { by rewrite app_nil_r. }
  simpl. rewrite (assoc_L _ done [face] l : done ++ face :: l = _).
  apply IH. by apply reconstructFace_reconstructed.
Qed.

Lemma reconstructFaces_reconstructed stream :
  reconstructed stream (seq 0 (length stream / 3))
    (foldl (reconstructFace stream) (mkMesh [] [], ∅)
           (seq 0 (length stream / 3))).
Proof.
  apply (foldl_reconstructed stream _ []). split_and!; simpl.
  - split; simpl; [|done]. intros p i. by rewrite lookup_empty, lookup_nil.
  - done.
  - intros p. split; [by intros ?%elem_of_nil|].
    by intros (tr & ?%elem_of_nil & _).
Qed.

End MeshMore.

Lemma triangles_points stream n p :
  length stream = (3 * n)%nat →
  (∃ tr, tr ∈ triangles stream ∧ (p = tr.1.1 ∨ p = tr.1.2 ∨ p = tr.2))
  ↔ p ∈ toPoint3 <$> stream.
Proof.
  intros Hlen. unfold triangles.
  assert (Hdiv : (length stream / 3 = n)%nat).
  { rewrite Hlen, Nat.mul_comm. by apply Nat.div_mul. }
  rewrite Hdiv. split.
  - intros (tr & (k & -> & Hk)%list_elem_of_fmap & Hp).
    apply elem_of_seq in Hk. unfold triangle in Hp. simpl in Hp.
    assert (Hv : ∀ v, (v < 3)%nat →
      toPoint3 (default (FPosition 0 0 0) (stream !! (k * 3 + v)%nat))
      ∈ toPoint3 <$> stream).
    { intros v Hv.
      destruct (lookup_lt_is_Some_2 stream (k * 3 + v)) as [q Hq]; [lia|].
      rewrite Hq. simpl. apply list_elem_of_fmap. exists q.
      split; [done|]. by eapply list_elem_of_lookup_2. }
    destruct Hp as [->|[->| ->]]; apply Hv; lia.
  - intros (q & -> & (i & Hi)%list_elem_of_lookup_1)%list_elem_of_fmap.
    pose proof (lookup_lt_Some _ _ _ Hi) as Hlt.
    exists (triangle stream (i / 3)). split.
    + apply list_elem_of_fmap. exists (i / 3)%nat. split; [done|].
      apply elem_of_seq. split; [lia|]. change (0 + n)%nat with n.
      apply Nat.Div0.div_lt_upper_bound. lia.
    + pose proof (Nat.div_mod_eq i 3) as Hdm.
      pose proof (Nat.mod_upper_bound i 3) as Hm.
      unfold triangle. cbn [fst snd].
      destruct (i mod 3)%nat as [|[|[|v]]] eqn:Hv; [| | |lia].
      * left. replace (i / 3 * 3 + 0)%nat with i by lia. by rewrite Hi.
      * right; left. replace (i / 3 * 3 + 1)%nat with i by lia.
        by rewrite Hi.
      * right; right. replace (i / 3 * 3 + 2)%nat with i by lia.
        by rewrite Hi.
Qed.

(** [isosurfaceAsMesh] loses no triangle but the degenerate ones: read
    through the vertex table, the faces of the mesh are, in order, the
    triangles of the extracted vertex stream whose three points differ
    from one another; and the vertices of the mesh are exactly the points
    of the triangles of the stream, those of the degenerate ones
    included. *)
Theorem isosurfaceAsMesh_triangles_kept {C : Type} {HC : Container Qc C}
    (isosurfaceCubes :
       GeoVolume_t C → Qc → SurfaceOrientation_t → list FPosition_s)
    (f : GeoVolume_t C) (threshold : Qc)
    (orientation : SurfaceOrientation_t) (algorithm : IsosurfaceAlgorithm_t) :
  let stream :=
    match algorithm with
    | M_CUBES => isosurfaceCubes f threshold orientation
    | M_TETRAHEDRONS => isosurfaceTetrahedrons f threshold orientation
    end in
  let mesh := isosurfaceAsMesh isosurfaceCubes isosurfaceTetrahedrons
                f threshold orientation algorithm in
  face_points mesh <$> faces mesh = Some <$> filter distinct3 (triangles stream)
  ∧ ∀ p, p ∈ vertices mesh
         ↔ ∃ tr, tr ∈ triangles stream
                 ∧ (p = tr.1.1 ∨ p = tr.1.2 ∨ p = tr.2).
Proof.
  intros stream mesh.
  destruct (reconstructFaces_reconstructed stream) as (_ & Hfaces & Hverts).
  done.
Qed.

(** Every face of the mesh returned by [isosurfaceAsMesh] passes the
    checks of [Mesh::good] and [Mesh::degenerate]: its indices are indices
    of vertices of the mesh, and its three points differ from one
    another. *)
Theorem isosurfaceAsMesh_faces_good {C : Type} {HC : Container Qc C}
    (isosurfaceCubes :
       GeoVolume_t C → Qc → SurfaceOrientation_t → list FPosition_s)
    (f : GeoVolume_t C) (threshold : Qc)
    (orientation : SurfaceOrientation_t) (algorithm : IsosurfaceAlgorithm_t) :
  let mesh := isosurfaceAsMesh isosurfaceCubes isosurfaceTetrahedrons
                f threshold orientation algorithm in
  Forall (λ fc, good mesh fc = true ∧ Mesh_degenerate mesh fc = Some false)
         (faces mesh).
Proof.
  intros mesh. unfold mesh, isosurfaceAsMesh, reconstructFaces.
  match goal with |- context [foldl _ _ (seq 0 (length ?s / 3))] =>
    pose proof (reconstructFaces_inv s) as Hinv end.
  pose proof (mesh_inv_NoDup _ Hinv) as Hnd.
  destruct Hinv as [_ Hfaces].
  eapply Forall_impl; [exact Hfaces|]. simpl.
  intros fc ((Hab & Hac & Hbc) & Ha & Hb & Hc). split.
  - unfold good. by rewrite !bool_decide_eq_true_2.
  - unfold Mesh_degenerate, Face_degenerate.
    rewrite !bool_decide_eq_false_2 by done. simpl.
    destruct (lookup_lt_is_Some_2 _ _ Ha) as [pa Hpa].
    destruct (lookup_lt_is_Some_2 _ _ Hb) as [pb Hpb].
    destruct (lookup_lt_is_Some_2 _ _ Hc) as [pc Hpc].
    rewrite Hpa, Hpb. simpl.
    rewrite bool_decide_eq_false_2.
    2: { intros ->. by apply Hab, (NoDup_lookup _ _ _ pb Hnd). }
    rewrite Hpc. simpl. rewrite !bool_decide_eq_false_2; [done|..].
    + intros ->. by apply Hac, (NoDup_lookup _ _ _ pa Hnd).
    + intros ->. by apply Hbc, (NoDup_lookup _ _ _ pc Hnd).
Qed.

(** The mesh that [isosurfaceAsMesh] builds with marching tetrahedra
    holds every point of the triangle soup of [isosurfaceTetrahedrons]
    and no other: the soup is made of whole triangles, so no point of it
    is left behind the last face. *)
Theorem tetrahedron_mesh_vertices {C : Type} {HC : Container Qc C}
    (isosurfaceCubes :
       GeoVolume_t C → Qc → SurfaceOrientation_t → list FPosition_s)
    (f : GeoVolume_t C) (threshold : Qc)
    (orientation : SurfaceOrientation_t) :
  let mesh := isosurfaceAsMesh isosurfaceCubes isosurfaceTetrahedrons
                f threshold orientation M_TETRAHEDRONS in
  ∀ p, p ∈ vertices mesh
       ↔ p ∈ toPoint3 <$> isosurfaceTetrahedrons f threshold orientation.
Proof.
  intros mesh p.
  set (stream := isosurfaceTetrahedrons f threshold orientation).
  destruct (reconstructFaces_reconstructed stream) as (_ & _ & Hverts).
  destruct (isosurfaceTetrahedrons_spec f threshold orientation) as [Hl _].
  destruct (sum_list_multiple
              (cell_points f threshold
                 <$> cells (sizeX (container_ f)) (sizeY (container_ f))
                           (sizeZ (container_ f)))) as [n Hn].
  { apply Forall_fmap, Forall_forall. intros cell _.
    apply cell_points_multiple. }
  rewrite <-(triangles_points stream n) by (unfold stream; congruence).
  apply Hverts.
Qed.

Lemma length_bind_pair {A B} (l : list A) (g h : A → B) :
  length (l ≫= λ x, [g x; h x]) = (2 * length l)%nat.
Proof.
  induction l as [|x l IH]; [done|].
  rewrite bind_cons, length_app, IH. simpl. lia.
Qed.

Section QuadMesh.
Context {C : Type} {HC : Container Qc C}.
Implicit Types (f : GeoVolume_t C).

Lemma voxelQuads_length f t o i j k :
  ∃ n, length (voxelQuads f t o i j k) = (4 * n)%nat.
Proof.
  unfold voxelQuads. cbv zeta. rewrite !length_app.
  assert (Hif : ∀ (b : bool) (p q r s : FPosition_s),
    length (if b then [p; q; r; s] else []) = (4 * Nat.b2n b)%nat)
    by (by intros []).
  rewrite !Hif. eexists. rewrite <-!Nat.mul_add_distr_l. done.
Qed.

Lemma getQuads_length f t o : ∃ n, length (getQuads f t o) = (4 * n)%nat.
Proof.
  unfold getQuads. induction (voxels _ _ _) as [|v vs [n IH]].
  { by exists 0%nat. }
  rewrite bind_cons, length_app, IH.
  destruct (voxelQuads_length f t o (pos_x v) (pos_y v) (pos_z v)) as [m ->].
  exists (m + n)%nat. lia.
Qed.

Lemma foldl_push_back (ret : Mesh) (l : list FPosition_s) :
  foldl (λ ret vertex, push_back ret (toPoint3 vertex)) ret l
  = mkMesh (vertices ret ++ (toPoint3 <$> l)) (faces ret).
Proof.
  revert ret. induction l as [|p l IH]; intros [vs fs]; simpl.
  { by rewrite app_nil_r. }
  rewrite IH. simpl. by rewrite <-app_assoc.
Qed.

Lemma foldl_addFace (ret : Mesh) (l : list nat) :
  foldl (λ ret quad,
           let ret := addFace ret (quad * 4) (quad * 4 + 1) (quad * 4 + 3) in
           addFace ret (quad * 4 + 1) (quad * 4 + 2) (quad * 4 + 3))%nat ret l
  = mkMesh (vertices ret)
      (faces ret
       ++ (l ≫= λ quad,
             [mkFace 0 (quad * 4) (quad * 4 + 1) (quad * 4 + 3) 0 0 0;
              mkFace 0 (quad * 4 + 1) (quad * 4 + 2) (quad * 4 + 3) 0 0 0])%nat).
Proof.
  revert ret. induction l as [|q l IH]; intros [vs fs].
  { simpl. by rewrite app_nil_r. }
  cbn [foldl]. rewrite IH, bind_cons. unfold addFace. cbn [vertices faces].
  by rewrite <-!app_assoc.
Qed.

Lemma getQuadsAsMesh_eq f t o :
  getQuadsAsMesh f t o
  = mkMesh (toPoint3 <$> getQuads f t o)
      (seq 0 (length (getQuads f t o) / 4) ≫= λ quad,
         [mkFace 0 (quad * 4) (quad * 4 + 1) (quad * 4 + 3) 0 0 0;
          mkFace 0 (quad * 4 + 1) (quad * 4 + 2) (quad * 4 + 3) 0 0 0])%nat.
Proof.
  unfold getQuadsAsMesh. cbv zeta. by rewrite foldl_push_back, foldl_addFace.
Qed.

End QuadMesh.

(** [getQuadsAsMesh] turns every point of [getQuads] into a vertex of its
    own, without merging equal points, and every four of them into two
    faces: the points come in whole quads, every index of a face is an
    index of a vertex of the mesh, no face repeats an index, and every
    vertex belongs to a face. *)
Theorem getQuadsAsMesh_quads {C : Type} {HC : Container Qc C}
    (f : GeoVolume_t C) (threshold : Qc) (orientation : SurfaceOrientation_t) :
  let quads := getQuads f threshold orientation in
  let mesh := getQuadsAsMesh f threshold orientation in
  ∃ n,
    length quads = (4 * n)%nat
    ∧ vertices mesh = toPoint3 <$> quads
    ∧ length (faces mesh) = (2 * n)%nat
    ∧ Forall (λ fc, good mesh fc = true ∧ Face_degenerate fc = false)
             (faces mesh)
    ∧ ∀ i, (i < length (vertices mesh))%nat →
           ∃ fc, fc ∈ faces mesh
                 ∧ (face_a fc = i ∨ face_b fc = i ∨ face_c fc = i).
Proof.
  intros quads mesh.
  destruct (getQuads_length f threshold orientation) as [n Hn].
  fold quads in Hn. exists n.
  assert (Hdiv : (length quads / 4 = n)%nat).
  { rewrite Hn, Nat.mul_comm. by apply Nat.div_mul. }
  unfold mesh. rewrite getQuadsAsMesh_eq. fold quads. rewrite Hdiv.
  cbn [vertices faces]. rewrite length_fmap.
  split; [done|]. split; [done|]. split; [|split].
  - rewrite (length_bind_pair (seq 0 n)), length_seq. done.
  - apply Forall_forall.
    intros fc (q & Hfc & Hq%elem_of_seq)%list_elem_of_bind.
    unfold good, Face_degenerate. cbn [vertices]. rewrite length_fmap, Hn.
    rewrite !elem_of_cons, elem_of_nil in Hfc.
    destruct Hfc as [->|[->|[]]]; cbn [face_a face_b face_c];
      (split;
       [rewrite !bool_decide_eq_true_2 by lia; done
       |rewrite !bool_decide_eq_false_2 by lia; done]).
  - intros i Hi. rewrite Hn in Hi.
    pose proof (Nat.div_mod_eq i 4) as Hdm.
    pose proof (Nat.mod_upper_bound i 4) as Hm.
    assert (Hq : (i / 4)%nat ∈ seq 0 n).
    { apply elem_of_seq. split; [lia|]. change (0 + n)%nat with n.
      apply Nat.Div0.div_lt_upper_bound. lia. }
    destruct (i mod 4)%nat as [|[|[|[|v]]]] eqn:Hv; [| | | |lia].
    + eexists. split.
      * apply list_elem_of_bind. exists (i / 4)%nat.
        split; [apply list_elem_of_here|done].
      * left. cbn [face_a]. lia.
    + eexists. split.
      * apply list_elem_of_bind. exists (i / 4)%nat.
        split; [apply list_elem_of_here|done].
      * right; left. cbn [face_b]. lia.
    + eexists. split.
      * apply list_elem_of_bind. exists (i / 4)%nat.
        split; [apply list_elem_of_further, list_elem_of_here|done].
      * right; left. cbn [face_b]. lia.
    + eexists. split.
      * apply list_elem_of_bind. exists (i / 4)%nat.
        split; [apply list_elem_of_here|done].
      * right; right. cbn [face_c]. lia.
Qed.

(** * The octree is a canonical form *)

Module CanonicalFacts.
Import Octree OctreeFacts.
Section CanonicalFacts.
Context {V : Type} `{EqDecision V}.
Implicit Types (n c s t : Node_s V) (v : Volume_t V).
Implicit Types (pos q : Position_s) (value old : V).

Lemma fromOctant_oct bx by_ bz nodeSize pos :
  fromOctant (oct bx by_ bz) nodeSize pos
  = Position (if bx then pos_x pos + nodeSize ≫ 1 else pos_x pos)
             (if by_ then pos_y pos + nodeSize ≫ 1 else pos_y pos)
             (if bz then pos_z pos + nodeSize ≫ 1 else pos_z pos).
Proof. destruct bx, by_, bz; reflexivity. Qed.

(** The voxel [q] of the child in the octant [(bx,by,bz)] is the voxel
    [fromOctant] of the parent. *)
Lemma Node_get_fromOctant (k : nat) bx by_ bz q s0 s1 s2 s3 s4 s5 s6 s7 :
  in_cube (2 ^ Z.of_nat k) q →
  let pos := fromOctant (oct bx by_ bz) (2 ^ Z.of_nat (S k)) q in
  in_cube (2 ^ Z.of_nat (S k)) pos
  ∧ Node_get (2 ^ Z.of_nat (S k)) pos (GRAY s0 s1 s2 s3 s4 s5 s6 s7)
    = Node_get (2 ^ Z.of_nat k) q
        (subnode (oct bx by_ bz) s0 s1 s2 s3 s4 s5 s6 s7).
Proof.
  intros (Hx & Hy & Hz) pos. unfold pos.
  rewrite Node_get_gray, findOctant_oct, fromOctant_oct, pow2_shiftr.
  cbn [pos_x pos_y pos_z].
  assert (Hb : ∀ (b : bool) x, 0 ≤ x < 2 ^ Z.of_nat k →
    ((if b then x + 2 ^ Z.of_nat k else x) >=? 2 ^ Z.of_nat k) = b).
  { intros [] x Hx'; [apply Z.geb_le|]; [lia|].
    destruct (Z.geb_spec x (2 ^ Z.of_nat k)); [lia|done]. }
  rewrite !Hb by done. rewrite toOctant_oct, pow2_shiftr.
  cbn [pos_x pos_y pos_z]. split.
  - unfold in_cube. rewrite pow2_succ. cbn [pos_x pos_y pos_z].
    destruct bx, by_, bz; lia.
  - f_equal. destruct q as [x y z]. cbn [pos_x pos_y pos_z].
    destruct bx, by_, bz; f_equal; lia.
Qed.

Lemma gray_children_eq s0 s1 s2 s3 s4 s5 s6 s7 t0 t1 t2 t3 t4 t5 t6 t7 :
  (∀ bx by_ bz,
     subnode (oct bx by_ bz) s0 s1 s2 s3 s4 s5 s6 s7
     = subnode (oct bx by_ bz) t0 t1 t2 t3 t4 t5 t6 t7) →
  GRAY s0 s1 s2 s3 s4 s5 s6 s7 = GRAY t0 t1 t2 t3 t4 t5 t6 t7.
Proof.
  intros Hc.
  pose proof (Hc false false false). pose proof (Hc false false true).
  pose proof (Hc false true false). pose proof (Hc false true true).
  pose proof (Hc true false false). pose proof (Hc true false true).
  pose proof (Hc true true false). pose proof (Hc true true true).
  simpl in *. congruence.
Qed.

(** Two collapsed trees of one cube that hold the same values are the
    same tree. *)
Lemma Node_canonical (k : nat) : ∀ n1 n2 : Node_s V,
  fits k n1 = true → fits k n2 = true →
  collapsed n1 = true → collapsed n2 = true →
  (∀ pos, in_cube (2 ^ Z.of_nat k) pos →
          Node_get (2 ^ Z.of_nat k) pos n1 = Node_get (2 ^ Z.of_nat k) pos n2) →
  n1 = n2.
Proof.
  assert (Hsolid : ∀ (k : nat) w s0 s1 s2 s3 s4 s5 s6 s7,
    (∀ n1 n2 : Node_s V,
       fits k n1 = true → fits k n2 = true →
       collapsed n1 = true → collapsed n2 = true →
       (∀ pos, in_cube (2 ^ Z.of_nat k) pos →
          Node_get (2 ^ Z.of_nat k) pos n1
          = Node_get (2 ^ Z.of_nat k) pos n2) →
       n1 = n2) →
    fits (S k) (GRAY s0 s1 s2 s3 s4 s5 s6 s7) = true →
    collapsed (GRAY s0 s1 s2 s3 s4 s5 s6 s7) = true →
    (∀ pos, in_cube (2 ^ Z.of_nat (S k)) pos →
       Node_get (2 ^ Z.of_nat (S k)) pos (GRAY s0 s1 s2 s3 s4 s5 s6 s7) = w) →
    False).
  { intros k' w s0 s1 s2 s3 s4 s5 s6 s7 IH Hfits Hcol Hget.
    rewrite fits_gray in Hfits. apply collapsed_gray in Hcol as [Hun Hcol].
    assert (Hch : ∀ bx by_ bz,
      subnode (oct bx by_ bz) s0 s1 s2 s3 s4 s5 s6 s7 = SOLID w).
    { intros bx by_ bz. apply IH; [|done| |done|].
      - by apply children_all_subnode.
      - by apply children_all_subnode.
      - intros q Hq.
        destruct (Node_get_fromOctant k' bx by_ bz q s0 s1 s2 s3 s4 s5 s6 s7 Hq)
          as [Hin Heq].
        rewrite <-Heq. by apply Hget. }
    pose proof (Hch false false false). pose proof (Hch false false true).
    pose proof (Hch false true false). pose proof (Hch false true true).
    pose proof (Hch true false false). pose proof (Hch true false true).
    pose proof (Hch true true false). pose proof (Hch true true true).
    simpl in *. subst. simpl in Hun.
    by rewrite !bool_decide_eq_true_2 in Hun. }
  induction k as [|k IH]; intros n1 n2 Hf1 Hf2 Hc1 Hc2 Hget.
  - destruct n1 as [v1|], n2 as [v2|]; try done.
    specialize (Hget (Position 0 0 0)). simpl in Hget. f_equal.
    apply Hget. unfold in_cube. simpl. lia.
  - destruct n1 as [v1|s0 s1 s2 s3 s4 s5 s6 s7],
             n2 as [v2|t0 t1 t2 t3 t4 t5 t6 t7].
    + f_equal. apply (Hget (Position 0 0 0)). unfold in_cube. simpl.
      pose proof (pow2_pos (S k)). lia.
    + exfalso. eapply (Hsolid k v1); [exact IH|exact Hf2|exact Hc2|].
      intros pos Hpos. symmetry. by apply Hget.
    + exfalso. eapply (Hsolid k v2); [exact IH|exact Hf1|exact Hc1|].
      intros pos Hpos. by apply Hget.
    + apply gray_children_eq. intros bx by_ bz.
      rewrite fits_gray in Hf1, Hf2.
      apply collapsed_gray in Hc1 as [_ Hc1], Hc2 as [_ Hc2].
      apply IH; [by apply children_all_subnode..|].
      intros q Hq.
      destruct (Node_get_fromOctant k bx by_ bz q s0 s1 s2 s3 s4 s5 s6 s7 Hq)
        as [Hin <-].
      destruct (Node_get_fromOctant k bx by_ bz q t0 t1 t2 t3 t4 t5 t6 t7 Hq)
        as [_ <-].
      by apply Hget.
Qed.

Lemma Volume_canonical_form sizeX sizeY sizeZ (initValue : V) :
  canonical_form (Volume sizeX sizeY sizeZ initValue).
Proof.
  unfold canonical_form, Volume. simpl.
  set (m := Z.max sizeX (Z.max sizeY sizeZ)).
  destruct (Z.ltb_spec 0 m) as [Hm|Hm]; [right|by left].
  exists (Z.to_nat (Z.log2_up m)).
  pose proof (Z.log2_up_nonneg m).
  rewrite Z2Nat.id by done. split_and!; [done..| |done|done].
  destruct (decide (m = 1)) as [->|]; [done|].
  apply Z.log2_up_spec. lia.
Qed.

Lemma Volume_set_canonical_form v v' i j k value :
  canonical_form v → Volume_set v i j k value = Some v' →
  canonical_form v'
  ∧ vol_sizeX v' = vol_sizeX v ∧ vol_sizeY v' = vol_sizeY v
  ∧ vol_sizeZ v' = vol_sizeZ v ∧ vol_initValue v' = vol_initValue v
  ∧ rootSize v' = rootSize v.
Proof.
  intros Hcf. unfold Volume_set.
  destruct (out_of_range _ _ _ i j k) eqn:Hr.
  { intros [= <-]. by split_and!. }
  apply out_of_range_false in Hr.
  destruct Hcf as [[Hm _]|(d & Hsize & Hfits & Hmax & Hcol & Hpad)]; [lia|].
  rewrite Hsize, depth_bound_pow2.
  destruct (Node_set_spec d (S d) (root v) (Position i j k) value)
    as (r & Hset & Hr' & Hget); [lia|done|unfold in_cube; simpl; lia|].
  rewrite Hset. simpl. intros [= <-]. simpl. split_and!; try done.
  right. exists d. simpl. split_and!; [done|done|lia|lia| |].
  - by eapply Node_set_collapsed.
  - intros pos Hpos Hout. rewrite Hget by done.
    rewrite decide_False.
    + rewrite <-Hsize. apply Hpad; [by rewrite Hsize|done].
    + intros ->. simpl in Hout. apply out_of_range_true in Hout. lia.
Qed.

Lemma set_all_canonical_form (ops : list (Position_s * V)) : ∀ v v',
  canonical_form v → set_all ops v = Some v' →
  canonical_form v'
  ∧ vol_sizeX v' = vol_sizeX v ∧ vol_sizeY v' = vol_sizeY v
  ∧ vol_sizeZ v' = vol_sizeZ v ∧ vol_initValue v' = vol_initValue v
  ∧ rootSize v' = rootSize v.
Proof.
  induction ops as [|[p x] ops IH]; intros v v' Hcf.
  { intros [= <-]. by split_and!. }
  unfold set_all in *. cbn [for_each]. simpl.
  destruct (Volume_set v (pos_x p) (pos_y p) (pos_z p) x) as [v1|] eqn:Hset;
    [|done].
  simpl. intros Hrun.
  destruct (Volume_set_canonical_form _ _ _ _ _ _ Hcf Hset)
    as (Hcf1 & ? & ? & ? & ? & ?).
  destruct (IH v1 v' Hcf1 Hrun) as (Hcf' & ? & ? & ? & ? & ?).
  split_and!; [done|congruence..].
Qed.

Lemma canonical_form_eq v1 v2 :
  canonical_form v1 → canonical_form v2 →
  vol_sizeX v1 = vol_sizeX v2 → vol_sizeY v1 = vol_sizeY v2 →
  vol_sizeZ v1 = vol_sizeZ v2 → vol_initValue v1 = vol_initValue v2 →
  rootSize v1 = rootSize v2 →
  (∀ i j k, Volume_get v1 i j k = Volume_get v2 i j k) →
  v1 = v2.
Proof.
  destruct v1 as [r1 rs1 sx1 sy1 sz1 i1], v2 as [r2 rs2 sx2 sy2 sz2 i2].
  unfold canonical_form, Volume_get. simpl.
  intros Hcf1 Hcf2 -> -> -> -> -> Hget. f_equal.
  destruct Hcf1 as [[Hm1 ->]|(k1 & Hs1 & Hf1 & Hm1 & Hc1 & Hp1)],
           Hcf2 as [[Hm2 ->]|(k2 & Hs2 & Hf2 & Hm2 & Hc2 & Hp2)].
  - done.
  - lia.
  - lia.
  - assert (k1 = k2) as ->.
    { apply Nat2Z.inj, (Z.pow_inj_r 2); lia. }
    apply (Node_canonical k2); [done..|]. rewrite <-Hs2.
    intros pos Hpos.
    destruct (out_of_range sx2 sy2 sz2 (pos_x pos) (pos_y pos) (pos_z pos))
      eqn:Hout.
    + by rewrite Hp1, Hp2.
    + specialize (Hget (pos_x pos) (pos_y pos) (pos_z pos)).
      rewrite Hout in Hget. by destruct pos.
Qed.

End CanonicalFacts.
End CanonicalFacts.

(** The octree is a canonical form of the content of the volume: two
    [Volume_t] of the same size and the same [initValue], built by any two
    sequences of [set] operations, that answer every [get] alike are the
    same tree, node for node.  The nodes in use do not depend on the
    order or the history of the writes. *)
Theorem octree_canonical {V : Type} `{EqDecision V}
    (sizeX sizeY sizeZ : Z) (initValue : V)
    (ops1 ops2 : list (Position_s * V)) (o1 o2 : Octree.Volume_t V) :
  set_all ops1 (Octree.Volume sizeX sizeY sizeZ initValue) = Some o1 →
  set_all ops2 (Octree.Volume sizeX sizeY sizeZ initValue) = Some o2 →
  (∀ i j k : Z, get o1 i j k = get o2 i j k) →
  o1 = o2.
Proof.
  intros H1 H2 Hget.
  destruct (CanonicalFacts.set_all_canonical_form ops1 _ _
              (CanonicalFacts.Volume_canonical_form _ _ _ _) H1)
    as (Hcf1 & ? & ? & ? & ? & ?).
  destruct (CanonicalFacts.set_all_canonical_form ops2 _ _
              (CanonicalFacts.Volume_canonical_form _ _ _ _) H2)
    as (Hcf2 & ? & ? & ? & ? & ?).
  apply CanonicalFacts.canonical_form_eq; [done|done|congruence..|done].
Qed.

Lemma octree_canonical_witness :
  set_all [(Position 0 0 0, 5); (Position 1 1 1, 9); (Position 0 0 0, 7);
           (Position 1 1 1, 0)] (Octree.Volume 2 2 2 0)
  = set_all [(Position 0 0 0, 7)] (Octree.Volume 2 2 2 0).
Proof.
  destruct (set_all [(Position 0 0 0, 5); (Position 1 1 1, 9);
                     (Position 0 0 0, 7); (Position 1 1 1, 0)]
              (Octree.Volume 2 2 2 0)) as [o1|] eqn:H1; [|by vm_compute in H1].
  destruct (set_all [(Position 0 0 0, 7)] (Octree.Volume 2 2 2 0))
    as [o2|] eqn:H2; [|by vm_compute in H2].
  f_equal. apply (octree_canonical 2 2 2 0 _ _ o1 o2 H1 H2).
  vm_compute in H1, H2. injection H1 as <-. injection H2 as <-.
  reflexivity.
Defined.

(** * Faces on non-manifold edges *)

Section Manifold.
Implicit Types (faces : list Face) (key : nat * nat).
Implicit Types (edgeMap : gmap (nat * nat) (gset nat)).

Lemma addEdge_recorded fi edgeMap key key' :
  recorded (addEdge fi edgeMap key) key'
  = if decide (key' = key) then recorded edgeMap key ∪ {[fi]}
    else recorded edgeMap key'.
Proof.
  unfold recorded, addEdge. destruct (decide (key' = key)) as [->|Hne].
  - destruct (edgeMap !! key) as [edge|] eqn:Hl.
    + by rewrite lookup_insert_eq.
    + rewrite lookup_insert_eq. simpl. by rewrite (left_id_L ∅ (∪)).
  - destruct (edgeMap !! key) as [edge|] eqn:Hl;
      by rewrite lookup_insert_ne.
Qed.

Lemma foldl_addEdge_recorded fi keys : ∀ edgeMap key',
  recorded (foldl (addEdge fi) edgeMap keys) key'
  = if decide (key' ∈ keys) then recorded edgeMap key' ∪ {[fi]}
    else recorded edgeMap key'.
Proof.
  induction keys as [|key keys IH]; intros edgeMap key'; cbn [foldl].
  { destruct (decide _) as [Hin|]; [by apply elem_of_nil in Hin|done]. }
  rewrite IH, addEdge_recorded.
  destruct (decide (key' = key)) as [->|Hne].
  - rewrite (decide_True (P := key ∈ key :: keys)) by apply list_elem_of_here.
    destruct (decide (key ∈ keys)); [|done].
    by rewrite <-(assoc_L (∪)), (idemp_L (∪)).
  - destruct (decide (key' ∈ keys)) as [Hin|Hin].
    + by rewrite decide_True by (by apply list_elem_of_further).
    + rewrite decide_False; [done|].
      rewrite elem_of_cons. by intros [|].
Qed.

(** The invariant of "count faces for each edge" after the faces [done]:
    the map records for every edge the indices of the faces that have
    it. *)
Lemma countFaces_recorded faces key :
  (∀ fi, fi ∈ recorded (countFaces faces) key
         ↔ ∃ face, faces !! fi = Some face ∧ key ∈ edgeKeys face)
  ∧ size (recorded (countFaces faces) key) = incident faces key.
Proof.
  unfold countFaces, indexed, incident.
  induction faces as [|face faces IH] using rev_ind.
  { unfold recorded. simpl. rewrite lookup_empty. simpl.
    split; [|done]. intros fi. rewrite elem_of_empty.
    split; [done|]. by intros (face & ? & _). }
  destruct IH as [IHin IHsize].
  rewrite imap_app, foldl_app. cbn [imap foldl fst snd].
  rewrite foldl_addEdge_recorded, Nat.add_0_r, filter_app, length_app.
  destruct (decide (key ∈ edgeKeys face)) as [Hkey|Hkey].
  - rewrite filter_cons_True, filter_nil by done. split.
    + intros fi. rewrite elem_of_union, elem_of_singleton, IHin. split.
      * intros [(face' & Hl & Hk)| ->].
        -- exists face'. split; [|done]. by apply lookup_app_l_Some.
        -- exists face. split; [|done]. by rewrite lookup_app_r, Nat.sub_diag.
      * intros (face' & Hl & Hk).
        apply lookup_app_Some in Hl as [Hl|[Hlen Hl]].
        -- left. by exists face'.
        -- right. apply list_lookup_singleton_Some in Hl as [Hz _]. lia.
    + rewrite size_union, size_singleton, IHsize; [done|].
      apply disjoint_singleton_r. rewrite IHin.
      intros (face' & Hl%lookup_lt_Some & _). lia.
  - rewrite filter_cons_False, filter_nil by done. split.
    + intros fi. rewrite IHin. split.
      * intros (face' & Hl & Hk). exists face'.
        split; [|done]. by apply lookup_app_l_Some.
      * intros (face' & Hl & Hk).
        apply lookup_app_Some in Hl as [Hl|[Hlen Hl]].
        -- by exists face'.
        -- apply list_lookup_singleton_Some in Hl as [_ <-]. done.
    + rewrite IHsize. simpl. lia.
Qed.

Lemma facesToOmit_spec edgeMap fi :
  fi ∈ facesToOmit edgeMap
  ↔ ∃ key edge, edgeMap !! key = Some edge ∧ (2 < size edge)%nat ∧ fi ∈ edge.
Proof.
  unfold facesToOmit.
  apply (map_fold_weak_ind
    (λ omit m, fi ∈ omit
               ↔ ∃ key edge, m !! key = Some edge ∧ (2 < size edge)%nat
                             ∧ fi ∈ edge)).
  { rewrite elem_of_empty. split; [done|].
    intros (key & edge & Hl & _). by rewrite lookup_empty in Hl. }
  intros key edge m omit Hnone IH.
  assert (Hstep : (∃ key' edge', <[key:=edge]> m !! key' = Some edge'
                     ∧ (2 < size edge')%nat ∧ fi ∈ edge')
    ↔ ((2 < size edge)%nat ∧ fi ∈ edge)
      ∨ ∃ key' edge', m !! key' = Some edge' ∧ (2 < size edge')%nat
                      ∧ fi ∈ edge').
  { split.
    - intros (key' & edge' & Hl & Hs & Hin).
      destruct (decide (key' = key)) as [->|Hne].
      + rewrite lookup_insert_eq in Hl. injection Hl as <-. by left.
      + rewrite lookup_insert_ne in Hl by done. right. by exists key', edge'.
    - intros [[Hs Hin]|(key' & edge' & Hl & Hs & Hin)].
      + exists key, edge. by rewrite lookup_insert_eq.
      + exists key', edge'. rewrite lookup_insert_ne; [done|].
        intros <-. congruence. }
  rewrite Hstep, <-IH. case_bool_decide as Hsize.
  - rewrite elem_of_union. tauto.
  - tauto.
Qed.

(** A face is omitted exactly when one of its edges lies on more than
    two faces. *)
Lemma omitted_iff faces fi face :
  faces !! fi = Some face →
  fi ∈ facesToOmit (countFaces faces)
  ↔ ∃ key, key ∈ edgeKeys face ∧ (2 < incident faces key)%nat.
Proof.
  intros Hfi. rewrite facesToOmit_spec. split.
  - intros (key & edge & Hl & Hsize & Hin). exists key.
    destruct (countFaces_recorded faces key) as [Hrec Hs].
    unfold recorded in Hrec, Hs. rewrite Hl in Hrec, Hs. simpl in *.
    split; [|lia].
    apply Hrec in Hin as (face' & Hl' & Hk). congruence.
  - intros (key & Hk & Hinc).
    destruct (countFaces_recorded faces key) as [Hrec Hs].
    unfold recorded in Hrec, Hs.
    destruct (countFaces faces !! key) as [edge|] eqn:Hl;
      cbn [from_option id] in *.
    + exists key, edge. split_and!; [done|lia|]. apply Hrec. by exists face.
    + rewrite size_empty in Hs. lia.
Qed.

Lemma foldl_readd (omit : gset nat) (l : list (nat * Face)) : ∀ m : Mesh,
  foldl (λ mesh p,
           if bool_decide (p.1 ∈ omit) then mesh
           else addFace6 mesh (face_a p.2) (face_b p.2) (face_c p.2)
                              (face_ta p.2) (face_tb p.2) (face_tc p.2)) m l
  = {| vertices := vertices m;
       faces := faces m
                ++ ((λ p, readded p.2) <$> filter (λ p, p.1 ∉ omit) l) |}.
Proof.
  induction l as [|p l IH]; intros [vs fs]; simpl.
  { by rewrite app_nil_r. }
  rewrite IH. case_bool_decide as Hin.
  - by rewrite filter_cons_False by (by intros []).
  - rewrite filter_cons_True by done. simpl. by rewrite <-app_assoc.
Qed.

Lemma elem_of_indexed faces fi face :
  (fi, face) ∈ indexed faces ↔ faces !! fi = Some face.
Proof.
  unfold indexed. rewrite elem_of_lookup_imap. split.
  - by intros (i & x & [= -> ->] & Hl).
  - intros Hl. by exists fi, face.
Qed.

Lemma filter_iff_in {A} (P1 P2 : A → Prop)
    `{!∀ x, Decision (P1 x), !∀ x, Decision (P2 x)} (l : list A) :
  (∀ x, x ∈ l → P1 x ↔ P2 x) → filter P1 l = filter P2 l.
Proof.
  induction l as [|a l IH]; intros Hiff; [done|].
  assert (Ha : P1 a ↔ P2 a) by apply Hiff, list_elem_of_here.
  assert (Hl : filter P1 l = filter P2 l).
  { apply IH. intros x Hx. by apply Hiff, list_elem_of_further. }
  destruct (decide (P1 a)) as [H1|H1].
  - rewrite !filter_cons_True by tauto. by rewrite Hl.
  - rewrite !filter_cons_False by tauto. done.
Qed.

Lemma removeNonManifoldEdges_eq (omesh : Mesh) :
  removeNonManifoldEdges omesh
  = {| vertices := vertices omesh;
       faces := (λ p, readded p.2)
                <$> filter (λ p, Forall (λ key, incident (faces omesh) key ≤ 2)%nat
                                        (edgeKeys p.2))
                           (indexed (faces omesh)) |}.
Proof.
  unfold removeNonManifoldEdges. cbv zeta. rewrite foldl_readd. simpl.
  f_equal. f_equal. apply filter_iff_in.
  intros [fi face] Hin%elem_of_indexed. simpl.
  rewrite (omitted_iff _ _ _ Hin), Forall_forall. split.
  - intros Hno key Hk.
    destruct (decide (incident (faces omesh) key ≤ 2)%nat); [done|].
    exfalso. apply Hno. exists key. split; [done|lia].
  - intros Hall (key & Hk & Hinc). specialize (Hall key Hk). lia.
Qed.

Lemma filter_indexed (P : Face → Prop) `{∀ x, Decision (P x)}
    (g : nat → nat) faces :
  (filter (λ p : nat * Face, P p.2) (imap (λ i x, (g i, x)) faces)).*2
  = filter P faces.
Proof.
  revert g. induction faces as [|face faces IH]; intros g; [done|].
  rewrite imap_cons. simpl.
  destruct (decide (P face)).
  - rewrite !filter_cons_True by done. simpl. f_equal. apply (IH (g ∘ S)).
  - rewrite !filter_cons_False by done. apply (IH (g ∘ S)).
Qed.

Lemma length_filter_fmap {A B} (P : B → Prop) `{∀ x, Decision (P x)}
    (f : A → B) (l : list A) :
  length (filter P (f <$> l)) = length (filter (λ x, P (f x)) l).
Proof.
  induction l as [|x l IH]; [done|]. rewrite fmap_cons.
  destruct (decide (P (f x))).
  - rewrite !filter_cons_True by done. cbn [length]. by rewrite IH.
  - by rewrite !filter_cons_False by done.
Qed.

Lemma length_filter_filter {A} (P Q : A → Prop)
    `{!∀ x, Decision (P x), !∀ x, Decision (Q x)} (l : list A) :
  (length (filter P (filter Q l)) ≤ length (filter P l))%nat.
Proof.
  induction l as [|x l IH]; [done|].
  destruct (decide (Q x)), (decide (P x));
    rewrite ?(filter_cons_True Q), ?(filter_cons_False Q) by done;
    rewrite ?(filter_cons_True P), ?(filter_cons_False P) by done;
    simpl; lia.
Qed.

Lemma filter_none {A} (P : A → Prop) `{!∀ x, Decision (P x)} (l : list A) :
  (∀ x, ¬ P x) → filter P l = [].
Proof.
  intros Hno. induction l as [|x l IH]; [done|].
  by rewrite filter_cons_False.
Qed.

End Manifold.

(** [removeNonManifoldEdges] keeps the vertices and, in their order, the
    faces none of whose three edges lies on more than two faces of the
    mesh, every other face being dropped; [imageId] of the faces kept is
    zeroed.  In the mesh returned no edge lies on more than two faces. *)
Theorem removeNonManifoldEdges_manifold (omesh : Mesh) :
  let mesh := removeNonManifoldEdges omesh in
  vertices mesh = vertices omesh
  ∧ faces mesh
    = readded <$> filter (λ face, Forall (λ key, incident (faces omesh) key ≤ 2)%nat
                                         (edgeKeys face))
                         (faces omesh)
  ∧ ∀ key, (incident (faces mesh) key ≤ 2)%nat.
Proof.
  intros mesh. unfold mesh. rewrite removeNonManifoldEdges_eq.
  cbn [vertices faces]. split; [done|].
  set (Q := λ face, Forall (λ key, incident (faces omesh) key ≤ 2)%nat
                           (edgeKeys face)).
  match goal with |- ?l = _ ∧ _ =>
    assert (Hfaces : l = readded <$> filter Q (faces omesh))
  end.
  { rewrite <-(filter_indexed Q id (faces omesh)).
    by rewrite <-list_fmap_compose. }
  rewrite Hfaces. split; [done|]. intros key. unfold incident at 1.
  rewrite length_filter_fmap.
  destruct (decide (incident (faces omesh) key ≤ 2)%nat) as [Hle|Hgt].
  - etrans; [apply length_filter_filter|]. done.
  - rewrite list_filter_filter.
    rewrite filter_none; [simpl; lia|].
    intros face [Hk HQ]. apply Hgt.
    unfold Q in HQ. rewrite Forall_forall in HQ. by apply HQ.
Qed.

(** * The OBJ accumulator *)

Module ObjFacts.
Import ObjParser.
Section ObjFacts.
Context {Vector3d : Type}.
Implicit Types (o : Obj Vector3d) (e : Element Vector3d).
Implicit Types (es : list (Element Vector3d)) (l : list Vector3d).

Lemma add_counted o e : counted o → counted (add o e).
Proof.
  unfold counted, vertices_of, textures_of, normals_of.
  intros (Hv & Ht & Hn).
  destruct e; simpl; rewrite !bind_app, !length_app; simpl; lia.
Qed.

Lemma parsed_counted es : counted (parsed es).
Proof.
  unfold parsed. induction es as [|e es IH] using rev_ind.
  { by split_and!. }
  rewrite foldl_app. simpl. by apply add_counted.
Qed.

Lemma absolute_stands_for l (idx : Z) :
  stands_for l idx (absolute (Z.of_nat (length l)) idx).
Proof.
  unfold stands_for, absolute, named. split.
  - intros Hidx. destruct (Z.ltb_spec idx 0); [lia|done].
  - intros Hidx. destruct (Z.ltb_spec idx 0); [|lia]. split; [lia|].
    destruct (Z.ltb_spec 0 idx); [lia|].
    destruct (Z.ltb_spec 0 (Z.of_nat (length l) + idx + 1)); [|lia].
    rewrite reverse_lookup by lia. f_equal. lia.
Qed.

End ObjFacts.
End ObjFacts.

(** The OBJ accumulator resolves relative indices: the facet passed on
    to the parser for a facet read after the elements [es] has, in place
    of every negative index that names a vertex, a texture coordinate or
    a normal passed on before, counted from the last one, the positive
    index of that same element, counted from the first; indices that are
    not negative are passed on as they are. *)
Theorem Obj_relative_indices {Vector3d : Type}
    (es : list (ObjParser.Element Vector3d)) (f : ObjParser.Facet) :
  let before := ObjParser.p_ (ObjParser.parsed es) in
  ∃ f' : ObjParser.Facet,
    ObjParser.p_ (ObjParser.parsed (es ++ [ObjParser.AFacet f]))
    = before ++ [ObjParser.addFacet f']
    ∧ Forall2 (ObjParser.stands_for (ObjParser.vertices_of before))
              (ObjParser.facet_v f) (ObjParser.facet_v f')
    ∧ Forall2 (ObjParser.stands_for (ObjParser.textures_of before))
              (ObjParser.facet_t f) (ObjParser.facet_t f')
    ∧ Forall2 (ObjParser.stands_for (ObjParser.normals_of before))
              (ObjParser.facet_n f) (ObjParser.facet_n f').
Proof.
  intros before. unfold ObjParser.parsed. rewrite foldl_app. simpl.
  fold (ObjParser.parsed es).
  destruct (ObjFacts.parsed_counted es) as (Hv & Ht & Hn).
  eexists. split; [reflexivity|]. simpl. rewrite Hv, Ht, Hn.
  split_and!; apply Forall2_fmap_r, Forall_Forall2_diag, Forall_forall;
    intros idx _; apply ObjFacts.absolute_stands_for.
Qed.

